(** * A shallow embedding of the LZ77 / Huffman / LZMA archiver

    The development follows the Python sources module by module:
    [Py] holds the handful of Python primitives the sources rely on
    (byte buffers, [struct.pack], indexing with negative wrap-around,
    insertion-ordered dictionaries, UTF-8), then one module per source file.
    Python integers are [Z], [bytes]/[bytearray] values are lists of
    [Byte.byte], exceptions are [None] in the option monad. *)

From Stdlib Require Import ZArith List Lia Bool Ascii.
From Stdlib Require Import Strings.Byte.
From stdpp Require Import base option list numbers sets.

Local Open Scope Z_scope.

#[global] Instance byte_eq_dec : EqDecision byte := Byte.byte_eq_dec.
#[global] Instance ascii_eq_dec : EqDecision ascii := Ascii.ascii_dec.

(* ===================================================================== *)
(** ** Python primitives *)
(* ===================================================================== *)

Module Py.

Abbreviation bytes := (list byte).

(** [b] as the integer Python yields when a [bytes] object is indexed. *)
Definition byte_val (b : byte) : Z := Z.of_N (Byte.to_N b).

(** The byte whose value is [z mod 256]. *)
Definition byte_of_Z (z : Z) : byte :=
  match Byte.of_N (Z.to_N (z mod 256)) with
  | Some b => b
  | None => x00
  end.

(** [bytearray.append(z)] and [struct.pack('B', z)]: only [0 <= z < 256]
    is accepted, anything else raises. *)
Definition mk_byte (z : Z) : option byte :=
  if decide (0 <= z < 256) then Some (byte_of_Z z) else None.

(** Little-endian image of [v] on [n] bytes. *)
Fixpoint le_bytes (n : nat) (v : Z) : bytes :=
  match n with
  | O => []
  | S n' => byte_of_Z v :: le_bytes n' (v / 256)
  end.

(** [struct.pack] of one unsigned field of [n] bytes; out-of-range values
    raise [struct.error].  The sources use native byte order, taken here
    to be little-endian as the container specification states. *)
Definition pack (n : nat) (v : Z) : option bytes :=
  if decide (0 <= v < 256 ^ Z.of_nat n) then Some (le_bytes n v) else None.

(** [struct.unpack] of one unsigned little-endian field. *)
Fixpoint unpack (bs : bytes) : Z :=
  match bs with
  | [] => 0
  | b :: bs' => byte_val b + 256 * unpack bs'
  end.

(** The slice [l[a:b]] for [0 <= a]. *)
Definition slice {A} (a b : nat) (l : list A) : list A :=
  take (b - a) (drop a l).

(** [l[i]] for a Python integer index: negative indices count from the
    end, anything outside [-len, len) raises [IndexError]. *)
Definition index {A} (l : list A) (i : Z) : option A :=
  if decide (0 <= i) then l !! Z.to_nat i
  else if decide (- Z.of_nat (length l) <= i)
       then l !! Z.to_nat (Z.of_nat (length l) + i)
       else None.

(** Insertion-ordered dictionaries ([dict], [Counter]): assigning to an
    existing key keeps its position, a new key goes last. *)
Section Dict.
Context {K V : Type} `{EqDecision K}.

Definition dict := list (K * V).

Fixpoint dict_get (k : K) (d : dict) : option V :=
  match d with
  | [] => None
  | (k', v) :: d' => if decide (k = k') then Some v else dict_get k d'
  end.

Fixpoint dict_set (k : K) (v : V) (d : dict) : dict :=
  match d with
  | [] => [(k, v)]
  | (k', v') :: d' =>
      if decide (k = k') then (k, v) :: d' else (k', v') :: dict_set k v d'
  end.
End Dict.
Arguments dict : clear implicits.

End Py.

(* ===================================================================== *)
(** ** compressor.py : the LZ77 coder *)
(* ===================================================================== *)

Module Compressor.
Import Py.

Definition WINDOW_SIZE : Z := 32 * 1024.
Definition MIN_MATCH : Z := 3.
Definition MAX_MATCH : Z := 258.
Definition HASH_BITS : Z := 16.
Definition HASH_SIZE : Z := Z.shiftl 1 HASH_BITS.

(** [class Token]: the two token types, with the fields each one uses. *)
Inductive Token :=
| LITERAL (literal : Z)
| MATCH (length distance : Z).

#[global] Instance Token_eq_dec : EqDecision Token.
Proof. solve_decision. Defined.

(** [class MatchFinder]: the buffer and the hash chains, a
    [defaultdict(list)] from hash value to positions, oldest first. *)
Record MatchFinder := {
  hash_chains : dict Z (list nat);
  data : bytes
}.

Definition chain (hc : dict Z (list nat)) (h : Z) : list nat :=
  default [] (dict_get h hc).

(** [MatchFinder._hash3] *)
Definition _hash3 (data : bytes) (pos : nat) : Z :=
  if decide (length data < pos + 3)%nat then 0
  else
    let b0 := default 0 (byte_val <$> data !! pos) in
    let b1 := default 0 (byte_val <$> data !! (pos + 1)%nat) in
    let b2 := default 0 (byte_val <$> data !! (pos + 2)%nat) in
    Z.land ((b0 * 65599 + b1) * 65599 + b2) (HASH_SIZE - 1).

(** [MatchFinder.update] on a finder whose buffer has [start_pos] bytes. *)
Definition update (m : MatchFinder) (data : bytes) : MatchFinder :=
  let start_pos := length m.(Compressor.data) in
  {| hash_chains :=
       fold_left
         (fun hc pos =>
            let h := _hash3 data pos in
            dict_set h (chain hc h ++ [pos]) hc)
         (seq start_pos (length data - 2 - start_pos))
         m.(hash_chains);
     data := data |}.

(** The inner [while] of [find_best_match]: starting from [match_length],
    count equal bytes while [match_length < max_possible_length].  The
    first argument bounds the number of iterations. *)
Fixpoint extend_match (fuel : nat) (data : bytes)
    (candidate_pos pos max_possible_length match_length : nat) : nat :=
  match fuel with
  | O => match_length
  | S fuel' =>
      if decide (match_length < max_possible_length)%nat then
        match data !! (candidate_pos + match_length)%nat,
              data !! (pos + match_length)%nat with
        | Some a, Some b =>
            if decide (a = b)
            then extend_match fuel' data candidate_pos pos
                   max_possible_length (S match_length)
            else match_length
        | _, _ => match_length
        end
      else match_length
  end.

(** The [for candidate_pos in reversed(candidates)] loop, with its
    [continue] and [break]. *)
Fixpoint scan_candidates (data : bytes) (pos window_start : nat)
    (cands : list nat) (best_length best_distance : nat) : nat * nat :=
  match cands with
  | [] => (best_length, best_distance)
  | candidate_pos :: rest =>
      if decide (pos <= candidate_pos \/ candidate_pos < window_start)%nat
      then scan_candidates data pos window_start rest best_length best_distance
      else
        let max_possible_length :=
          Nat.min (Z.to_nat MAX_MATCH) (length data - pos) in
        let match_length :=
          extend_match max_possible_length data candidate_pos pos
            max_possible_length 0 in
        if decide (best_length < match_length)%nat then
          let best_length := match_length in
          let best_distance := (pos - candidate_pos)%nat in
          if decide (258 <= best_length)%nat
          then (best_length, best_distance)
          else scan_candidates data pos window_start rest
                 best_length best_distance
        else scan_candidates data pos window_start rest
               best_length best_distance
  end.

(** [MatchFinder.find_best_match] *)
Definition find_best_match (m : MatchFinder) (pos window_start : nat)
    : option (nat * nat) :=
  if decide (length m.(data) < pos + Z.to_nat MIN_MATCH)%nat then None
  else
    let h := _hash3 m.(data) pos in
    let candidates := chain m.(hash_chains) h in
    let '(best_length, best_distance) :=
      scan_candidates m.(data) pos window_start (rev candidates)
        (Z.to_nat MIN_MATCH - 1) 0 in
    if decide (Z.to_nat MIN_MATCH <= best_length)%nat
    then Some (best_length, best_distance)
    else None.

(** The [while pos < len(data)] loop of [LZ77Compressor.compress];
    every iteration advances [pos], so [len(data)] iterations suffice. *)
Fixpoint compress_loop (fuel : nat) (m : MatchFinder) (data : bytes)
    (pos : nat) (tokens : list Token) : list Token :=
  match fuel with
  | O => tokens
  | S fuel' =>
      match data !! pos with
      | None => tokens
      | Some b =>
          let window_start := (pos - Z.to_nat WINDOW_SIZE)%nat in
          match find_best_match m pos window_start with
          | Some (length, distance) =>
              if decide (Z.to_nat MIN_MATCH <= length)%nat then
                compress_loop fuel' m data (pos + length)
                  (tokens ++ [MATCH (Z.of_nat length) (Z.of_nat distance)])
              else
                compress_loop fuel' m data (pos + 1)
                  (tokens ++ [LITERAL (byte_val b)])
          | None =>
              compress_loop fuel' m data (pos + 1)
                (tokens ++ [LITERAL (byte_val b)])
          end
      end
  end.

(** [LZ77Compressor.compress], on a compressor fresh from [__init__]. *)
Definition compress (data : bytes) : list Token :=
  match data with
  | [] => []
  | _ =>
      let m := update {| hash_chains := []; data := [] |} data in
      compress_loop (length data) m data 0 []
  end.

(** [LZ77Compressor.compress] on a compressor that has been used before:
    its matcher [m] keeps the chains and the buffer length of the last
    call, and [update] only indexes the positions from that length on.
    Returns the tokens and the matcher the compressor is left with. *)
Definition compress_with (m : MatchFinder) (data : bytes)
    : list Token * MatchFinder :=
  match data with
  | [] => ([], m)
  | _ =>
      let m := update m data in
      (compress_loop (length data) m data 0 [], m)
  end.

(** The copy loop of a match: [for _ in range(length)], reading
    [output[match_pos]] with Python's indexing. *)
Fixpoint copy_match (n : nat) (output : bytes) (match_pos : Z)
    : option bytes :=
  match n with
  | O => Some output
  | S n' =>
      b ← index output match_pos;
      copy_match n' (output ++ [b]) (match_pos + 1)
  end.

(** [LZ77Compressor.decompress] *)
Fixpoint decompress_from (output : bytes) (tokens : list Token)
    : option bytes :=
  match tokens with
  | [] => Some output
  | LITERAL literal :: rest =>
      b ← mk_byte literal;
      decompress_from (output ++ [b]) rest
  | MATCH len distance :: rest =>
      let match_pos := Z.of_nat (length output) - distance in
      output' ← copy_match (Z.to_nat len) output match_pos;
      decompress_from output' rest
  end.

Definition decompress (tokens : list Token) : option bytes :=
  decompress_from [] tokens.

(** [TokenEncoder.encode_tokens] *)
Definition encode_token (t : Token) : option bytes :=
  match t with
  | LITERAL literal =>
      let byte_val := Z.land literal 255 in
      tag ← pack 1 0;
      lit ← pack 1 byte_val;
      Some (tag ++ lit)
  | MATCH len distance =>
      let encoded_length := len - MIN_MATCH in
      if decide (len <= MAX_MATCH) then
        if decide (distance <= WINDOW_SIZE) then
          tag ← pack 1 1;
          el ← pack 1 encoded_length;
          d ← pack 2 distance;
          Some (tag ++ el ++ d)
        else None
      else None
  end.

Fixpoint encode_tokens (tokens : list Token) : option bytes :=
  match tokens with
  | [] => Some []
  | t :: rest =>
      e ← encode_token t;
      r ← encode_tokens rest;
      Some (e ++ r)
  end.

(** The [while pos < len(data)] loop of [TokenEncoder.decode_tokens].
    [drop pos data] is the unread part of the buffer; a tag that is
    neither 0 nor 1 is skipped. *)
Fixpoint decode_loop (fuel : nat) (data : bytes) (pos : nat)
    (tokens : list Token) : list Token :=
  match fuel with
  | O => tokens
  | S fuel' =>
      match data !! pos with
      | None => tokens
      | Some token_type =>
          let pos := (pos + 1)%nat in
          if decide (byte_val token_type = 0) then
            match data !! pos with
            | None => tokens
            | Some literal_val =>
                decode_loop fuel' data (pos + 1)
                  (tokens ++ [LITERAL (byte_val literal_val)])
            end
          else if decide (byte_val token_type = 1) then
            if decide (length data < pos + 3)%nat then tokens
            else
              match data !! pos with
              | None => tokens
              | Some encoded_length =>
                  let pos := (pos + 1)%nat in
                  let distance := unpack (slice pos (pos + 2) data) in
                  let pos := (pos + 2)%nat in
                  let len := byte_val encoded_length + MIN_MATCH in
                  decode_loop fuel' data pos (tokens ++ [MATCH len distance])
              end
          else decode_loop fuel' data pos tokens
      end
  end.

Definition decode_tokens (data : bytes) : list Token :=
  decode_loop (length data) data 0 [].

(** [compress_data] and [decompress_data] *)
Definition compress_data (data : bytes) : option bytes :=
  encode_tokens (compress data).

Definition decompress_data (compressed : bytes) : option bytes :=
  decompress (decode_tokens compressed).

End Compressor.

(** [class CompressionStats]: the counters that [__init__] computes from a
    token list.  [compression_ratio], a floating-point percentage, is not
    part of the record. *)
Module CompressionStats.
Import Py Compressor.

(** [t.type == TokenType.LITERAL] and [t.type == TokenType.MATCH] *)
Definition is_literal (t : Token) : bool :=
  match t with LITERAL _ => true | MATCH _ _ => false end.
Definition is_match (t : Token) : bool :=
  match t with LITERAL _ => false | MATCH _ _ => true end.

(** [t.length]; a literal token carries the default 0. *)
Definition token_length (t : Token) : Z :=
  match t with LITERAL _ => 0 | MATCH len _ => len end.

(** [sum(...)] of a generator of integers. *)
Definition sum (l : list Z) : Z := fold_left Z.add l 0.

Record t := {
  tokens : list Token;
  original_size : Z;
  literal_count : Z;
  match_count : Z;
  total_match_length : Z;
  estimated_compressed : Z
}.

(** [CompressionStats.__init__] *)
Definition init (tokens : list Token) (original_size : Z) : t :=
  let literal_count := sum ((fun _ => 1) <$> filter is_literal tokens) in
  let match_count := sum ((fun _ => 1) <$> filter is_match tokens) in
  let total_match_length := sum (token_length <$> filter is_match tokens) in
  let estimated_compressed := literal_count * 2 + match_count * 4 in
  {| tokens := tokens; original_size := original_size;
     literal_count := literal_count; match_count := match_count;
     total_match_length := total_match_length;
     estimated_compressed := estimated_compressed |}.

End CompressionStats.

(* ===================================================================== *)
(** ** Python's heapq on a list, ordered by a [__lt__] *)
(* ===================================================================== *)

Module Heapq.
Section Heap.
Context {A : Type} (lt : A -> A -> bool).

(** The [while pos > startpos] loop of [_siftdown]: parents move down
    until [newitem] fits. *)
Fixpoint _siftdown_loop (fuel : nat) (heap : list A)
    (startpos pos : nat) (newitem : A) : option (list A) :=
  if decide (startpos < pos)%nat then
    match fuel with
    | O => None
    | S fuel' =>
        let parentpos := Nat.div2 (pos - 1) in
        parent ← heap !! parentpos;
        if lt newitem parent
        then _siftdown_loop fuel' (<[pos := parent]> heap)
               startpos parentpos newitem
        else Some (<[pos := newitem]> heap)
    end
  else Some (<[pos := newitem]> heap).

Definition _siftdown (heap : list A) (startpos pos : nat)
    : option (list A) :=
  newitem ← heap !! pos;
  _siftdown_loop pos heap startpos pos newitem.

(** The [while childpos < endpos] loop of [_siftup]: the smaller child
    bubbles up until a leaf is reached. *)
Fixpoint _siftup_loop (fuel : nat) (heap : list A)
    (endpos pos childpos : nat) : option (list A * nat) :=
  if decide (childpos < endpos)%nat then
    match fuel with
    | O => None
    | S fuel' =>
        let rightpos := (childpos + 1)%nat in
        childpos ←
          (if decide (rightpos < endpos)%nat then
             c ← heap !! childpos;
             r ← heap !! rightpos;
             Some (if negb (lt c r) then rightpos else childpos)
           else Some childpos);
        x ← heap !! childpos;
        _siftup_loop fuel' (<[pos := x]> heap) endpos childpos
          (2 * childpos + 1)
    end
  else Some (heap, pos).

Definition _siftup (heap : list A) (pos : nat) : option (list A) :=
  let endpos := length heap in
  let startpos := pos in
  newitem ← heap !! pos;
  '(heap, pos) ← _siftup_loop endpos heap endpos pos (2 * pos + 1);
  _siftdown (<[pos := newitem]> heap) startpos pos.

(** [heapq.heappush] *)
Definition heappush (heap : list A) (item : A) : option (list A) :=
  _siftdown (heap ++ [item]) 0%nat (length heap).

(** [heapq.heappop]: the smallest item and the remaining heap;
    [IndexError] on an empty heap. *)
Definition heappop (heap : list A) : option (A * list A) :=
  match list.last heap with
  | None => None
  | Some lastelt =>
      match removelast heap with
      | [] => Some (lastelt, [])
      | returnitem :: rest =>
          heap' ← _siftup (lastelt :: rest) 0%nat;
          Some (returnitem, heap')
      end
  end.

(** [heapq.heapify]: [for i in reversed(range(n // 2))]. *)
Fixpoint heapify_loop (n : nat) (x : list A) : option (list A) :=
  match n with
  | O => Some x
  | S i => x ← _siftup x i; heapify_loop i x
  end.

Definition heapify (x : list A) : option (list A) :=
  heapify_loop (length x / 2)%nat x.
End Heap.
End Heapq.

(* ===================================================================== *)
(** ** huffman.py : the Huffman stage *)
(* ===================================================================== *)

Module Huffman.
Import Py.

(** A Python [str]; the codes are strings of the characters 0 and 1. *)
Abbreviation str := (list ascii).

(** [class HuffmanNode].  [Nil] is Python's [None] where the source has
    an [Optional[HuffmanNode]]; the lists handed to [heapq] hold nodes
    only. *)
Inductive HuffmanNode :=
| Nil
| Node (char : option Z) (freq : Z) (left right : HuffmanNode).

Definition freq (n : HuffmanNode) : Z :=
  match n with
  | Nil => 0
  | Node _ f _ _ => f
  end.

(** [HuffmanNode.__lt__] *)
Definition node_lt (a b : HuffmanNode) : bool :=
  bool_decide (freq a < freq b).

(** [class HuffmanTree] *)
Record HuffmanTree := {
  root : HuffmanNode;
  codes : dict Z str;
  decode_table : dict str Z
}.

(** [HuffmanTree.__init__] *)
Definition empty_tree : HuffmanTree :=
  {| root := Nil; codes := []; decode_table := [] |}.

(** [collections.Counter(data)]: the counts, keyed in order of first
    occurrence. *)
Definition Counter (data : bytes) : dict Z Z :=
  fold_left
    (fun d b =>
       let k := byte_val b in
       dict_set k (default 0 (dict_get k d) + 1) d)
    data [].

(** The nested [traverse] of [_generate_codes]. *)
Fixpoint traverse (node : HuffmanNode) (code : str)
    (acc : dict Z str * dict str Z) : dict Z str * dict str Z :=
  match node with
  | Nil => acc
  | Node (Some char) _ _ _ =>
      let code := match code with [] => ["0"%char] | _ => code end in
      (dict_set char code acc.1, dict_set code char acc.2)
  | Node None _ lft rgt =>
      traverse rgt (code ++ ["1"%char])
        (traverse lft (code ++ ["0"%char]) acc)
  end.

(** [HuffmanTree._generate_codes] *)
Definition _generate_codes (tree : HuffmanTree) : HuffmanTree :=
  match tree.(root) with
  | Nil => {| root := Nil; codes := []; decode_table := [] |}
  | r =>
      let '(codes, decode_table) := traverse r [] ([], []) in
      {| root := r; codes := codes; decode_table := decode_table |}
  end.

(** The [while len(heap) > 1] loop of [build]; each iteration removes
    one node from the heap. *)
Fixpoint merge_loop (fuel : nat) (heap : list HuffmanNode)
    : option (list HuffmanNode) :=
  if decide (1 < length heap)%nat then
    match fuel with
    | O => None
    | S fuel' =>
        '(lft, heap) ← Heapq.heappop node_lt heap;
        '(rgt, heap) ← Heapq.heappop node_lt heap;
        let parent := Node None (freq lft + freq rgt) lft rgt in
        heap ← Heapq.heappush node_lt heap parent;
        merge_loop fuel' heap
    end
  else Some heap.

(** [HuffmanTree.build] *)
Definition build (tree : HuffmanTree) (frequencies : dict Z Z)
    : option HuffmanTree :=
  match frequencies with
  | [] => Some tree
  | _ =>
      let heap := (fun '(ch, f) => Node (Some ch) f Nil Nil) <$> frequencies in
      heap ← Heapq.heapify node_lt heap;
      r ← (if decide (length heap = 1%nat) then
             '(node, _) ← Heapq.heappop node_lt heap;
             Some (Node None (freq node) node Nil)
           else
             heap ← merge_loop (length heap) heap;
             heap !! 0%nat);
      Some (_generate_codes
              {| root := r; codes := tree.(codes);
                 decode_table := tree.(decode_table) |})
  end.

(** [str.encode('ascii')] and [bytes.decode('ascii')]: both raise on
    anything above 127. *)
Definition ascii_encode (s : str) : option bytes :=
  mapM (fun a => if decide (N_of_ascii a < 128)%N
                 then Some (byte_of_ascii a) else None) s.

Definition ascii_decode (bs : bytes) : option str :=
  mapM (fun b => if decide (Byte.to_N b < 128)%N
                 then Some (ascii_of_byte b) else None) bs.

(** [HuffmanTree.serialize] *)
Fixpoint serialize_codes (codes : dict Z str) : option bytes :=
  match codes with
  | [] => Some []
  | (char, code) :: rest =>
      c ← pack 1 char;
      l ← pack 1 (Z.of_nat (length code));
      s ← ascii_encode code;
      r ← serialize_codes rest;
      Some (c ++ l ++ s ++ r)
  end.

Definition serialize (tree : HuffmanTree) : option bytes :=
  match tree.(codes) with
  | [] => pack 2 0
  | codes =>
      n ← pack 2 (Z.of_nat (length codes));
      body ← serialize_codes codes;
      Some (n ++ body)
  end.

(** The [for _ in range(count)] loop of [deserialize]. *)
Fixpoint deserialize_loop (count : nat) (data : bytes) (pos : nat)
    (tree : HuffmanTree) : option HuffmanTree :=
  match count with
  | O => Some tree
  | S count' =>
      if decide (length data < pos + 2)%nat then Some tree
      else
        char ← byte_val <$> data !! pos;
        let pos := (pos + 1)%nat in
        code_len ← (fun b => Z.to_nat (byte_val b)) <$> data !! pos;
        let pos := (pos + 1)%nat in
        if decide (length data < pos + code_len)%nat then Some tree
        else
          code ← ascii_decode (slice pos (pos + code_len) data);
          let pos := (pos + code_len)%nat in
          deserialize_loop count' data pos
            {| root := tree.(root);
               codes := dict_set char code tree.(codes);
               decode_table := dict_set code char tree.(decode_table) |}
  end.

(** [HuffmanTree.deserialize] *)
Definition deserialize (data : bytes) : option HuffmanTree :=
  let tree := empty_tree in
  if decide (length data < 2)%nat then Some tree
  else
    let count := unpack (slice 0 2 data) in
    if decide (count = 0) then Some tree
    else deserialize_loop (Z.to_nat count) data 2 tree.

(** [class BitStream]: the list of bits, each stored as 0 or 1. *)
Definition BitStream := list bool.

(** [int(bit)] for a one-character string: decimal digits only. *)
Definition int_of_char (a : ascii) : option Z :=
  let n := Z.of_N (N_of_ascii a) in
  if decide (48 <= n <= 57) then Some (n - 48) else None.

(** [BitStream.write_bits] *)
Fixpoint write_bits (bits : BitStream) (code : str) : option BitStream :=
  match code with
  | [] => Some bits
  | bit :: rest =>
      b ← int_of_char bit;
      write_bits (bits ++ [bool_decide (b <> 0)]) rest
  end.

(** The inner [for j in range(8)] of [to_bytes]. *)
Definition byte_of_bits (bits : list bool) : Z :=
  fold_left (fun byte bit => Z.lor (Z.shiftl byte 1) (Z.b2z bit)) bits 0.

(** [for i in range(0, len(self.bits), 8)], [n] groups left. *)
Fixpoint pack_groups (n : nat) (bits : list bool) : option bytes :=
  match n with
  | O => Some []
  | S n' =>
      if decide (length bits < 8)%nat then None
      else
        b ← pack 1 (byte_of_bits (take 8 bits));
        r ← pack_groups n' (drop 8 bits);
        Some (b ++ r)
  end.

(** [BitStream.to_bytes] *)
Definition to_bytes (bits : BitStream) : option bytes :=
  let padding := ((8 - length bits mod 8) mod 8)%nat in
  let bits := bits ++ replicate padding false in
  p ← pack 1 (Z.of_nat padding);
  body ← pack_groups ((length bits + 7) / 8)%nat bits;
  Some (p ++ body).

(** The inner [for j in range(7, -1, -1)] of [from_bytes]. *)
Definition bits_of_byte (byte : Z) : list bool :=
  (fun j => bool_decide (Z.land (Z.shiftr byte (Z.of_nat j)) 1 <> 0))
    <$> [7; 6; 5; 4; 3; 2; 1; 0]%nat.

(** [BitStream.from_bytes] *)
Definition from_bytes (data : bytes) : BitStream :=
  match data with
  | [] => []
  | p :: rest =>
      let padding := byte_val p in
      let bits := rest ≫= (fun byte => bits_of_byte (byte_val byte)) in
      if decide (0 < padding)
      then take (length bits - Z.to_nat padding) bits
      else bits
  end.

(** [str(bit)] for a bit of the stream. *)
Definition str_of_bit (bit : bool) : ascii :=
  if bit then "1"%char else "0"%char.

(** [HuffmanEncoder.encode] *)
Fixpoint encode_bytes (codes : dict Z str) (data : bytes)
    (bits : BitStream) : option BitStream :=
  match data with
  | [] => Some bits
  | byte :: rest =>
      let code := default ["0"%char] (dict_get (byte_val byte) codes) in
      bits ← write_bits bits code;
      encode_bytes codes rest bits
  end.

Definition encode (data : bytes) : option (bytes * bytes) :=
  match data with
  | [] =>
      tree_data ← serialize empty_tree;
      Some (tree_data, [])
  | _ =>
      let frequencies := Counter data in
      tree ← build empty_tree frequencies;
      bitstream ← encode_bytes tree.(codes) data [];
      tree_data ← serialize tree;
      encoded_data ← to_bytes bitstream;
      Some (tree_data, encoded_data)
  end.

(** The [for bit in bitstream.bits] loop of [decode]. *)
Fixpoint decode_bits (table : dict str Z) (bits : list bool)
    (current_code : str) (output : bytes) : option bytes :=
  match bits with
  | [] => Some output
  | bit :: rest =>
      let current_code := current_code ++ [str_of_bit bit] in
      match dict_get current_code table with
      | Some char =>
          b ← mk_byte char;
          decode_bits table rest [] (output ++ [b])
      | None => decode_bits table rest current_code output
      end
  end.

(** [HuffmanEncoder.decode] *)
Definition decode (tree_data encoded_data : bytes) : option bytes :=
  tree ← deserialize tree_data;
  match tree.(decode_table) with
  | [] => Some []
  | table =>
      let bitstream := from_bytes encoded_data in
      decode_bits table bitstream [] []
  end.

(** [compress_with_huffman] *)
Definition compress_with_huffman (data : bytes) : option bytes :=
  '(tree_data, encoded_data) ← encode data;
  a ← pack 4 (Z.of_nat (length tree_data));
  b ← pack 4 (Z.of_nat (length encoded_data));
  Some (a ++ tree_data ++ b ++ encoded_data).

(** [decompress_with_huffman] *)
Definition decompress_with_huffman (data : bytes) : option bytes :=
  let pos := 0%nat in
  if decide (length data < 8)%nat then Some []
  else
    let tree_size := Z.to_nat (unpack (slice pos (pos + 4) data)) in
    let pos := (pos + 4)%nat in
    if decide (length data < pos + tree_size)%nat then Some []
    else
      let tree_data := slice pos (pos + tree_size) data in
      let pos := (pos + tree_size)%nat in
      if decide (length data < pos + 4)%nat then Some []
      else
        let encoded_size := Z.to_nat (unpack (slice pos (pos + 4) data)) in
        let pos := (pos + 4)%nat in
        if decide (length data < pos + encoded_size)%nat then Some []
        else
          let encoded_data := slice pos (pos + encoded_size) data in
          decode tree_data encoded_data.

End Huffman.

(* ===================================================================== *)
(** ** Library codecs used by format.py : UTF-8 and CRC-32 *)
(* ===================================================================== *)

Module Codec.
Import Py.

(** A Python [str] as its sequence of code points. *)
Abbreviation ustr := (list Z).

Definition is_surrogate (cp : Z) : Prop := 0xD800 <= cp <= 0xDFFF.

(** [str.encode('utf-8')] of one code point; lone surrogates and values
    outside the Unicode range raise. *)
Definition utf8_encode_cp (cp : Z) : option bytes :=
  if decide (cp < 0) then None
  else if decide (cp < 0x80) then Some [byte_of_Z cp]
  else if decide (cp < 0x800) then
    Some [byte_of_Z (0xC0 + cp / 64); byte_of_Z (0x80 + cp mod 64)]
  else if decide (cp < 0x10000) then
    if decide (is_surrogate cp) then None
    else Some [byte_of_Z (0xE0 + cp / 4096);
               byte_of_Z (0x80 + (cp / 64) mod 64);
               byte_of_Z (0x80 + cp mod 64)]
  else if decide (cp <= 0x10FFFF) then
    Some [byte_of_Z (0xF0 + cp / 262144);
          byte_of_Z (0x80 + (cp / 4096) mod 64);
          byte_of_Z (0x80 + (cp / 64) mod 64);
          byte_of_Z (0x80 + cp mod 64)]
  else None.

Fixpoint utf8_encode (s : ustr) : option bytes :=
  match s with
  | [] => Some []
  | cp :: rest =>
      b ← utf8_encode_cp cp;
      r ← utf8_encode rest;
      Some (b ++ r)
  end.

(** The payload of a continuation byte [10xxxxxx]. *)
Definition cont (b : byte) : option Z :=
  let v := byte_val b in
  if decide (0x80 <= v < 0xC0) then Some (v - 0x80) else None.

(** [bytes.decode('utf-8')], strict: truncated or overlong sequences,
    surrogates and values above U+10FFFF raise. *)
Fixpoint utf8_decode (bs : bytes) : option ustr :=
  match bs with
  | [] => Some []
  | b0 :: bs1 =>
      let v := byte_val b0 in
      if decide (v < 0x80) then
        r ← utf8_decode bs1; Some (v :: r)
      else if decide (0xC0 <= v < 0xE0) then
        match bs1 with
        | b1 :: bs2 =>
            c1 ← cont b1;
            let cp := (v - 0xC0) * 64 + c1 in
            if decide (0x80 <= cp) then
              r ← utf8_decode bs2; Some (cp :: r)
            else None
        | _ => None
        end
      else if decide (0xE0 <= v < 0xF0) then
        match bs1 with
        | b1 :: b2 :: bs3 =>
            c1 ← cont b1;
            c2 ← cont b2;
            let cp := (v - 0xE0) * 4096 + c1 * 64 + c2 in
            if decide (0x800 <= cp /\ ~ is_surrogate cp) then
              r ← utf8_decode bs3; Some (cp :: r)
            else None
        | _ => None
        end
      else if decide (0xF0 <= v < 0xF8) then
        match bs1 with
        | b1 :: b2 :: b3 :: bs4 =>
            c1 ← cont b1;
            c2 ← cont b2;
            c3 ← cont b3;
            let cp := (v - 0xF0) * 262144 + c1 * 4096 + c2 * 64 + c3 in
            if decide (0x10000 <= cp <= 0x10FFFF) then
              r ← utf8_decode bs4; Some (cp :: r)
            else None
        | _ => None
        end
      else None
  end.

(** [zlib.crc32]: the CRC-32 of IEEE 802.3, reflected polynomial
    [0xEDB88320], initial value and final xor [0xFFFFFFFF], computed bit
    by bit. *)
Definition crc_poly : Z := 0xEDB88320.

Definition crc_shift (c : Z) : Z :=
  if Z.testbit c 0
  then Z.lxor (Z.shiftr c 1) crc_poly
  else Z.shiftr c 1.

Definition crc_update (c : Z) (b : byte) : Z :=
  Nat.iter 8 crc_shift (Z.lxor c (byte_val b)).

Definition zlib_crc32 (data : bytes) : Z :=
  Z.lxor (fold_left crc_update data 0xFFFFFFFF) 0xFFFFFFFF.

End Codec.

(* ===================================================================== *)
(** ** format.py : the LZHA container *)
(* ===================================================================== *)

Module Format.
Import Py Codec.

Definition ARCHIVE_MAGIC : bytes := [x4c; x5a; x48; x41].
Definition ARCHIVE_VERSION : Z := 1.

(** [class FileEntry] *)
Record FileEntry := {
  filename : ustr;
  original_size : Z;
  compressed_size : Z;
  compressed_data : bytes;
  crc32 : Z
}.

(** [class ArchiveHeader] *)
Record ArchiveHeader := {
  magic : bytes;
  version : Z;
  reserved : bytes
}.

Definition new_header : ArchiveHeader :=
  {| magic := ARCHIVE_MAGIC; version := ARCHIVE_VERSION;
     reserved := replicate 10 x00 |}.

(** [ArchiveHeader.serialize] *)
Definition header_serialize (h : ArchiveHeader) : option bytes :=
  v ← pack 1 h.(version);
  z ← pack 1 0;
  Some (h.(magic) ++ v ++ z ++ h.(reserved)).

(** [ArchiveHeader.deserialize] *)
Definition header_deserialize (data : bytes) : option ArchiveHeader :=
  if decide (length data < 16)%nat then None
  else
    let header := new_header in
    let pos := 0%nat in
    let magic' := slice pos (pos + 4) data in
    if decide (magic' <> ARCHIVE_MAGIC) then None
    else
      let pos := (pos + 4)%nat in
      version' ← byte_val <$> data !! pos;
      if decide (version' <> ARCHIVE_VERSION) then None
      else
        let pos := (pos + 1)%nat in
        let pos := (pos + 1)%nat in
        Some {| magic := header.(magic); version := header.(version);
                reserved := slice pos (pos + 10) data |}.

(** [ArchiveFormat._write_entry]: the bytes it appends to the output. *)
Definition _write_entry (entry : FileEntry) : option bytes :=
  filename_bytes ← utf8_encode entry.(filename);
  n ← pack 2 (Z.of_nat (length filename_bytes));
  o ← pack 8 entry.(original_size);
  c ← pack 8 entry.(compressed_size);
  k ← pack 4 entry.(crc32);
  Some (n ++ filename_bytes ++ o ++ c ++ k ++ entry.(compressed_data)).

Fixpoint write_entries (entries : list FileEntry) : option bytes :=
  match entries with
  | [] => Some []
  | entry :: rest =>
      e ← _write_entry entry;
      r ← write_entries rest;
      Some (e ++ r)
  end.

(** [ArchiveFormat.create_archive] *)
Definition create_archive (entries : list FileEntry) : option bytes :=
  h ← header_serialize new_header;
  n ← pack 4 (Z.of_nat (length entries));
  body ← write_entries entries;
  Some (h ++ n ++ body).

(** [ArchiveFormat._read_entry] *)
Definition _read_entry (data : bytes) (pos : nat)
    : option (FileEntry * nat) :=
  if decide (length data < pos + 2)%nat then None
  else
    let filename_len := Z.to_nat (unpack (slice pos (pos + 2) data)) in
    let pos := (pos + 2)%nat in
    if decide (length data < pos + filename_len)%nat then None
    else
      filename ← utf8_decode (slice pos (pos + filename_len) data);
      let pos := (pos + filename_len)%nat in
      if decide (length data < pos + 16)%nat then None
      else
        let original_size := unpack (slice pos (pos + 8) data) in
        let pos := (pos + 8)%nat in
        let compressed_size := unpack (slice pos (pos + 8) data) in
        let pos := (pos + 8)%nat in
        let crc32 := unpack (slice pos (pos + 4) data) in
        let pos := (pos + 4)%nat in
        if decide (Z.of_nat (length data) < Z.of_nat pos + compressed_size)
        then None
        else
          let compressed_data :=
            slice pos (pos + Z.to_nat compressed_size) data in
          let pos := (pos + Z.to_nat compressed_size)%nat in
          Some ({| filename := filename; original_size := original_size;
                   compressed_size := compressed_size;
                   compressed_data := compressed_data; crc32 := crc32 |},
                pos).

(** The [for _ in range(entry_count)] loop of [read_archive]. *)
Fixpoint read_entries (count : nat) (data : bytes) (pos : nat)
    (entries : list FileEntry) : option (list FileEntry) :=
  match count with
  | O => Some entries
  | S count' =>
      '(entry, new_pos) ← _read_entry data pos;
      read_entries count' data new_pos (entries ++ [entry])
  end.

(** [ArchiveFormat.read_archive] *)
Definition read_archive (data : bytes) : option (list FileEntry) :=
  let pos := 0%nat in
  if decide (length data < 16)%nat then None
  else
    let header_data := slice pos (pos + 16) data in
    _ ← header_deserialize header_data;
    let pos := (pos + 16)%nat in
    if decide (length data < pos + 4)%nat then None
    else
      let entry_count := unpack (slice pos (pos + 4) data) in
      let pos := (pos + 4)%nat in
      read_entries (Z.to_nat entry_count) data pos [].

(** [calculate_crc32] *)
Definition calculate_crc32 (data : bytes) : Z :=
  Z.land (zlib_crc32 data) 0xffffffff.

(** [verify_integrity] *)
Definition verify_integrity (entry : FileEntry) (decompressed_data : bytes)
    : bool :=
  if decide (Z.of_nat (length decompressed_data) <> entry.(original_size))
  then false
  else
    let calculated_crc := calculate_crc32 decompressed_data in
    bool_decide (calculated_crc = entry.(crc32)).

End Format.

(* ===================================================================== *)
(** ** archiver.py : files in, archive out *)
(* ===================================================================== *)

(** The data path of [class Archiver].  The file system stays outside: a
    file to compress is the pair of its name, [Path(file_path).name], and
    the bytes [f.read()] returns; a file written on extraction is the pair
    of the entry's name and the bytes passed to [f.write].  Paths that do
    not name a file are skipped by the loops and do not appear here. *)
Module Archiver.
Import Py Codec Compressor Huffman Format.

(** [class Archiver]: the flag and the one [LZ77Compressor] that all
    calls share, of which only the matcher is mutable. *)
Record t := {
  use_huffman : bool;
  compressor : MatchFinder
}.

(** [Archiver.__init__] *)
Definition init (use_huffman : bool) : t :=
  {| use_huffman := use_huffman;
     compressor := {| hash_chains := []; data := [] |} |}.

(** [Archiver.compress_file] *)
Definition compress_file (self : t) (filename : ustr) (data : bytes)
    : option (FileEntry * t) :=
  let original_size := Z.of_nat (length data) in
  let '(tokens, matcher) := compress_with self.(compressor) data in
  lz77_compressed ← encode_tokens tokens;
  final_compressed ←
    (if self.(use_huffman) then compress_with_huffman lz77_compressed
     else Some lz77_compressed);
  let crc32 := calculate_crc32 data in
  Some ({| filename := filename;
           original_size := original_size;
           compressed_size := Z.of_nat (length final_compressed);
           compressed_data := final_compressed;
           crc32 := crc32 |},
        {| use_huffman := self.(use_huffman); compressor := matcher |}).

(** [Archiver.decompress_file]: [Some (Some d)] when it writes [d] and
    returns [True], [Some None] when the integrity check fails and it
    returns [False], [None] when an exception escapes. *)
Definition decompress_file (self : t) (entry : FileEntry)
    : option (option bytes) :=
  lz77_compressed ←
    (if self.(use_huffman)
     then decompress_with_huffman entry.(compressed_data)
     else Some entry.(compressed_data));
  let tokens := decode_tokens lz77_compressed in
  decompressed ← decompress tokens;
  if negb (verify_integrity entry decompressed) then Some None
  else Some (Some decompressed).

(** The [for file_path in file_paths] loop of [create_archive]. *)
Fixpoint compress_files (self : t) (files : list (ustr * bytes))
    (entries : list FileEntry) : option (list FileEntry * t) :=
  match files with
  | [] => Some (entries, self)
  | (filename, data) :: rest =>
      '(entry, self) ← compress_file self filename data;
      compress_files self rest (entries ++ [entry])
  end.

(** [Archiver.create_archive]: the bytes written to [archive_path], or
    no file at all when there is nothing to archive. *)
Definition create_archive (self : t) (files : list (ustr * bytes))
    : option (option bytes * t) :=
  '(entries, self) ← compress_files self files [];
  match entries with
  | [] => Some (None, self)
  | _ =>
      archive_data ← Format.create_archive entries;
      Some (Some archive_data, self)
  end.

(** The [for entry in entries] loop of [extract_archive]: the files it
    writes, in order. *)
Fixpoint extract_entries (self : t) (entries : list FileEntry)
    : option (list (ustr * bytes)) :=
  match entries with
  | [] => Some []
  | entry :: rest =>
      success ← decompress_file self entry;
      written ← extract_entries self rest;
      Some (match success with
            | Some decompressed => (entry.(filename), decompressed) :: written
            | None => written
            end)
  end.

(** [Archiver.extract_archive] on the bytes of an existing archive file:
    the files written by a run that goes through.  [None] stands for a
    run that does not: the archive is rejected, with the error printed
    or raised, or an entry makes [decompress_file] raise. *)
Definition extract_archive (self : t) (archive_data : bytes)
    : option (list (ustr * bytes)) :=
  entries ← read_archive archive_data;
  extract_entries self entries.

(** One iteration of the loop of [add_files]: entries of the same name
    are dropped, the new entry goes last. *)
Definition add_file (self : t) (existing_entries : list FileEntry)
    (filename : ustr) (data : bytes) : option (list FileEntry * t) :=
  let existing_entries :=
    filter (fun e => e.(Format.filename) <> filename) existing_entries in
  '(entry, self) ← compress_file self filename data;
  Some (existing_entries ++ [entry], self).

Fixpoint add_files_loop (self : t) (existing_entries : list FileEntry)
    (files : list (ustr * bytes)) : option (list FileEntry * t) :=
  match files with
  | [] => Some (existing_entries, self)
  | (filename, data) :: rest =>
      '(existing_entries, self) ←
        add_file self existing_entries filename data;
      add_files_loop self existing_entries rest
  end.

(** [Archiver.add_files] on the bytes of an existing archive: the bytes
    written back by a run that goes through; [None] as for
    [extract_archive]. *)
Definition add_files (self : t) (archive_data : bytes)
    (files : list (ustr * bytes)) : option (bytes * t) :=
  existing_entries ← read_archive archive_data;
  '(entries, self) ← add_files_loop self existing_entries files;
  archive_data ← Format.create_archive entries;
  Some (archive_data, self).

End Archiver.

(* ===================================================================== *)
(** ** lzma_compressor.py : range coder and the bespoke LZMA coder *)
(* ===================================================================== *)

Module Lzma.
Import Py.

(** A state-and-exception monad: the Python methods below mutate the
    coder objects and may raise. *)
Definition M (S A : Type) : Type := S -> option (A * S).
Definition ret {S A} (a : A) : M S A := fun s => Some (a, s).
Definition bind {S A B} (m : M S A) (k : A -> M S B) : M S B :=
  fun s => match m s with
           | Some (a, s') => k a s'
           | None => None
           end.
Definition raise {S A} : M S A := fun _ => None.
Definition gets {S A} (f : S -> A) : M S A := fun s => Some (f s, s).
Definition modify {S} (f : S -> S) : M S unit := fun s => Some (tt, f s).
Definition lift {S A} (o : option A) : M S A :=
  fun s => match o with Some a => Some (a, s) | None => None end.

Declare Scope lzma_scope.
Delimit Scope lzma_scope with lzma.
Notation "x <- c ;; k" := (bind c (fun x => k))
  (at level 20, c at level 99, k at level 200, only parsing) : lzma_scope.
Notation "' pat <- c ;; k" :=
  (bind c (fun x => match x with pat => k end))
  (at level 20, pat pattern, c at level 99, k at level 200, only parsing)
  : lzma_scope.

(** [for i in range(n)] threading the state, [i] counting up from [i0]. *)
Fixpoint for_range {S} (n : nat) (i0 : Z) (body : Z -> M S unit) : M S unit :=
  match n with
  | O => ret tt
  | S n' => bind (body i0) (fun _ => for_range n' (i0 + 1) body)
  end.

(* ------------------------------------------------------------------- *)
Module RangeEncoder.

Definition TOP_BITS : Z := 24.
Definition TOP_VALUE : Z := Z.shiftl 1 TOP_BITS.
Definition BIT_MODEL_TOTAL : Z := Z.shiftl 1 11.

Record t := {
  low : Z;
  range : Z;
  output : bytes;
  cache : Z;
  cache_size : Z
}.

(** [RangeEncoder.__init__] *)
Definition init : t :=
  {| low := 0; range := 0xFFFFFFFF; output := []; cache := -1;
     cache_size := 0 |}.

(** The block [if self.cache >= 0: ...] that writes the pending byte and
    the run of [0xFF] bytes; [append] raises on a value above 255. *)
Definition emit_pending (e : t) : option bytes :=
  if decide (0 <= e.(cache)) then
    b ← mk_byte (e.(cache) + Z.shiftr e.(low) 24);
    Some (e.(output) ++ [b] ++ replicate (Z.to_nat (e.(cache_size) - 1)) xff)
  else Some e.(output).

(** The [if self.low < 0xFF000000 ... else ...] block, which
    [encode_bit] and [finish] both run before shifting [low]. *)
Definition shift_out (e : t) : option t :=
  if decide (e.(low) < 0xFF000000) then
    out ← emit_pending e;
    Some {| low := e.(low); range := e.(range); output := out;
            cache := 0; cache_size := 1 |}
  else
    Some {| low := e.(low); range := e.(range); output := e.(output);
            cache := e.(cache) + 1; cache_size := e.(cache_size) |}.

(** [while self.range < self.TOP_VALUE].  After four shifts by 8 bits
    the masked range is 0 and stays 0, so a loop that has not stopped
    within four iterations never stops: that case is [None]. *)
Fixpoint normalize (fuel : nat) (e : t) : option t :=
  if decide (e.(range) < TOP_VALUE) then
    match fuel with
    | O => None
    | S fuel' =>
        e' ← shift_out e;
        normalize fuel'
          {| low := Z.land (Z.shiftl e'.(low) 8) 0xFFFFFFFF;
             range := Z.land (Z.shiftl e'.(range) 8) 0xFFFFFFFF;
             output := e'.(output); cache := e'.(cache);
             cache_size := e'.(cache_size) |}
    end
  else Some e.

Definition normalize_fuel : nat := 4.

(** [RangeEncoder.encode_bit]: returns the updated model. *)
Definition encode_bit (model bit : Z) : M t Z := fun e =>
  let bound := Z.shiftr e.(range) 11 * model in
  let '(e1, new_model) :=
    if decide (bit = 0) then
      ({| low := e.(low); range := bound; output := e.(output);
          cache := e.(cache); cache_size := e.(cache_size) |},
       model + Z.shiftr (BIT_MODEL_TOTAL - model) 5)
    else
      ({| low := e.(low) + bound; range := e.(range) - bound;
          output := e.(output); cache := e.(cache);
          cache_size := e.(cache_size) |},
       model - Z.shiftr model 5) in
  e2 ← normalize normalize_fuel e1;
  Some (new_model, e2).

(** [RangeEncoder.finish] *)
Fixpoint finish_loop (n : nat) (e : t) : option t :=
  match n with
  | O => Some e
  | S n' =>
      e' ← shift_out e;
      finish_loop n'
        {| low := Z.land (Z.shiftl e'.(low) 8) 0xFFFFFFFF;
           range := e'.(range); output := e'.(output);
           cache := e'.(cache); cache_size := e'.(cache_size) |}
  end.

Definition finish (e : t) : option bytes :=
  e' ← finish_loop 5 e;
  emit_pending e'.

End RangeEncoder.

(* ------------------------------------------------------------------- *)
Module RangeDecoder.

Definition TOP_BITS : Z := 24.
Definition TOP_VALUE : Z := Z.shiftl 1 TOP_BITS.
Definition BIT_MODEL_TOTAL : Z := Z.shiftl 1 11.

Record t := {
  data : bytes;
  pos : nat;
  low : Z;
  range : Z;
  code : Z
}.

(** [RangeDecoder._read_byte]: past the end of the input it yields 0. *)
Definition _read_byte (d : t) : Z * t :=
  match d.(data) !! d.(pos) with
  | Some byte =>
      (byte_val byte,
       {| data := d.(data); pos := S d.(pos); low := d.(low);
          range := d.(range); code := d.(code) |})
  | None => (0, d)
  end.

(** [self.code = (self.code << 8) | self._read_byte()] *)
Definition shift_code (d : t) : t :=
  let '(byte, d') := _read_byte d in
  {| data := d'.(data); pos := d'.(pos); low := d'.(low);
     range := d'.(range); code := Z.lor (Z.shiftl d.(code) 8) byte |}.

(** [RangeDecoder.__init__] *)
Definition init (data : bytes) : t :=
  Nat.iter 5 shift_code
    {| data := data; pos := 0; low := 0; range := 0xFFFFFFFF; code := 0 |}.

(** [while self.range < self.TOP_VALUE]; see [RangeEncoder.normalize]
    for the bound on the number of iterations. *)
Fixpoint normalize (fuel : nat) (d : t) : option t :=
  if decide (d.(range) < TOP_VALUE) then
    match fuel with
    | O => None
    | S fuel' =>
        let d' := shift_code d in
        normalize fuel'
          {| data := d'.(data); pos := d'.(pos); low := d'.(low);
             range := Z.land (Z.shiftl d'.(range) 8) 0xFFFFFFFF;
             code := d'.(code) |}
    end
  else Some d.

Definition normalize_fuel : nat := 4.

(** [RangeDecoder.decode_bit]: returns [(bit, new_model)]. *)
Definition decode_bit (model : Z) : M t (Z * Z) := fun d =>
  let bound := Z.shiftr d.(range) 11 * model in
  let '(d1, bit, new_model) :=
    if decide (d.(code) < bound) then
      ({| data := d.(data); pos := d.(pos); low := d.(low);
          range := bound; code := d.(code) |},
       0, model + Z.shiftr (BIT_MODEL_TOTAL - model) 5)
    else
      ({| data := d.(data); pos := d.(pos); low := d.(low);
          range := d.(range) - bound; code := d.(code) - bound |},
       1, model - Z.shiftr model 5) in
  d2 ← normalize normalize_fuel d1;
  Some ((bit, new_model), d2).

(** [RangeDecoder.is_finished] *)
Definition is_finished (d : t) : bool :=
  bool_decide (length d.(data) <= d.(pos))%nat.

End RangeDecoder.

(* ------------------------------------------------------------------- *)
(** [class LZMACompressor] *)

Definition WINDOW_SIZE : Z := Z.shiftl 1 16.
Definition MIN_MATCH : Z := 3.
Definition MAX_MATCH : Z := 273.
Definition NUM_STATES : Z := 12.
Definition NUM_REP_DISTANCES : Z := 4.
Definition LIT_CONTEXT_BITS : Z := 3.
Definition POS_STATE_BITS : Z := 2.
Definition NUM_POS_STATES_MAX : Z := Z.shiftl 1 POS_STATE_BITS.

Record LZMACompressor := {
  level : Z;
  is_match : list (list Z);
  is_rep : list (list Z);
  is_rep0 : list (list Z);
  is_rep1 : list (list Z);
  is_rep0_long : list (list Z);
  lit_models : list (list (list Z));
  len_low : list (list Z);
  len_mid : list (list Z);
  len_high : list Z;
  dist_models : list Z;
  rep_distances : list Z
}.

(** [LZMACompressor.__init__]; [rep_distances] is created by the first
    [compress] or [decompress]. *)
Definition init (level : Z) : LZMACompressor :=
  let rows n := replicate (Z.to_nat NUM_POS_STATES_MAX)
                  (replicate (Z.to_nat n) 1024) in
  {| level := level;
     is_match := rows NUM_STATES;
     is_rep := rows NUM_STATES;
     is_rep0 := rows NUM_STATES;
     is_rep1 := rows NUM_STATES;
     is_rep0_long := rows NUM_STATES;
     lit_models :=
       replicate (Z.to_nat (Z.shiftl 1 LIT_CONTEXT_BITS))
         (replicate (Z.to_nat NUM_STATES) (replicate (Z.to_nat 0x201) 1024));
     len_low := rows (Z.shiftl 1 3);
     len_mid := rows (Z.shiftl 1 3);
     len_high := replicate (Z.to_nat (Z.shiftl 1 8)) 1024;
     dist_models := replicate (Z.to_nat (Z.shiftl 1 6)) 1024;
     rep_distances := [] |}.

(** One probability model inside the object: how to read it and how to
    assign to it.  Reading outside a table raises [IndexError]. *)
Record model_ref := {
  rd : LZMACompressor -> option Z;
  wr : Z -> LZMACompressor -> LZMACompressor
}.

Definition get2 (t : list (list Z)) (i j : Z) : option Z :=
  row ← index t i; index row j.
Definition set2 (t : list (list Z)) (i j v : Z) : list (list Z) :=
  alter (fun row => <[Z.to_nat j := v]> row) (Z.to_nat i) t.

Definition is_match_at (ps st : Z) : model_ref :=
  {| rd c := get2 c.(is_match) ps st;
     wr v c :=
       {| level := c.(level); is_match := set2 c.(is_match) ps st v;
          is_rep := c.(is_rep); is_rep0 := c.(is_rep0);
          is_rep1 := c.(is_rep1); is_rep0_long := c.(is_rep0_long);
          lit_models := c.(lit_models); len_low := c.(len_low);
          len_mid := c.(len_mid); len_high := c.(len_high);
          dist_models := c.(dist_models);
          rep_distances := c.(rep_distances) |} |}.

Definition is_rep_at (ps st : Z) : model_ref :=
  {| rd c := get2 c.(is_rep) ps st;
     wr v c :=
       {| level := c.(level); is_match := c.(is_match);
          is_rep := set2 c.(is_rep) ps st v; is_rep0 := c.(is_rep0);
          is_rep1 := c.(is_rep1); is_rep0_long := c.(is_rep0_long);
          lit_models := c.(lit_models); len_low := c.(len_low);
          len_mid := c.(len_mid); len_high := c.(len_high);
          dist_models := c.(dist_models);
          rep_distances := c.(rep_distances) |} |}.

Definition is_rep0_at (ps st : Z) : model_ref :=
  {| rd c := get2 c.(is_rep0) ps st;
     wr v c :=
       {| level := c.(level); is_match := c.(is_match);
          is_rep := c.(is_rep); is_rep0 := set2 c.(is_rep0) ps st v;
          is_rep1 := c.(is_rep1); is_rep0_long := c.(is_rep0_long);
          lit_models := c.(lit_models); len_low := c.(len_low);
          len_mid := c.(len_mid); len_high := c.(len_high);
          dist_models := c.(dist_models);
          rep_distances := c.(rep_distances) |} |}.

Definition is_rep1_at (ps st : Z) : model_ref :=
  {| rd c := get2 c.(is_rep1) ps st;
     wr v c :=
       {| level := c.(level); is_match := c.(is_match);
          is_rep := c.(is_rep); is_rep0 := c.(is_rep0);
          is_rep1 := set2 c.(is_rep1) ps st v;
          is_rep0_long := c.(is_rep0_long);
          lit_models := c.(lit_models); len_low := c.(len_low);
          len_mid := c.(len_mid); len_high := c.(len_high);
          dist_models := c.(dist_models);
          rep_distances := c.(rep_distances) |} |}.

Definition is_rep0_long_at (ps st : Z) : model_ref :=
  {| rd c := get2 c.(is_rep0_long) ps st;
     wr v c :=
       {| level := c.(level); is_match := c.(is_match);
          is_rep := c.(is_rep); is_rep0 := c.(is_rep0);
          is_rep1 := c.(is_rep1);
          is_rep0_long := set2 c.(is_rep0_long) ps st v;
          lit_models := c.(lit_models); len_low := c.(len_low);
          len_mid := c.(len_mid); len_high := c.(len_high);
          dist_models := c.(dist_models);
          rep_distances := c.(rep_distances) |} |}.

Definition lit_models_at (lit_context st model_idx : Z) : model_ref :=
  {| rd c := t ← index c.(lit_models) lit_context; get2 t st model_idx;
     wr v c :=
       {| level := c.(level); is_match := c.(is_match);
          is_rep := c.(is_rep); is_rep0 := c.(is_rep0);
          is_rep1 := c.(is_rep1); is_rep0_long := c.(is_rep0_long);
          lit_models :=
            alter (fun t => set2 t st model_idx v) (Z.to_nat lit_context)
              c.(lit_models);
          len_low := c.(len_low);
          len_mid := c.(len_mid); len_high := c.(len_high);
          dist_models := c.(dist_models);
          rep_distances := c.(rep_distances) |} |}.

Definition len_low_at (ps model_idx : Z) : model_ref :=
  {| rd c := get2 c.(len_low) ps model_idx;
     wr v c :=
       {| level := c.(level); is_match := c.(is_match);
          is_rep := c.(is_rep); is_rep0 := c.(is_rep0);
          is_rep1 := c.(is_rep1); is_rep0_long := c.(is_rep0_long);
          lit_models := c.(lit_models);
          len_low := set2 c.(len_low) ps model_idx v;
          len_mid := c.(len_mid); len_high := c.(len_high);
          dist_models := c.(dist_models);
          rep_distances := c.(rep_distances) |} |}.

Definition len_mid_at (ps model_idx : Z) : model_ref :=
  {| rd c := get2 c.(len_mid) ps model_idx;
     wr v c :=
       {| level := c.(level); is_match := c.(is_match);
          is_rep := c.(is_rep); is_rep0 := c.(is_rep0);
          is_rep1 := c.(is_rep1); is_rep0_long := c.(is_rep0_long);
          lit_models := c.(lit_models); len_low := c.(len_low);
          len_mid := set2 c.(len_mid) ps model_idx v;
          len_high := c.(len_high);
          dist_models := c.(dist_models);
          rep_distances := c.(rep_distances) |} |}.

Definition len_high_at (i : Z) : model_ref :=
  {| rd c := index c.(len_high) i;
     wr v c :=
       {| level := c.(level); is_match := c.(is_match);
          is_rep := c.(is_rep); is_rep0 := c.(is_rep0);
          is_rep1 := c.(is_rep1); is_rep0_long := c.(is_rep0_long);
          lit_models := c.(lit_models); len_low := c.(len_low);
          len_mid := c.(len_mid);
          len_high := <[Z.to_nat i := v]> c.(len_high);
          dist_models := c.(dist_models);
          rep_distances := c.(rep_distances) |} |}.

Definition dist_models_at (i : Z) : model_ref :=
  {| rd c := index c.(dist_models) i;
     wr v c :=
       {| level := c.(level); is_match := c.(is_match);
          is_rep := c.(is_rep); is_rep0 := c.(is_rep0);
          is_rep1 := c.(is_rep1); is_rep0_long := c.(is_rep0_long);
          lit_models := c.(lit_models); len_low := c.(len_low);
          len_mid := c.(len_mid); len_high := c.(len_high);
          dist_models := <[Z.to_nat i := v]> c.(dist_models);
          rep_distances := c.(rep_distances) |} |}.

Definition set_rep_distances (r : list Z) (c : LZMACompressor)
    : LZMACompressor :=
  {| level := c.(level); is_match := c.(is_match);
     is_rep := c.(is_rep); is_rep0 := c.(is_rep0);
     is_rep1 := c.(is_rep1); is_rep0_long := c.(is_rep0_long);
     lit_models := c.(lit_models); len_low := c.(len_low);
     len_mid := c.(len_mid); len_high := c.(len_high);
     dist_models := c.(dist_models); rep_distances := r |}.

(** [self.T[..] = encoder.encode_bit(self.T[..], bit)] *)
Definition encode_with (r : model_ref) (bit : Z)
    : M (LZMACompressor * RangeEncoder.t) unit :=
  fun '(c, e) =>
    model ← r.(rd) c;
    '(new_model, e') ← RangeEncoder.encode_bit model bit e;
    Some (tt, (r.(wr) new_model c, e')).

(** [bit, self.T[..] = decoder.decode_bit(self.T[..])] *)
Definition decode_with (r : model_ref)
    : M (LZMACompressor * RangeDecoder.t) Z :=
  fun '(c, d) =>
    model ← r.(rd) c;
    '((bit, new_model), d') ← RangeDecoder.decode_bit model d;
    Some (bit, (r.(wr) new_model c, d')).

Local Open Scope lzma_scope.

(** [LZMACompressor._encode_length] *)
Definition _encode_length (length pos_state : Z)
    : M (LZMACompressor * RangeEncoder.t) unit :=
  let length := length - MIN_MATCH in
  if decide (length < 8) then
    for_range 3 0 (fun i =>
      let bit := Z.land (Z.shiftr length i) 1 in
      let model_idx := Z.shiftl 1 i + bit in
      encode_with (len_low_at pos_state model_idx) bit)
  else if decide (length < 10) then
    for_range 3 0 (fun i =>
      let bit := Z.land (Z.shiftr length i) 1 in
      let model_idx := Z.shiftl 1 i + bit in
      encode_with (len_mid_at pos_state model_idx) bit)
  else
    for_range 8 0 (fun i =>
      let bit := Z.land (Z.shiftr length i) 1 in
      encode_with (len_high_at i) bit).

(** The loops [for i in range(n): bit, m = decode_bit(..); acc |= bit << (i + sh)]
    of the decoders. *)
Fixpoint decode_bits_lsb (n : nat) (i : Z) (ref : Z -> model_ref) (sh acc : Z)
    : M (LZMACompressor * RangeDecoder.t) Z :=
  match n with
  | O => ret acc
  | S n' =>
      bit <- decode_with (ref i) ;;
      decode_bits_lsb n' (i + 1) ref sh (Z.lor acc (Z.shiftl bit (i + sh)))
  end.

(** [LZMACompressor._decode_length] *)
Definition _decode_length (pos_state : Z)
    : M (LZMACompressor * RangeDecoder.t) Z :=
  length <- decode_bits_lsb 3 0
              (fun i => len_low_at pos_state (Z.shiftl 1 i)) 0 0 ;;
  if decide (length < 8) then ret (length + MIN_MATCH)
  else
    length <- decode_bits_lsb 2 0
                (fun i => len_mid_at pos_state (Z.shiftl 1 i)) 3 length ;;
    if decide (length < 10) then ret (length + MIN_MATCH)
    else
      length <- decode_bits_lsb 8 0 (fun i => len_high_at i) 0 0 ;;
      ret (length + 10 + MIN_MATCH).

(** [LZMACompressor._encode_distance] *)
Definition _encode_distance (distance : Z)
    : M (LZMACompressor * RangeEncoder.t) unit :=
  if decide (distance <= 4) then
    let slot := distance - 1 in
    for_range 2 0 (fun i =>
      let bit := Z.land (Z.shiftr slot i) 1 in
      encode_with (dist_models_at i) bit)
  else if decide (distance <= 127) then
    for_range 7 0 (fun i =>
      let bit := Z.land (Z.shiftr distance i) 1 in
      encode_with (dist_models_at (i + 2)) bit)
  else
    for_range 16 0 (fun i =>
      let bit := Z.land (Z.shiftr distance i) 1 in
      encode_with (dist_models_at (i + 9)) bit).

(** [LZMACompressor._decode_distance] *)
Definition _decode_distance : M (LZMACompressor * RangeDecoder.t) Z :=
  slot <- decode_bits_lsb 2 0 (fun i => dist_models_at i) 0 0 ;;
  if decide (slot < 4) then ret (slot + 1)
  else
    distance <- decode_bits_lsb 7 0 (fun i => dist_models_at (i + 2)) 0 0 ;;
    if decide (distance <= 127) then ret (distance + 1)
    else
      distance <- decode_bits_lsb 16 0 (fun i => dist_models_at (i + 9)) 0 0 ;;
      ret (distance + 128 + 1).

(** The inner comparison loops of [_find_longest_match]:
    [for length in range(length, length + n)], stopping at the end of
    the buffer or at the first differing byte, one count per equal byte.
    [data[p + length]] is compared with [data[q + length]]. *)
Fixpoint run_length (n : nat) (data : bytes) (length p q count : Z)
    : option Z :=
  match n with
  | O => Some count
  | S n' =>
      if decide (Z.of_nat (List.length data) <= q + length) then Some count
      else
        a ← index data (p + length);
        b ← index data (q + length);
        if decide (a = b)
        then run_length n' data (length + 1) p q (count + 1)
        else Some count
  end.

(** Part 1 of [_find_longest_match]:
    [for i, rep_dist in enumerate(rep_distances)]. *)
Fixpoint probe_reps (data : bytes) (current_pos i : Z) (reps : list Z)
    (max_len best_dist : Z) : option (Z * Z) :=
  match reps with
  | [] => Some (max_len, best_dist)
  | rep_dist :: reps' =>
      if decide (rep_dist = 0 \/ current_pos - rep_dist < 0) then
        probe_reps data current_pos (i + 1) reps' max_len best_dist
      else
        rep_len ← run_length (Z.to_nat MAX_MATCH) data 0
                    (current_pos - rep_dist) current_pos 0;
        if decide (MIN_MATCH <= rep_len /\ max_len < rep_len)
        then probe_reps data current_pos (i + 1) reps' rep_len (- (i + 1))
        else probe_reps data current_pos (i + 1) reps' max_len best_dist
  end.

(** Part 2 of [_find_longest_match]:
    [for match_pos in range(history_start, current_pos)], [n] positions
    left.  The comparison starts at offset [max_len] and counts from 0. *)
Fixpoint search_window (n : nat) (data : bytes) (current_pos match_pos : Z)
    (max_len best_dist : Z) : option (Z * Z) :=
  match n with
  | O => Some (max_len, best_dist)
  | S n' =>
      let dist := current_pos - match_pos in
      current_len ← run_length (Z.to_nat (MAX_MATCH - max_len)) data max_len
                      match_pos current_pos 0;
      if decide (MIN_MATCH <= current_len /\ max_len < current_len) then
        if decide (current_len = MAX_MATCH) then Some (current_len, dist)
        else search_window n' data current_pos (match_pos + 1)
               current_len dist
      else search_window n' data current_pos (match_pos + 1)
             max_len best_dist
  end.

(** [LZMACompressor._find_longest_match] *)
Definition _find_longest_match (data : bytes) (current_pos : Z)
    (rep_distances : list Z) : option (Z * Z) :=
  let history_start := Z.max 0 (current_pos - WINDOW_SIZE) in
  '(max_len, best_dist) ← probe_reps data current_pos 0 rep_distances 0 0;
  search_window (Z.to_nat (current_pos - history_start)) data current_pos
    history_start max_len best_dist.

(** The state update after a literal. *)
Definition literal_state (state : Z) : Z :=
  if decide (state < 4) then 0
  else if decide (state < 10) then state - 3
  else state - 7.

(** [list.pop(i)]: the element and the list without it. *)
Definition pop {A} (l : list A) (i : Z) : option (A * list A) :=
  let j := if decide (0 <= i) then i else Z.of_nat (length l) + i in
  if decide (0 <= j) then
    x ← l !! Z.to_nat j; Some (x, delete (Z.to_nat j) l)
  else None.

(** [for bit_pos in range(7, -1, -1)] of the literal coder in [compress]:
    [n] bits left, the next one at [bit_pos]. *)
Fixpoint encode_literal (n : nat) (bit_pos lit_context state byte_val
    current_prefix : Z) : M (LZMACompressor * RangeEncoder.t) unit :=
  match n with
  | O => ret tt
  | S n' =>
      let bit := Z.land (Z.shiftr byte_val bit_pos) 1 in
      let model_idx := current_prefix in
      _ <- encode_with (lit_models_at lit_context state model_idx) bit ;;
      encode_literal n' (bit_pos - 1) lit_context state byte_val
        (Z.lor (Z.shiftl current_prefix 1) bit)
  end.

(** The [while pos < len(data)] loop of [compress]; every iteration
    advances [pos], so [fuel = len(data)] iterations suffice. *)
Fixpoint compress_loop (fuel : nat) (data : bytes) (pos state : Z)
    : M (LZMACompressor * RangeEncoder.t) unit :=
  if decide (pos < Z.of_nat (length data)) then
    match fuel with
    | O => raise
    | S fuel' =>
        let pos_state := Z.land pos (NUM_POS_STATES_MAX - 1) in
        reps <- gets (fun '(c, _) => c.(rep_distances)) ;;
        ' (match_len, match_dist) <-
            lift (_find_longest_match data pos reps) ;;
        let is_match_possible := bool_decide (MIN_MATCH <= match_len) in
        if negb is_match_possible
           || bool_decide (match_len = 1 /\ state < 7) then
          _ <- encode_with (is_match_at pos_state state) 0 ;;
          prev_byte <- (if decide (0 < pos)
                        then lift (byte_val <$> index data (pos - 1))
                        else ret 0) ;;
          let lit_context := Z.shiftr prev_byte (8 - LIT_CONTEXT_BITS) in
          byte_val <- lift (byte_val <$> index data pos) ;;
          _ <- encode_literal 8 7 lit_context state byte_val 1 ;;
          compress_loop fuel' data (pos + 1) (literal_state state)
        else
          _ <- encode_with (is_match_at pos_state state) 1 ;;
          let is_rep := bool_decide (match_dist < 0) in
          state' <-
            (if is_rep then
               _ <- encode_with (is_rep_at pos_state state) 1 ;;
               let rep_idx := - (match_dist + 1) in
               let bit_rep0 := if decide (0 < rep_idx) then 1 else 0 in
               _ <- encode_with (is_rep0_at pos_state state) bit_rep0 ;;
               _ <- (if decide (rep_idx = 0) then
                       let is_long := if decide (1 < match_len) then 1 else 0 in
                       encode_with (is_rep0_long_at pos_state state) is_long
                     else
                       let bit_rep1 := if decide (rep_idx = 2) then 1 else 0 in
                       encode_with (is_rep1_at pos_state state) bit_rep1) ;;
               reps <- gets (fun '(c, _) => c.(rep_distances)) ;;
               ' (current_dist, reps') <- lift (pop reps rep_idx) ;;
               _ <- modify (fun '(c, e) =>
                      (set_rep_distances (current_dist :: reps') c, e)) ;;
               _ <- _encode_length match_len pos_state ;;
               ret (if decide (state < 7) then 10 else 11)
             else
               _ <- encode_with (is_rep_at pos_state state) 0 ;;
               reps <- gets (fun '(c, _) => c.(rep_distances)) ;;
               ' (_, reps') <- lift (pop reps (NUM_REP_DISTANCES - 1)) ;;
               _ <- modify (fun '(c, e) =>
                      (set_rep_distances (match_dist :: reps') c, e)) ;;
               _ <- _encode_length match_len pos_state ;;
               _ <- _encode_distance match_dist ;;
               ret 7) ;;
          compress_loop fuel' data (pos + match_len) state'
    end
  else ret tt.

Definition MAGIC : bytes := [x4c; x5a; x4d; x41].

(** [LZMACompressor.compress] *)
Definition compress (self : LZMACompressor) (data : bytes)
    : option (bytes * LZMACompressor) :=
  if decide (length data = 0%nat) then
    size ← pack 8 0; Some (MAGIC ++ size, self)
  else
    let encoder := RangeEncoder.init in
    size ← pack 8 (Z.of_nat (length data));
    let header := MAGIC ++ size in
    let self := set_rep_distances
                  (replicate (Z.to_nat NUM_REP_DISTANCES) 1) self in
    '(_, (self, encoder)) ←
       compress_loop (length data) data 0 0 (self, encoder);
    compressed ← RangeEncoder.finish encoder;
    Some (header ++ compressed, self).

(** [for bit_pos in range(7, -1, -1)] of the literal decoder. *)
Fixpoint decode_literal (n : nat) (bit_pos lit_context state byte_val
    current_prefix : Z) : M (LZMACompressor * RangeDecoder.t) Z :=
  match n with
  | O => ret byte_val
  | S n' =>
      let model_idx := current_prefix in
      bit <- decode_with (lit_models_at lit_context state model_idx) ;;
      decode_literal n' (bit_pos - 1) lit_context state
        (Z.lor byte_val (Z.shiftl bit bit_pos))
        (Z.lor (Z.shiftl current_prefix 1) bit)
  end.

(** [for _ in range(match_len)] copying a match in [decompress]. *)
Fixpoint apply_match (n : nat) (result : bytes) (distance original_size : Z)
    : option bytes :=
  match n with
  | O => Some result
  | S n' =>
      if decide (original_size <= Z.of_nat (length result)) then Some result
      else
        let copy_idx := Z.of_nat (length result) - distance in
        if decide (copy_idx < 0 \/ Z.of_nat (length result) <= copy_idx)
        then None
        else
          b ← index result copy_idx;
          apply_match n' (result ++ [b]) distance original_size
  end.

(** The [while len(result) < original_size] loop of [decompress]; every
    iteration that does not raise or break appends a byte. *)
Fixpoint decompress_loop (fuel : nat) (original_size : Z) (result : bytes)
    (state : Z) : M (LZMACompressor * RangeDecoder.t) bytes :=
  if decide (Z.of_nat (length result) < original_size) then
    match fuel with
    | O => raise
    | S fuel' =>
        let pos := Z.of_nat (length result) in
        let pos_state := Z.land pos (NUM_POS_STATES_MAX - 1) in
        match_bit <- decode_with (is_match_at pos_state state) ;;
        ' (result, state) <-
          (if decide (match_bit = 0) then
             prev_byte <- (if decide (0 < pos)
                           then lift (byte_val <$> index result (pos - 1))
                           else ret 0) ;;
             let lit_context := Z.shiftr prev_byte (8 - LIT_CONTEXT_BITS) in
             byte_val <- decode_literal 8 7 lit_context state 0 1 ;;
             b <- lift (mk_byte byte_val) ;;
             ret (result ++ [b], literal_state state)
           else
             rep_bit <- decode_with (is_rep_at pos_state state) ;;
             ' (match_len, state') <-
               (if decide (rep_bit = 1) then
                  bit_rep0 <- decode_with (is_rep0_at pos_state state) ;;
                  rep_idx <-
                    (if decide (bit_rep0 = 0) then
                       _ <- decode_with (is_rep0_long_at pos_state state) ;;
                       ret 0
                     else
                       bit_rep1 <- decode_with (is_rep1_at pos_state state) ;;
                       ret (if decide (bit_rep1 = 0) then 1 else 2)) ;;
                  reps <- gets (fun '(c, _) => c.(rep_distances)) ;;
                  ' (current_dist, reps') <- lift (pop reps rep_idx) ;;
                  _ <- modify (fun '(c, d) =>
                         (set_rep_distances (current_dist :: reps') c, d)) ;;
                  match_len <- _decode_length pos_state ;;
                  ret (match_len, if decide (state < 7) then 10 else 11)
                else
                  match_len <- _decode_length pos_state ;;
                  match_dist <- _decode_distance ;;
                  let match_dist :=
                    if decide (match_dist = 0) then 1 else match_dist in
                  reps <- gets (fun '(c, _) => c.(rep_distances)) ;;
                  ' (_, reps') <- lift (pop reps (NUM_REP_DISTANCES - 1)) ;;
                  _ <- modify (fun '(c, d) =>
                         (set_rep_distances (match_dist :: reps') c, d)) ;;
                  ret (match_len, 7)) ;;
             reps <- gets (fun '(c, _) => c.(rep_distances)) ;;
             distance <- lift (index reps 0) ;;
             result <- lift (apply_match (Z.to_nat match_len) result
                               distance original_size) ;;
             ret (result, state')) ;;
        exhausted <- gets (fun '(_, d) =>
          bool_decide (length d.(RangeDecoder.data) <= d.(RangeDecoder.pos))%nat) ;;
        if exhausted && bool_decide (Z.of_nat (length result) < original_size)
        then ret result
        else decompress_loop fuel' original_size result state
    end
  else ret result.

(** [LZMACompressor.decompress] *)
Definition decompress (self : LZMACompressor) (data : bytes)
    : option (bytes * LZMACompressor) :=
  if decide (take 4 data <> MAGIC \/ (length data < 12)%nat) then Some ([], self)
  else
    let original_size := unpack (slice 4 12 data) in
    if decide (original_size = 0) then Some ([], self)
    else
      let decoder := RangeDecoder.init (drop 12 data) in
      let self := set_rep_distances
                    (replicate (Z.to_nat NUM_REP_DISTANCES) 1) self in
      '(result, (self, _)) ←
         decompress_loop (Z.to_nat original_size) original_size [] 0
           (self, decoder);
      Some (take (Z.to_nat original_size) result, self).
End Lzma.

(* ===================================================================== *)
(** ** Predicates used in the statements *)
(* ===================================================================== *)

Module Spec.
Import Py.

Section LZ77.
Import Compressor.

(** What a back-reference found at [pos] must satisfy. *)
Definition match_ok (data : bytes) (pos ws len dist : nat) : Prop :=
  (3 <= len <= 258)%nat /\ (1 <= dist <= pos)%nat /\
  (ws <= pos - dist)%nat /\ (pos + len <= length data)%nat /\
  forall k, (k < len)%nat -> data !! (pos - dist + k)%nat = data !! (pos + k)%nat.

(** Tokens the serializer accepts. *)
Definition token_ok (t : Token) : Prop :=
  match t with
  | LITERAL lit => 0 <= lit < 256
  | MATCH len dist => 3 <= len <= 258 /\ 0 <= dist <= 32768
  end.

(** The bytes of a token cut short: a literal tag without its byte, or
    a match tag with fewer than three operand bytes. *)
Definition truncated_token (tail : bytes) : Prop :=
  tail = [x00] \/ exists ops, tail = x01 :: ops /\ (length ops < 3)%nat.

(** Tokens whose matches stay inside what has been decoded: [n] is the
    length of the output before the first token. *)
Fixpoint tokens_in_range (n : Z) (tokens : list Token) : Prop :=
  match tokens with
  | [] => True
  | LITERAL lit :: rest => 0 <= lit < 256 /\ tokens_in_range (n + 1) rest
  | MATCH len dist :: rest =>
      0 <= len /\ 1 <= dist <= n /\ tokens_in_range (n + len) rest
  end.

End LZ77.

(** [perturbed] is [original] with exactly one byte changed. *)
Definition single_byte_perturbation (original perturbed : bytes) : Prop :=
  exists pre x y post,
    original = pre ++ x :: post /\ perturbed = pre ++ y :: post /\ x <> y.

(** The invariants of a [FileEntry] that the container can carry. *)
Definition entry_ok (e : Format.FileEntry) : Prop :=
  Format.compressed_size e = Z.of_nat (length (Format.compressed_data e)) /\
  (exists fb, Codec.utf8_encode (Format.filename e) = Some fb /\
              Z.of_nat (length fb) < 2 ^ 16) /\
  0 <= Format.original_size e < 2 ^ 64 /\
  0 <= Format.compressed_size e < 2 ^ 64 /\
  0 <= Format.crc32 e < 2 ^ 32.

(** The protocol of the range-coder symmetry claim: the bits are coded
    one after the other, each with the model in the given slot of a
    model array, and the model returned by the coder is stored back. *)
Fixpoint encode_seq (steps : list (nat * Z)) (models : list Z)
    (e : Lzma.RangeEncoder.t) : option (list Z * Lzma.RangeEncoder.t) :=
  match steps with
  | [] => Some (models, e)
  | (slot, bit) :: rest =>
      model ← models !! slot;
      '(new_model, e') ← Lzma.RangeEncoder.encode_bit model bit e;
      encode_seq rest (<[slot := new_model]> models) e'
  end.

Definition range_encode (models : list Z) (steps : list (nat * Z))
    : option (bytes * list Z) :=
  '(models', e) ← encode_seq steps models Lzma.RangeEncoder.init;
  out ← Lzma.RangeEncoder.finish e;
  Some (out, models').

Fixpoint decode_seq (slots : list nat) (models : list Z)
    (d : Lzma.RangeDecoder.t) : option (list Z * list Z) :=
  match slots with
  | [] => Some ([], models)
  | slot :: rest =>
      model ← models !! slot;
      '((bit, new_model), d') ← Lzma.RangeDecoder.decode_bit model d;
      '(bits, models') ← decode_seq rest (<[slot := new_model]> models) d';
      Some (bit :: bits, models')
  end.

Definition range_decode (models : list Z) (slots : list nat) (data : bytes)
    : option (list Z * list Z) :=
  decode_seq slots models (Lzma.RangeDecoder.init data).

(** A decoder between two calls of [decode_bit]: the range is
    normalized. *)
Definition decoder_ok (d : Lzma.RangeDecoder.t) : Prop :=
  2 ^ 24 <= Lzma.RangeDecoder.range d < 2 ^ 32.

(** The two distance models that [_decode_distance] reads first exist
    and are proper probabilities. *)
Definition dist_models_ok (c : Lzma.LZMACompressor) : Prop :=
  forall i : nat, (i < 2)%nat ->
    exists m, Lzma.dist_models c !! i = Some m /\ 0 < m < 2048.

(** Compression and decompression with a compressor fresh from
    [LZMACompressor()]. *)
Definition lzma_compress (data : bytes) : option bytes :=
  fst <$> Lzma.compress (Lzma.init 6) data.

Definition lzma_decompress (data : bytes) : option bytes :=
  fst <$> Lzma.decompress (Lzma.init 6) data.

Section HuffmanSpec.
Import Huffman.

(** A proper Huffman tree: leaves carry a symbol and no children, inner
    nodes carry two proper subtrees. *)
Inductive wf_tree : HuffmanNode -> Prop :=
| wf_leaf c f : wf_tree (Node (Some c) f Nil Nil)
| wf_node f l r : wf_tree l -> wf_tree r -> wf_tree (Node None f l r).

(** The symbols at the leaves, left to right. *)
Fixpoint leaves (t : HuffmanNode) : list Z :=
  match t with
  | Nil => []
  | Node (Some c) _ _ _ => [c]
  | Node None _ l r => leaves l ++ leaves r
  end.

(** The root-to-leaf paths below the prefix [pre], left to right. *)
Fixpoint paths (t : HuffmanNode) (pre : str) : list (Z * str) :=
  match t with
  | Nil => []
  | Node (Some c) _ _ _ => [(c, pre)]
  | Node None _ l r =>
      paths l (pre ++ ["0"%char]) ++ paths r (pre ++ ["1"%char])
  end.

Definition is_bit_char (a : ascii) : Prop := a = "0"%char \/ a = "1"%char.

(** What [HuffmanTree.build] establishes for the bytes of [data]: the
    code table has one entry per byte value of [data], no code is a
    prefix of the code of another symbol, every code has between 1 and
    255 characters [0]/[1], and the decode table is the inverse map. *)
Definition table_ok (data : bytes) (tree : HuffmanTree) : Prop :=
  NoDup (tree.(codes).*1) /\
  (forall k, k ∈ tree.(codes).*1 <-> exists b, b ∈ data /\ k = byte_val b) /\
  (forall c1 code1 c2 code2,
     (c1, code1) ∈ tree.(codes) -> (c2, code2) ∈ tree.(codes) ->
     code1 `prefix_of` code2 -> c1 = c2) /\
  Forall (fun e => (1 <= length e.2 <= 255)%nat /\ Forall is_bit_char e.2)
    tree.(codes) /\
  tree.(decode_table) = (fun e => (e.2, e.1)) <$> tree.(codes).

(** Inserting one table entry into the pair of dictionaries, as
    [traverse] and [deserialize] both do. *)
Definition ins (acc : dict Z str * dict str Z) (e : Z * str)
    : dict Z str * dict str Z :=
  (dict_set e.1 e.2 acc.1, dict_set e.2 e.1 acc.2).

(** The heap item [build] makes of a frequency entry. *)
Definition leaf_of (e : Z * Z) : HuffmanNode := Node (Some e.1) e.2 Nil Nil.

(** The bits of a code string, and the bit string that [encode] emits
    for a buffer under a code table. *)
Definition code_bits (code : str) : list bool :=
  (fun a => bool_decide (a = "1"%char)) <$> code.

Definition code_for (codes : dict Z str) (b : byte) : str :=
  default ["0"%char] (dict_get (byte_val b) codes).

Definition bits_of (codes : dict Z str) (data : bytes) : list bool :=
  data ≫= (fun b => code_bits (code_for codes b)).

(** The bytes of one entry of the serialized table. *)
Definition entry_bytes (e : Z * str) : bytes :=
  byte_of_Z e.1 :: byte_of_Z (Z.of_nat (length e.2)) ::
  (byte_of_ascii <$> e.2).

(** An entry the table format can carry. *)
Definition code_entry_ok (e : Z * str) : Prop :=
  0 <= e.1 < 256 /\ (1 <= length e.2 <= 255)%nat /\ Forall is_bit_char e.2.

(** The Huffman payload of [data] fits the 32-bit size field of the
    blob. *)
Definition huffman_payload_fits (data : bytes) : Prop :=
  match encode data with
  | Some (_, encoded_data) => Z.of_nat (length encoded_data) < 2 ^ 32
  | None => True
  end.

End HuffmanSpec.

(** The three low length models that [_decode_length] reads for a
    position state exist and are proper probabilities. *)
Definition len_low_ok (c : Lzma.LZMACompressor) (pos_state : Z) : Prop :=
  forall i : Z, 0 <= i < 3 ->
    exists m, Lzma.get2 (Lzma.len_low c) pos_state (Z.shiftl 1 i) = Some m /\
              0 < m < 2048.

(** What [_find_longest_match] may return at [current_pos] when there
    are [nreps] repeat distances: no match, or a length and a distance
    in range. *)
Definition match_result_ok (data : bytes) (current_pos nreps : Z)
    (r : Z * Z) : Prop :=
  (r.1 = 0 /\ r.2 = 0) \/
  (3 <= r.1 <= 273 /\ current_pos + r.1 <= Z.of_nat (length data) /\
   (- nreps <= r.2 <= -1 \/
    1 <= r.2 <= current_pos /\ r.2 <= 65536)).

(** A file the archiver can store: its name has a UTF-8 encoding that
    fits the 16-bit length field, and it is shorter than 2^26 bytes, so
    that its token stream fits the Huffman blob. *)
Definition file_ok (f : Codec.ustr * bytes) : Prop :=
  (exists fb, Codec.utf8_encode f.1 = Some fb /\
              Z.of_nat (length fb) < 2 ^ 16) /\
  Z.of_nat (length f.2) < 2 ^ 26.

End Spec.
(* ===================================================================== *)
(** ** Facts about the Python primitives *)
(* ===================================================================== *)

(** Let [lia] see through division and remainder by constants. *)
Ltac Zify.zify_post_hook ::= Z.to_euclidean_division_equations.

Section PyFacts.
Import Py.

Lemma byte_val_range (b : byte) : 0 <= byte_val b < 256.
Proof.
  unfold byte_val. pose proof (Byte.to_N_bounded b). lia.
Qed.

Lemma byte_of_Z_val (b : byte) : byte_of_Z (byte_val b) = b.
Proof.
  unfold byte_of_Z. pose proof (byte_val_range b) as Hr.
  rewrite Z.mod_small by lia. unfold byte_val.
  rewrite N2Z.id, Byte.of_to_N. reflexivity.
Qed.

Lemma byte_val_of_Z (z : Z) : byte_val (byte_of_Z z) = z mod 256.
Proof.
  unfold byte_of_Z, byte_val.
  pose proof (Z.mod_pos_bound z 256 ltac:(lia)) as Hm.
  destruct (Byte.of_N (Z.to_N (z mod 256))) as [b|] eqn:E.
  - apply Byte.to_of_N in E. rewrite E. lia.
  - apply Byte.of_N_None_iff in E. lia.
Qed.

Lemma mk_byte_val (b : byte) : mk_byte (byte_val b) = Some b.
Proof.
  unfold mk_byte. pose proof (byte_val_range b).
  rewrite decide_True by lia. by rewrite byte_of_Z_val.
Qed.

Lemma byte_val_inj (a b : byte) : byte_val a = byte_val b -> a = b.
Proof.
  intros H. rewrite <- (byte_of_Z_val a), <- (byte_of_Z_val b). by rewrite H.
Qed.

Lemma length_le_bytes n v : length (le_bytes n v) = n.
Proof. revert v. induction n as [|n IH]; intros v; simpl; [done|by rewrite IH]. Qed.

Lemma unpack_le_bytes n v :
  unpack (le_bytes n v) = v mod 256 ^ Z.of_nat n.
Proof.
  revert v. induction n as [|n IH]; intros v.
  - simpl. by rewrite Z.mod_1_r.
  - cbn [le_bytes unpack]. rewrite IH, byte_val_of_Z.
    rewrite Nat2Z.inj_succ, Z.pow_succ_r by lia.
    rewrite Z.rem_mul_r by lia. reflexivity.
Qed.

Lemma pack_Some n v :
  0 <= v < 256 ^ Z.of_nat n -> pack n v = Some (le_bytes n v).
Proof. intros H. unfold pack. by rewrite decide_True. Qed.

Lemma unpack_pack n v bs : pack n v = Some bs -> unpack bs = v /\ length bs = n.
Proof.
  unfold pack. case_decide as Hr; [|done]. intros [= <-].
  rewrite unpack_le_bytes, length_le_bytes, Z.mod_small by lia. done.
Qed.

Lemma index_nonneg {A} (l : list A) (i : nat) :
  index l (Z.of_nat i) = l !! i.
Proof. unfold index. rewrite decide_True by lia. by rewrite Nat2Z.id. Qed.

End PyFacts.

(* ===================================================================== *)
(** ** The LZ77 coder round-trips *)
(* ===================================================================== *)

Section LZ77.
Import Py Compressor Spec.

Lemma extend_match_spec fuel data c p maxp ml :
  let r := extend_match fuel data c p maxp ml in
  (ml <= r)%nat /\ (r <= Nat.max ml maxp)%nat /\
  forall k, (ml <= k < r)%nat -> data !! (c + k)%nat = data !! (p + k)%nat.
Proof.
  revert ml. induction fuel as [|fuel IH]; intros ml; simpl.
  - split; [lia|]. split; [lia|]. intros k Hk. lia.
  - case_decide as Hlt; [|split; [lia|split; [lia|intros; lia]]].
    destruct (data !! (c + ml)%nat) as [a|] eqn:Ea;
      [|split; [lia|split; [lia|intros; lia]]].
    destruct (data !! (p + ml)%nat) as [b|] eqn:Eb;
      [|split; [lia|split; [lia|intros; lia]]].
    case_decide as Hab; [|split; [lia|split; [lia|intros; lia]]].
    subst b. destruct (IH (S ml)) as (H1 & H2 & H3).
    split; [lia|]. split; [lia|]. intros k Hk.
    destruct (decide (k = ml)) as [->|Hne]; [congruence|].
    apply H3. lia.
Qed.

Lemma scan_candidates_spec data pos ws cands bl bd :
  (bl = 2%nat \/ match_ok data pos ws bl bd) ->
  let '(l, d) := scan_candidates data pos ws cands bl bd in
  (l = 2%nat \/ match_ok data pos ws l d).
Proof.
  revert bl bd. induction cands as [|c rest IH]; intros bl bd Hinv; simpl.
  - done.
  - case_decide as Hskip; [by apply IH|].
    set (maxp := Nat.min (Z.to_nat MAX_MATCH) (length data - pos)).
    pose proof (extend_match_spec maxp data c pos maxp 0) as (_ & Hle & Heq).
    set (ml := extend_match maxp data c pos maxp 0) in *.
    assert (Hnew : (bl < ml)%nat -> match_ok data pos ws ml (pos - c)).
    { intros Hlt. unfold match_ok.
      assert (maxp <= 258)%nat by (unfold maxp, MAX_MATCH; lia).
      assert (2 <= bl)%nat by (destruct Hinv as [->|(?&_)]; lia).
      assert (maxp <= length data - pos)%nat by (unfold maxp; lia).
      repeat split; try lia.
      intros k Hk. replace (pos - (pos - c) + k)%nat with (c + k)%nat by lia.
        apply Heq. lia. }
    case_decide as Hbetter; [|by apply IH].
    case_decide as Hbrk.
    + right. by apply Hnew.
    + apply IH. right. by apply Hnew.
Qed.

Lemma find_best_match_spec m pos ws len dist :
  find_best_match m pos ws = Some (len, dist) ->
  match_ok m.(data) pos ws len dist.
Proof.
  unfold find_best_match. case_decide as Hshort; [done|].
  pose proof (scan_candidates_spec m.(data) pos ws
    (rev (chain m.(hash_chains) (_hash3 m.(data) pos)))
    (Z.to_nat MIN_MATCH - 1) 0 ltac:(by left)) as Hs.
  destruct (scan_candidates _ _ _ _ _ _) as [l d].
  case_decide as Hl; [|done]. intros [= <- <-].
  destruct Hs as [->|Hs]; [|done]. unfold MIN_MATCH in Hl. lia.
Qed.

Lemma copy_match_take data (d n q : nat) :
  (1 <= d <= q)%nat -> (q + n <= length data)%nat ->
  (forall k, (q <= k < q + n)%nat -> data !! (k - d)%nat = data !! k) ->
  copy_match n (take q data) (Z.of_nat (q - d)) = Some (take (q + n) data).
Proof.
  revert q. induction n as [|n IH]; intros q Hd Hlen Heq; simpl.
  - by rewrite Nat.add_0_r.
  - rewrite index_nonneg.
    destruct (lookup_lt_is_Some_2 data q ltac:(lia)) as [b Hb].
    rewrite lookup_take_lt by lia. rewrite (Heq q) by lia. rewrite Hb. simpl.
    rewrite <- take_S_r by done.
    replace (Z.of_nat (q - d) + 1) with (Z.of_nat (S q - d)) by lia.
    rewrite IH; [f_equal; f_equal; lia|lia|lia|].
    intros k Hk. apply Heq. lia.
Qed.

Lemma decompress_from_app out ts1 ts2 :
  decompress_from out (ts1 ++ ts2) =
  decompress_from out ts1 ≫= fun out' => decompress_from out' ts2.
Proof.
  revert out. induction ts1 as [|t ts1 IH]; intros out; simpl; [done|].
  destruct t as [lit|len dist]; simpl.
  - destruct (mk_byte lit); simpl; [apply IH|done].
  - destruct (copy_match _ _ _); simpl; [apply IH|done].
Qed.

Lemma compress_loop_spec fuel m data pos tokens :
  m.(Compressor.data) = data ->
  (pos <= length data)%nat -> (length data - pos <= fuel)%nat ->
  decompress tokens = Some (take pos data) ->
  Forall token_ok tokens ->
  let r := compress_loop fuel m data pos tokens in
  decompress r = Some data /\ Forall token_ok r.
Proof.
  intros Hm. revert pos tokens.
  induction fuel as [|fuel IH]; intros pos tokens Hpos Hfuel Hdec Hok; simpl.
  - rewrite Hdec, take_ge by lia. done.
  - destruct (data !! pos) as [b|] eqn:Hb.
    2:{ apply lookup_ge_None in Hb. rewrite Hdec, take_ge by lia. done. }
    pose proof (lookup_lt_Some _ _ _ Hb) as Hlt.
    assert (Hlit : let r := compress_loop fuel m data (pos + 1)
                      (tokens ++ [LITERAL (byte_val b)]) in
                   decompress r = Some data /\ Forall token_ok r).
    { apply IH; [lia|lia| |].
      - unfold decompress in *. rewrite decompress_from_app, Hdec. simpl.
        rewrite mk_byte_val. simpl. rewrite Nat.add_1_r.
        by rewrite (take_S_r _ _ _ Hb).
      - apply Forall_app. split; [done|]. constructor; [|done].
        apply byte_val_range. }
    destruct (find_best_match m pos _) as [[len dist]|] eqn:Hf; [|exact Hlit].
    case_decide as Hmin; [|exact Hlit].
    apply find_best_match_spec in Hf. rewrite Hm in Hf.
    destruct Hf as (Hl & Hd & Hws & Hend & Heq).
    apply IH; [lia|lia| |].
    + unfold decompress in *. rewrite decompress_from_app, Hdec. simpl.
      rewrite Nat2Z.id, length_take_le by lia.
      replace (Z.of_nat pos - Z.of_nat dist) with (Z.of_nat (pos - dist)) by lia.
      rewrite copy_match_take; [done|lia|lia|].
      intros k Hk. specialize (Heq (k - pos)%nat ltac:(lia)).
      replace (pos - dist + (k - pos))%nat with (k - dist)%nat in Heq by lia.
      replace (pos + (k - pos))%nat with k in Heq by lia. done.
    + apply Forall_app. split; [done|]. constructor; [|done].
      simpl. unfold WINDOW_SIZE in *. lia.
Qed.

Lemma encode_token_shape t e :
  encode_token t = Some e -> token_ok t ->
  match t with
  | LITERAL lit => e = [x00; byte_of_Z lit]
  | MATCH len dist =>
      e = [x01; byte_of_Z (len - 3); byte_of_Z dist; byte_of_Z (dist / 256)]
  end.
Proof.
  destruct t as [lit|len dist]; simpl; intros He Hok.
  - replace (Z.land lit 255) with lit in He.
    2:{ change 255 with (Z.ones 8). rewrite Z.land_ones by lia.
        rewrite Z.mod_small; [done|]. change (2 ^ 8) with 256. lia. }
    rewrite !pack_Some in He by (simpl; lia). simpl in He. by injection He as <-.
  - unfold MAX_MATCH, WINDOW_SIZE, MIN_MATCH in He.
    rewrite !decide_True in He by lia.
    rewrite !pack_Some in He by (simpl; lia). simpl in He. by injection He as <-.
Qed.

Lemma lookup_app_plus {A} (l1 l2 : list A) (i : nat) :
    (l1 ++ l2) !! (length l1 + i)%nat = l2 !! i.
  Proof. rewrite lookup_app_r by lia. f_equal. lia. Qed.

Lemma decode_loop_step fuel pre t e rest acc :
  encode_token t = Some e -> token_ok t ->
  decode_loop (S fuel) (pre ++ e ++ rest) (length pre) acc =
  decode_loop fuel (pre ++ e ++ rest) (length pre + length e) (acc ++ [t]).
Proof.
  intros He Hok. pose proof (encode_token_shape _ _ He Hok) as Hs.
  destruct t as [lit|len dist]; subst e; cbn [decode_loop app].
  - rewrite list_lookup_middle by done. change (byte_val x00) with 0.
    rewrite decide_True by done.
    rewrite lookup_app_plus. cbn [lookup list_lookup].
    rewrite byte_val_of_Z, Z.mod_small by (simpl in Hok; lia).
    f_equal. simpl. lia.
  - rewrite list_lookup_middle by done. change (byte_val x01) with 1.
    rewrite decide_False by done. rewrite decide_True by done.
    rewrite decide_False by (rewrite !length_app; simpl; lia).
    rewrite lookup_app_plus. cbn [lookup list_lookup].
    unfold slice.
    rewrite <- !Nat.add_assoc. rewrite drop_app_add. cbn [Nat.add skipn].
    replace (length pre + 4 - (length pre + 2))%nat with 2%nat by lia.
    cbn [firstn]. rewrite take_0.
    change (byte_of_Z dist :: byte_of_Z (dist / 256) :: [])
      with (le_bytes 2 dist).
    rewrite unpack_le_bytes, Z.mod_small by (simpl in Hok |- *; lia).
    rewrite byte_val_of_Z, Z.mod_small by (simpl in Hok; lia).
    unfold MIN_MATCH. replace (len - 3 + 3) with len by lia.
    f_equal.
Qed.

Lemma decode_loop_tokens ts : forall fuel pre e rest acc,
  encode_tokens ts = Some e -> Forall token_ok ts ->
  decode_loop (length ts + fuel) (pre ++ e ++ rest) (length pre) acc =
  decode_loop fuel (pre ++ e ++ rest) (length pre + length e) (acc ++ ts).
Proof.
  induction ts as [|t ts IH]; intros fuel pre e rest acc He Hok.
  - injection He as <-. simpl. by rewrite Nat.add_0_r, app_nil_r.
  - simpl in He. destruct (encode_token t) as [et|] eqn:Het; [|done].
    destruct (encode_tokens ts) as [er|] eqn:Her; [|done].
    simpl in He. injection He as <-.
    inversion Hok as [|? ? Hok1 Hok2]; subst.
    change (length (t :: ts) + fuel)%nat with (S (length ts + fuel)).
    rewrite <- (app_assoc et er rest).
    rewrite (decode_loop_step _ pre t et (er ++ rest) acc Het Hok1).
    rewrite <- length_app.
    replace (pre ++ et ++ er ++ rest) with ((pre ++ et) ++ er ++ rest)
      by (by rewrite <- app_assoc).
    rewrite (IH fuel (pre ++ et) er rest (acc ++ [t]) eq_refl Hok2).
    rewrite <- (app_assoc acc [t] ts). f_equal.
    rewrite !length_app. lia.
Qed.

Lemma encode_tokens_length ts e :
  encode_tokens ts = Some e -> (length ts <= length e)%nat.
Proof.
  revert e. induction ts as [|t ts IH]; intros e He; simpl in *; [lia|].
  destruct (encode_token t) as [et|] eqn:Het; [|done].
  destruct (encode_tokens ts) as [er|] eqn:Her; [|done].
  simpl in He. injection He as <-. specialize (IH _ eq_refl).
  rewrite length_app.
  assert (1 <= length et)%nat; [|lia].
  destruct t; simpl in Het; unfold pack in Het;
    repeat (case_decide; simpl in Het; try done);
    injection Het as <-; simpl; lia.
Qed.

Lemma decode_loop_end fuel data pos acc :
  (length data <= pos)%nat -> decode_loop fuel data pos acc = acc.
Proof.
  intros H. destruct fuel; simpl; [done|].
  by rewrite (lookup_ge_None_2 _ _ H).
Qed.

Lemma decode_encode_tokens ts e :
  encode_tokens ts = Some e -> Forall token_ok ts -> decode_tokens e = ts.
Proof.
  intros He Hok. unfold decode_tokens.
  pose proof (encode_tokens_length _ _ He) as Hlen.
  replace (length e) with (length ts + (length e - length ts))%nat at 1 by lia.
  pose proof (decode_loop_tokens ts (length e - length ts) [] e [] [] He Hok) as H.
  rewrite app_nil_r in H. simpl in H. rewrite H.
  by apply decode_loop_end.
Qed.

Lemma encode_tokens_ok ts :
  Forall token_ok ts -> is_Some (encode_tokens ts).
Proof.
  induction 1 as [|t ts Ht _ IH]; simpl; [done|].
  destruct IH as [er ->].
  assert (is_Some (encode_token t)) as [et ->]; [|done].
  destruct t as [lit|len dist]; simpl in *.
  - assert (0 <= Z.land lit 255 < 256) as Hl.
    { change 255 with (Z.ones 8). rewrite Z.land_ones by lia.
      apply (Z.mod_pos_bound lit (2 ^ 8)). lia. }
    rewrite !pack_Some by (simpl; lia). done.
  - unfold MAX_MATCH, WINDOW_SIZE, MIN_MATCH.
    rewrite !decide_True by lia.
    rewrite !pack_Some by (simpl; lia). done.
Qed.

Lemma compress_spec data :
  decompress (compress data) = Some data /\ Forall token_ok (compress data).
Proof.
  unfold compress. destruct data as [|b data]; [done|].
  apply compress_loop_spec; simpl; try done; lia.
Qed.

(** C2. For every byte buffer, the LZ77 backend round-trips:
    [compress_data] succeeds and [decompress_data] of its result is the
    original buffer; this includes the empty buffer. *)
Theorem C2_lz77_roundtrip (data : bytes) :
  exists compressed,
    compress_data data = Some compressed /\
    decompress_data compressed = Some data.
Proof.
  destruct (compress_spec data) as [Hdec Hok].
  destruct (encode_tokens_ok _ Hok) as [e He].
  exists e. split; [done|].
  unfold decompress_data. by rewrite (decode_encode_tokens _ _ He Hok).
Qed.

Lemma decode_loop_truncated fuel pre tail acc :
  truncated_token tail ->
  decode_loop fuel (pre ++ tail) (length pre) acc = acc.
Proof.
  intros Ht. destruct fuel as [|fuel]; [done|]. cbn [decode_loop].
  destruct Ht as [->|(ops & -> & Hops)].
  - rewrite list_lookup_middle by done. change (byte_val x00) with 0.
    rewrite decide_True by done.
    rewrite lookup_ge_None_2; [done|]. rewrite length_app. simpl. lia.
  - rewrite list_lookup_middle by done. change (byte_val x01) with 1.
    rewrite decide_False by done. rewrite decide_True by done.
    rewrite decide_True; [done|]. rewrite length_app. simpl. lia.
Qed.

(** C4 (as the code has it). A token stream whose last token is cut
    short -- a literal tag without its byte, or a match tag with fewer
    than three operand bytes -- is not rejected: [decode_tokens] stops at
    that tag and returns the tokens decoded before it. *)
Theorem C4_truncated_stream_stops (ts : list Token) (e tail : bytes) :
  encode_tokens ts = Some e -> Forall token_ok ts ->
  truncated_token tail ->
  decode_tokens (e ++ tail) = ts.
Proof.
  intros He Hok Ht. unfold decode_tokens.
  pose proof (encode_tokens_length _ _ He) as Hlen.
  rewrite length_app.
  replace (length e + length tail)%nat
    with (length ts + (length e + length tail - length ts))%nat by lia.
  pose proof (decode_loop_tokens ts (length e + length tail - length ts)
                [] e tail [] He Hok) as H.
  simpl in H. rewrite H. by apply decode_loop_truncated.
Qed.

Lemma C4_truncated_stream_stops_witness :
  encode_tokens [LITERAL 65; MATCH 10 1] =
    Some [x00; x41; x01; x07; x01; x00] /\
  truncated_token [x01; x05] /\
  decode_tokens ([x00; x41; x01; x07; x01; x00] ++ [x01; x05]) =
    [LITERAL 65; MATCH 10 1].
Proof.
  assert (Ht : truncated_token [x01; x05]).
  { right. exists [x05]. split; [reflexivity|simpl; lia]. }
  split; [reflexivity|]. split; [exact Ht|].
  apply (C4_truncated_stream_stops [LITERAL 65; MATCH 10 1]).
  - reflexivity.
  - repeat constructor; simpl; lia.
  - exact Ht.
Defined.

(** C4, refuted as stated: on a stream that ends in a match tag with one
    operand byte instead of three, [decode_tokens] returns the literal
    decoded so far, and [decompress_data] turns it into output. *)
Lemma C4_truncated_accepted :
  decode_tokens [x00; x41; x01; x05] = [LITERAL 65] /\
  decompress_data [x00; x41; x01; x05] = Some [x41].
Proof. split; reflexivity. Qed.

(** A match at distance 0 with a positive length does raise: the first
    read is at index [len(output)]. *)
Lemma copy_match_distance_0 (n : nat) (output : bytes) :
  copy_match (S n) output (Z.of_nat (length output) - 0) = None.
Proof.
  simpl. rewrite Z.sub_0_r, index_nonneg.
  by rewrite lookup_ge_None_2 by lia.
Qed.

(** C5, at the failing input.  With two bytes of output, a match of
    length 3 at distance 3 reaches one byte before the start of the
    output; the index -1 wraps around to the last byte and the copy goes
    through, yielding [ABBAB].  The same happens from the serialized
    token stream. *)
Theorem C5_distance_beyond_output_accepted :
  decompress [LITERAL 65; LITERAL 66; MATCH 3 3] =
    Some [x41; x42; x42; x41; x42] /\
  decompress_data [x00; x41; x00; x42; x01; x00; x03; x00] =
    Some [x41; x42; x42; x41; x42].
Proof. split; reflexivity. Qed.
End LZ77.

(* ===================================================================== *)
(** ** CRC-32 detects every single-byte change *)
(* ===================================================================== *)

Section CRC.
Import Py Codec Format Spec.

Lemma lxor_range n a b :
  0 <= n -> 0 <= a < 2 ^ n -> 0 <= b < 2 ^ n -> 0 <= Z.lxor a b < 2 ^ n.
Proof.
  intros Hn Ha Hb. split; [apply Z.lxor_nonneg; lia|].
  destruct (decide (Z.lxor a b = 0)) as [->|Hne]; [lia|].
  assert (0 <= Z.lxor a b) by (apply Z.lxor_nonneg; lia).
  assert (0 < n).
  { destruct (decide (n = 0)) as [->|]; [|lia].
    change (2 ^ 0) with 1 in *. assert (a = 0) as -> by lia.
    assert (b = 0) as -> by lia. done. }
  apply Z.log2_lt_pow2; [lia|].
  pose proof (Z.log2_lxor a b ltac:(lia) ltac:(lia)) as Hl.
  assert (Z.log2 a < n).
  { destruct (decide (a = 0)) as [->|]; [simpl; lia|].
    apply Z.log2_lt_pow2; lia. }
  assert (Z.log2 b < n).
  { destruct (decide (b = 0)) as [->|]; [simpl; lia|].
    apply Z.log2_lt_pow2; lia. }
  lia.
Qed.

Lemma crc_shift_lxor a b :
  crc_shift (Z.lxor a b) = Z.lxor (crc_shift a) (crc_shift b).
Proof.
  unfold crc_shift. rewrite Z.lxor_spec, Z.shiftr_lxor.
  destruct (Z.testbit a 0), (Z.testbit b 0); simpl;
    apply Z.bits_inj'; intros k _; rewrite ?Z.lxor_spec;
    destruct (Z.testbit (Z.shiftr a 1) k), (Z.testbit (Z.shiftr b 1) k),
             (Z.testbit crc_poly k); reflexivity.
Qed.

Lemma crc_shift_range c : 0 <= c < 2 ^ 32 -> 0 <= crc_shift c < 2 ^ 32.
Proof.
  intros Hc. unfold crc_shift.
  assert (0 <= Z.shiftr c 1 < 2 ^ 32) as Hs.
  { rewrite Z.shiftr_div_pow2 by lia. change (2 ^ 1) with 2.
    change (2 ^ 32) with 4294967296 in *. lia. }
  destruct (Z.testbit c 0); [|done].
  apply lxor_range; [lia|done|]. unfold crc_poly.
  change (2 ^ 32) with 4294967296. lia.
Qed.

Lemma crc_shift_kernel c : 0 <= c < 2 ^ 32 -> crc_shift c = 0 -> c = 0.
Proof.
  intros Hc. unfold crc_shift.
  rewrite Z.shiftr_div_pow2 by lia. change (2 ^ 1) with 2.
  change (2 ^ 32) with 4294967296 in Hc.
  destruct (Z.testbit c 0) eqn:E.
  - intros H%Z.lxor_eq. unfold crc_poly in H. lia.
  - intros H. rewrite Z.bit0_odd in E.
    pose proof (Zmod_odd c) as Hm. rewrite E in Hm. lia.
Qed.

(** Eight shifts: what one input byte does to the register. *)
Definition crc_byte_step (c : Z) : Z := Nat.iter 8 crc_shift c.

Lemma crc_iter_lxor n a b :
  Nat.iter n crc_shift (Z.lxor a b) =
  Z.lxor (Nat.iter n crc_shift a) (Nat.iter n crc_shift b).
Proof.
  induction n as [|n IH]; simpl; [done|]. by rewrite IH, crc_shift_lxor.
Qed.

Lemma crc_iter_range n c :
  0 <= c < 2 ^ 32 -> 0 <= Nat.iter n crc_shift c < 2 ^ 32.
Proof.
  intros Hc. induction n as [|n IH]; simpl; [done|]. by apply crc_shift_range.
Qed.

Lemma crc_iter_kernel n c :
  0 <= c < 2 ^ 32 -> Nat.iter n crc_shift c = 0 -> c = 0.
Proof.
  intros Hc. induction n as [|n IH]; simpl; [done|].
  intros H. apply IH. apply crc_shift_kernel; [|done].
  by apply crc_iter_range.
Qed.

Lemma crc_byte_step_lxor a b :
  crc_byte_step (Z.lxor a b) = Z.lxor (crc_byte_step a) (crc_byte_step b).
Proof. apply crc_iter_lxor. Qed.

Lemma crc_byte_step_range c :
  0 <= c < 2 ^ 32 -> 0 <= crc_byte_step c < 2 ^ 32.
Proof. apply crc_iter_range. Qed.

Lemma crc_byte_step_kernel c :
  0 <= c < 2 ^ 32 -> crc_byte_step c = 0 -> c = 0.
Proof. apply crc_iter_kernel. Qed.

Lemma lxor_cancel_r a b c : Z.lxor (Z.lxor a c) (Z.lxor b c) = Z.lxor a b.
Proof.
  apply Z.bits_inj'. intros k _. rewrite !Z.lxor_spec.
  destruct (Z.testbit a k), (Z.testbit b k), (Z.testbit c k); reflexivity.
Qed.

Lemma lxor_cancel_l a b c : Z.lxor (Z.lxor c a) (Z.lxor c b) = Z.lxor a b.
Proof. by rewrite (Z.lxor_comm c a), (Z.lxor_comm c b), lxor_cancel_r. Qed.

(** Two registers that differ keep differing, whatever common bytes
    follow. *)
Lemma crc_fold_differ post : forall s1 s2,
  Z.lxor s1 s2 <> 0 -> 0 <= Z.lxor s1 s2 < 2 ^ 32 ->
  let t1 := fold_left crc_update post s1 in
  let t2 := fold_left crc_update post s2 in
  Z.lxor t1 t2 <> 0 /\ 0 <= Z.lxor t1 t2 < 2 ^ 32.
Proof.
  induction post as [|b post IH]; intros s1 s2 Hne Hr; simpl; [done|].
  apply IH.
  - unfold crc_update. fold (crc_byte_step (Z.lxor s1 (byte_val b))).
    fold (crc_byte_step (Z.lxor s2 (byte_val b))).
    rewrite <- crc_byte_step_lxor, lxor_cancel_r.
    intros H. apply Hne. by apply crc_byte_step_kernel.
  - unfold crc_update. fold (crc_byte_step (Z.lxor s1 (byte_val b))).
    fold (crc_byte_step (Z.lxor s2 (byte_val b))).
    rewrite <- crc_byte_step_lxor, lxor_cancel_r.
    by apply crc_byte_step_range.
Qed.

Lemma crc32_single_byte pre x y post :
  x <> y ->
  calculate_crc32 (pre ++ x :: post) <> calculate_crc32 (pre ++ y :: post).
Proof.
  intros Hxy. unfold calculate_crc32, zlib_crc32.
  rewrite !fold_left_app. cbn [fold_left].
  set (s := fold_left crc_update pre 4294967295).
  assert (Hd : Z.lxor (crc_update s x) (crc_update s y) <> 0 /\
               0 <= Z.lxor (crc_update s x) (crc_update s y) < 2 ^ 32).
  { unfold crc_update. fold (crc_byte_step (Z.lxor s (byte_val x))).
    fold (crc_byte_step (Z.lxor s (byte_val y))).
    rewrite <- crc_byte_step_lxor, lxor_cancel_l.
    pose proof (byte_val_range x). pose proof (byte_val_range y).
    assert (0 <= Z.lxor (byte_val x) (byte_val y) < 2 ^ 32) as Hr.
    { apply lxor_range; [lia| |]; change (2 ^ 32) with 4294967296; lia. }
    split; [|by apply crc_byte_step_range].
    intros Hz. apply crc_byte_step_kernel in Hz; [|done].
    apply Z.lxor_eq in Hz. by apply byte_val_inj in Hz. }
  destruct (crc_fold_differ post _ _ (proj1 Hd) (proj2 Hd)) as [Hne Hr].
  set (t1 := fold_left crc_update post (crc_update s x)) in *.
  set (t2 := fold_left crc_update post (crc_update s y)) in *.
  intros Heq. apply Hne. apply Z.bits_inj'. intros k Hk.
  rewrite Z.bits_0.
  destruct (decide (k < 32)) as [Hlt|Hge].
  - apply (f_equal (fun z => Z.testbit z k)) in Heq.
    rewrite !Z.land_spec, !Z.lxor_spec in Heq.
    change 4294967295 with (Z.ones 32) in Heq.
    rewrite Z.ones_spec_low in Heq by lia.
    rewrite Z.lxor_spec.
    destruct (Z.testbit t1 k), (Z.testbit t2 k); simpl in *; congruence.
  - destruct (decide (Z.lxor t1 t2 = 0)) as [->|Hnz]; [apply Z.bits_0|].
    apply Z.bits_above_log2; [lia|].
    assert (Z.log2 (Z.lxor t1 t2) < 32); [|lia].
    apply Z.log2_lt_pow2; lia.
Qed.

(** C8. An entry stamped with the CRC-32 and the length of [original]
    verifies against [original], and fails to verify against every
    buffer that differs from [original] in exactly one byte. *)
Theorem C8_verify_integrity (entry : FileEntry) (original : bytes) :
  entry.(crc32) = calculate_crc32 original ->
  entry.(original_size) = Z.of_nat (length original) ->
  verify_integrity entry original = true /\
  forall perturbed,
    single_byte_perturbation original perturbed ->
    verify_integrity entry perturbed = false.
Proof.
  intros Hcrc Hsize. unfold verify_integrity. split.
  - rewrite decide_False by lia. by apply bool_decide_eq_true.
  - intros perturbed (pre & x & y & post & -> & -> & Hxy).
    case_decide; [done|]. apply bool_decide_eq_false.
    rewrite Hcrc. intros Heq. symmetry in Heq. revert Heq.
    by apply crc32_single_byte.
Qed.

Lemma C8_verify_integrity_witness :
  verify_integrity
    {| filename := [116]; original_size := 3; compressed_size := 0;
       compressed_data := []; crc32 := 891568578 |} [x61; x62; x63] = true /\
  verify_integrity
    {| filename := [116]; original_size := 3; compressed_size := 0;
       compressed_data := []; crc32 := 891568578 |} [x61; x78; x63] = false.
Proof.
  destruct (C8_verify_integrity
    {| filename := [116]; original_size := 3; compressed_size := 0;
       compressed_data := []; crc32 := 891568578 |} [x61; x62; x63])
    as [H1 H2].
  - reflexivity.
  - reflexivity.
  - split; [exact H1|]. apply H2.
    exists [x61], x62, x78, [x63]. repeat split. discriminate.
Defined.
End CRC.

(* ===================================================================== *)
(** ** The LZHA container round-trips *)
(* ===================================================================== *)

Section Container.
Import Py Codec Format Spec.

Lemma slice_middle {A} (data p a r : list A) (n m : nat) :
  data = p ++ a ++ r -> n = length p -> m = (n + length a)%nat ->
  slice n m data = a.
Proof.
  intros -> -> ->. unfold slice.
  rewrite drop_app_length.
  replace (length p + length a - length p)%nat with (length a) by lia.
  by rewrite take_app_length.
Qed.

Lemma cont_of_Z (z : Z) :
  0 <= z < 64 -> cont (byte_of_Z (128 + z)) = Some z.
Proof.
  intros Hz. unfold cont. rewrite byte_val_of_Z, Z.mod_small by lia.
  rewrite decide_True by lia. f_equal. lia.
Qed.

Lemma utf8_decode_cp cp b rest :
  utf8_encode_cp cp = Some b ->
  utf8_decode (b ++ rest) = r ← utf8_decode rest; Some (cp :: r).
Proof.
  unfold utf8_encode_cp, is_surrogate.
  repeat case_decide; intros [= <-]; try done; cbn [app utf8_decode];
    rewrite byte_val_of_Z, Z.mod_small by lia.
  - by rewrite decide_True by lia.
  - rewrite decide_False by lia. rewrite decide_True by lia.
    rewrite cont_of_Z by lia. cbn [mbind option_bind].
    replace ((192 + cp / 64 - 192) * 64 + cp mod 64) with cp by lia.
    by rewrite decide_True by lia.
  - rewrite decide_False by lia. rewrite decide_False by lia.
    rewrite decide_True by lia.
    rewrite !cont_of_Z by lia. cbn [mbind option_bind].
    replace ((224 + cp / 4096 - 224) * 4096 + (cp / 64) mod 64 * 64 + cp mod 64)
      with cp by lia.
    unfold is_surrogate. by rewrite decide_True by lia.
  - rewrite decide_False by lia. rewrite decide_False by lia.
    rewrite decide_False by lia. rewrite decide_True by lia.
    rewrite !cont_of_Z by lia. cbn [mbind option_bind].
    replace ((240 + cp / 262144 - 240) * 262144 + (cp / 4096) mod 64 * 4096 +
             (cp / 64) mod 64 * 64 + cp mod 64) with cp by lia.
    by rewrite decide_True by lia.
Qed.

Lemma utf8_decode_encode s : forall bs,
  utf8_encode s = Some bs -> utf8_decode bs = Some s.
Proof.
  induction s as [|cp s IH]; intros bs; simpl.
  - by intros [= <-].
  - destruct (utf8_encode_cp cp) as [b|] eqn:Hb; [|done].
    destruct (utf8_encode s) as [r|] eqn:Hr; [|done].
    simpl. intros [= <-].
    rewrite (utf8_decode_cp _ _ _ Hb). by rewrite (IH r eq_refl).
Qed.

Lemma read_entry_write (e : FileEntry) (eb pre rest : bytes) :
  entry_ok e -> _write_entry e = Some eb ->
  _read_entry (pre ++ eb ++ rest) (length pre) =
    Some (e, (length pre + length eb)%nat).
Proof.
  intros (Hcs & (fb0 & Hfb0 & Hfl) & Ho & Hc & Hk) Hw.
  unfold _write_entry in Hw. rewrite Hfb0 in Hw. cbn [mbind option_bind] in Hw.
  destruct (pack 2 _) as [n|] eqn:En; [|done].
  destruct (pack 8 (original_size e)) as [o|] eqn:Eo; [|done].
  destruct (pack 8 (compressed_size e)) as [c|] eqn:Ec; [|done].
  destruct (pack 4 (crc32 e)) as [k|] eqn:Ek; [|done].
  cbn [mbind option_bind] in Hw. injection Hw as <-.
  apply unpack_pack in En as [Un Ln], Eo as [Uo Lo], Ec as [Uc Lc],
    Ek as [Uk Lk].
  set (cd := compressed_data e) in *. set (fb := fb0) in *.
  set (data := pre ++ (n ++ fb ++ o ++ c ++ k ++ cd) ++ rest).
  set (p0 := length pre).
  assert (Hlen : length data =
            (p0 + 2 + length fb + 8 + 8 + 4 + length cd + length rest)%nat).
  { unfold data, p0. rewrite !length_app. lia. }
  assert (S1 : slice p0 (p0 + 2) data = n).
  { apply (slice_middle _ pre n (fb ++ o ++ c ++ k ++ cd ++ rest));
      [unfold data; by rewrite <- !app_assoc|done|lia]. }
  assert (S2 : slice (p0 + 2) (p0 + 2 + length fb) data = fb).
  { apply (slice_middle _ (pre ++ n) fb (o ++ c ++ k ++ cd ++ rest));
      [unfold data; by rewrite <- !app_assoc|rewrite length_app; lia|lia]. }
  assert (S3 : slice (p0 + 2 + length fb) (p0 + 2 + length fb + 8) data = o).
  { apply (slice_middle _ (pre ++ n ++ fb) o (c ++ k ++ cd ++ rest));
      [unfold data; by rewrite <- !app_assoc|rewrite !length_app; lia|lia]. }
  assert (S4 : slice (p0 + 2 + length fb + 8) (p0 + 2 + length fb + 8 + 8)
                 data = c).
  { apply (slice_middle _ (pre ++ n ++ fb ++ o) c (k ++ cd ++ rest));
      [unfold data; by rewrite <- !app_assoc|rewrite !length_app; lia|lia]. }
  assert (S5 : slice (p0 + 2 + length fb + 8 + 8)
                 (p0 + 2 + length fb + 8 + 8 + 4) data = k).
  { apply (slice_middle _ (pre ++ n ++ fb ++ o ++ c) k (cd ++ rest));
      [unfold data; by rewrite <- !app_assoc|rewrite !length_app; lia|lia]. }
  assert (S6 : slice (p0 + 2 + length fb + 8 + 8 + 4)
                 (p0 + 2 + length fb + 8 + 8 + 4 + length cd) data = cd).
  { apply (slice_middle _ (pre ++ n ++ fb ++ o ++ c ++ k) cd rest);
      [unfold data; by rewrite <- !app_assoc|rewrite !length_app; lia|lia]. }
  unfold _read_entry. fold p0.
  rewrite decide_False by lia.
  rewrite S1, Un, Nat2Z.id.
  rewrite decide_False by lia.
  rewrite S2, (utf8_decode_encode _ _ Hfb0). cbn [mbind option_bind].
  rewrite decide_False by lia.
  rewrite S3, S4, S5, Uo, Uc, Uk.
  rewrite decide_False by lia.
  rewrite Hcs, Nat2Z.id. fold cd. rewrite S6.
  f_equal. f_equal.
  - destruct e; simpl in *. subst cd. by rewrite Hcs.
  - rewrite !length_app. lia.
Qed.

Lemma write_entry_ok (e : FileEntry) :
  entry_ok e -> is_Some (_write_entry e).
Proof.
  intros (Hcs & (fb & Hfb & Hfl) & Ho & Hc & Hk).
  unfold _write_entry. rewrite Hfb. cbn [mbind option_bind].
  change (2 ^ 16) with 65536 in *. change (2 ^ 64) with 18446744073709551616 in *.
  change (2 ^ 32) with 4294967296 in *.
  rewrite !pack_Some by (simpl; lia). done.
Qed.

Lemma write_entries_ok (es : list FileEntry) :
  Forall entry_ok es -> is_Some (write_entries es).
Proof.
  induction 1 as [|e es He _ [r Hr]]; simpl; [done|].
  destruct (write_entry_ok e He) as [eb ->]. rewrite Hr. done.
Qed.

Lemma read_entries_write (es : list FileEntry) : forall body pre acc,
  Forall entry_ok es -> write_entries es = Some body ->
  read_entries (length es) (pre ++ body) (length pre) acc = Some (acc ++ es).
Proof.
  induction es as [|e es IH]; intros body pre acc Hok Hw; simpl in *.
  - by rewrite app_nil_r.
  - inversion Hok as [|? ? He Hes]; subst.
    destruct (_write_entry e) as [eb|] eqn:Heb; [|done].
    destruct (write_entries es) as [r|] eqn:Hr; [|done].
    simpl in Hw. injection Hw as <-.
    rewrite (read_entry_write e eb pre r He Heb). cbn [mbind option_bind].
    rewrite <- length_app.
    replace (pre ++ eb ++ r) with ((pre ++ eb) ++ r) by (by rewrite <- app_assoc).
    rewrite (IH r (pre ++ eb) (acc ++ [e]) Hes eq_refl).
    by rewrite <- app_assoc.
Qed.

(** C9. For entries that satisfy the container's invariants, and fewer
    than 2^32 of them, [create_archive] succeeds and [read_archive] of
    the archive returns the same list of entries. *)
Theorem C9_container_roundtrip (entries : list FileEntry) :
  Forall entry_ok entries ->
  Z.of_nat (length entries) < 2 ^ 32 ->
  exists archive,
    create_archive entries = Some archive /\
    read_archive archive = Some entries.
Proof.
  intros Hok Hcount.
  destruct (write_entries_ok entries Hok) as [body Hbody].
  unfold create_archive.
  change (header_serialize new_header)
    with (Some ([x4c; x5a; x48; x41; x01; x00] ++ replicate 10 x00)).
  cbn [mbind option_bind].
  change (2 ^ 32) with 4294967296 in Hcount.
  rewrite pack_Some by (simpl; lia). cbn [mbind option_bind].
  rewrite Hbody. cbn [mbind option_bind].
  eexists. split; [reflexivity|].
  set (h := [x4c; x5a; x48; x41; x01; x00] ++ replicate 10 x00).
  set (n := le_bytes 4 (Z.of_nat (length entries))).
  assert (Ln : length n = 4%nat) by apply length_le_bytes.
  assert (Lh : length h = 16%nat) by reflexivity.
  unfold read_archive.
  rewrite decide_False by (rewrite !length_app; lia).
  assert (S1 : slice 0 (0 + 16) (h ++ n ++ body) = h).
  { by apply (slice_middle _ [] h (n ++ body)). }
  rewrite S1.
  change (header_deserialize h) with (Some new_header).
  cbn [mbind option_bind].
  rewrite decide_False by (rewrite !length_app; lia).
  assert (S2 : slice (0 + 16) (0 + 16 + 4) (h ++ n ++ body) = n).
  { apply (slice_middle _ h n body); [done|done|lia]. }
  rewrite S2. unfold n at 1. rewrite unpack_le_bytes.
  rewrite Z.mod_small by (simpl; lia). rewrite Nat2Z.id.
  replace (h ++ n ++ body) with ((h ++ n) ++ body) by (by rewrite <- app_assoc).
  replace (0 + 16 + 4)%nat with (length (h ++ n)) by (rewrite length_app; lia).
  by rewrite (read_entries_write entries body (h ++ n) [] Hok Hbody).
Qed.

Lemma C9_container_roundtrip_witness :
  exists archive,
    create_archive
      [ {| filename := [116; 1046]; original_size := 100;
           compressed_size := 3; compressed_data := [x01; x02; x03];
           crc32 := 12345 |} ] = Some archive /\
    read_archive archive =
      Some [ {| filename := [116; 1046]; original_size := 100;
                compressed_size := 3; compressed_data := [x01; x02; x03];
                crc32 := 12345 |} ].
Proof.
  apply C9_container_roundtrip.
  - constructor; [|constructor]. unfold entry_ok. simpl.
    split; [reflexivity|]. split.
    + exists [x74; xd0; x96]. split; [reflexivity|]. simpl. lia.
    + lia.
  - simpl. lia.
Defined.
End Container.

(* ===================================================================== *)
(** ** The range coder and the bespoke LZMA coder *)
(* ===================================================================== *)

Section LZMA.
Import Py Lzma Spec.

(** C1, at a failing input.  The one-byte buffer [b'\x80'] compresses to
    the header followed by [FD 00 00 00 00]; decompressing that raises
    (the decoder reads a match at distance 1 into an empty output).  The
    one-byte buffer [b'\x02'] compresses to the very same bytes, so no
    decoder could tell the two apart. *)
Theorem C1_lzma_roundtrip_fails :
  lzma_compress [x80] =
    Some (MAGIC ++ [x01; x00; x00; x00; x00; x00; x00; x00] ++
          [xfd; x00; x00; x00; x00]) /\
  lzma_decompress (MAGIC ++ [x01; x00; x00; x00; x00; x00; x00; x00] ++
                   [xfd; x00; x00; x00; x00]) = None /\
  lzma_compress [x02] = lzma_compress [x80].
Proof. repeat split; vm_compute; reflexivity. Qed.

(** C6, at a failing input.  With one model starting at 1024, the bits
    0, 1 are encoded as [FC E0 00 00]; decoding two bits from these bytes
    under the same model yields 1, 1. *)
Theorem C6_range_coder_asymmetric :
  range_encode [1024] [(0%nat, 0); (0%nat, 1)] =
    Some ([xfc; xe0; x00; x00], [1023]) /\
  range_decode [1024] [0%nat; 0%nat] [xfc; xe0; x00; x00] =
    Some ([1; 1], [961]).
Proof. split; vm_compute; reflexivity. Qed.

(** *** [_decode_distance] never returns 0 *)

Lemma decode_bit_is_bit model d bit new_model d' :
  RangeDecoder.decode_bit model d = Some ((bit, new_model), d') ->
  bit = 0 \/ bit = 1.
Proof.
  unfold RangeDecoder.decode_bit.
  case_decide; destruct (RangeDecoder.normalize _ _); simpl;
    intros [= <- _ _]; auto.
Qed.

Lemma decode_with_is_bit r s bit s' :
  decode_with r s = Some (bit, s') -> bit = 0 \/ bit = 1.
Proof.
  destruct s as [c d]. unfold decode_with.
  destruct (rd r c) as [model|]; [|done]. cbn [mbind option_bind].
  destruct (RangeDecoder.decode_bit model d) as [[[b nm] d']|] eqn:E; [|done].
  cbn [mbind option_bind]. intros [= <- _].
  by apply decode_bit_is_bit in E.
Qed.

Lemma two_bits_slot b0 b1 :
  b0 = 0 \/ b0 = 1 -> b1 = 0 \/ b1 = 1 ->
  0 <= Z.lor (Z.lor 0 (Z.shiftl b0 (0 + 0))) (Z.shiftl b1 (0 + 1 + 0)) < 4.
Proof. intros [-> | ->] [-> | ->]; split; by vm_compute. Qed.

Lemma decode_distance_range s dist s' :
  _decode_distance s = Some (dist, s') -> 1 <= dist <= 4.
Proof.
  unfold _decode_distance, bind. cbn [decode_bits_lsb]. unfold bind, ret.
  destruct (decode_with (dist_models_at 0) s) as [[b0 s0]|] eqn:E0; [|done].
  destruct (decode_with (dist_models_at (0 + 1)) s0) as [[b1 s1]|] eqn:E1;
    [|done].
  apply decode_with_is_bit in E0, E1.
  pose proof (two_bits_slot b0 b1 E0 E1) as Hs.
  rewrite decide_True by lia. intros [= <- _]. lia.
Qed.

Lemma decoder_normalize_total fuel d :
  0 < RangeDecoder.range d < 2 ^ 32 ->
  2 ^ 24 <= RangeDecoder.range d * 256 ^ Z.of_nat fuel ->
  exists d', RangeDecoder.normalize fuel d = Some d' /\ decoder_ok d'.
Proof.
  revert d. induction fuel as [|fuel IH]; intros d Hr Hf.
  - simpl. change (RangeDecoder.TOP_VALUE) with (2 ^ 24).
    rewrite Z.mul_1_r in Hf. rewrite decide_False by lia.
    eexists. split; [done|]. unfold decoder_ok. lia.
  - cbn [RangeDecoder.normalize]. change (RangeDecoder.TOP_VALUE) with (2 ^ 24).
    case_decide as Hlt.
    + apply IH; cbn [RangeDecoder.range].
      * unfold RangeDecoder.shift_code.
        destruct (RangeDecoder._read_byte d) as [byte d1] eqn:Eb.
        assert (RangeDecoder.range d1 = RangeDecoder.range d) as Hd1.
        { unfold RangeDecoder._read_byte in Eb.
          destruct (_ !! _); by injection Eb as _ <-. }
        cbn [RangeDecoder.range]. rewrite Hd1.
        change 4294967295 with (Z.ones 32).
        rewrite Z.land_ones, Z.shiftl_mul_pow2 by lia.
        change (2 ^ 8) with 256. change (2 ^ 32) with 4294967296 in *.
        change (2 ^ 24) with 16777216 in *.
        rewrite Z.mod_small by lia. lia.
      * unfold RangeDecoder.shift_code.
        destruct (RangeDecoder._read_byte d) as [byte d1] eqn:Eb.
        assert (RangeDecoder.range d1 = RangeDecoder.range d) as Hd1.
        { unfold RangeDecoder._read_byte in Eb.
          destruct (_ !! _); by injection Eb as _ <-. }
        cbn [RangeDecoder.range]. rewrite Hd1.
        change 4294967295 with (Z.ones 32).
        rewrite Z.land_ones, Z.shiftl_mul_pow2 by lia.
        change (2 ^ 8) with 256. change (2 ^ 32) with 4294967296 in *.
        change (2 ^ 24) with 16777216 in *.
        rewrite Z.mod_small by lia.
        rewrite Nat2Z.inj_succ, Z.pow_succ_r in Hf by lia. lia.
    + eexists. split; [done|]. unfold decoder_ok. lia.
Qed.

Lemma decode_bit_total model d :
  decoder_ok d -> 0 < model < 2048 ->
  exists r d', RangeDecoder.decode_bit model d = Some (r, d') /\ decoder_ok d'.
Proof.
  intros Hd Hm. unfold decoder_ok in Hd. unfold RangeDecoder.decode_bit.
  set (rng := RangeDecoder.range d) in *.
  rewrite Z.shiftr_div_pow2 by lia. change (2 ^ 11) with 2048.
  change (2 ^ 24) with 16777216 in Hd. change (2 ^ 32) with 4294967296 in Hd.
  assert (8192 <= rng / 2048) by lia.
  assert (0 < rng / 2048 * model < rng) by nia.
  case_decide.
  - destruct (decoder_normalize_total RangeDecoder.normalize_fuel
      {| RangeDecoder.data := RangeDecoder.data d;
         RangeDecoder.pos := RangeDecoder.pos d;
         RangeDecoder.low := RangeDecoder.low d;
         RangeDecoder.range := rng / 2048 * model;
         RangeDecoder.code := RangeDecoder.code d |}) as (d' & -> & Hok).
    + cbn [RangeDecoder.range]. change (2 ^ 32) with 4294967296. lia.
    + cbn [RangeDecoder.range]. unfold RangeDecoder.normalize_fuel.
      change (2 ^ 24) with 16777216. change (256 ^ Z.of_nat 4) with 4294967296.
      lia.
    + cbn. eauto.
  - destruct (decoder_normalize_total RangeDecoder.normalize_fuel
      {| RangeDecoder.data := RangeDecoder.data d;
         RangeDecoder.pos := RangeDecoder.pos d;
         RangeDecoder.low := RangeDecoder.low d;
         RangeDecoder.range := rng - rng / 2048 * model;
         RangeDecoder.code := RangeDecoder.code d - rng / 2048 * model |})
      as (d' & -> & Hok).
    + cbn [RangeDecoder.range]. change (2 ^ 32) with 4294967296. lia.
    + cbn [RangeDecoder.range]. unfold RangeDecoder.normalize_fuel.
      change (2 ^ 24) with 16777216. change (256 ^ Z.of_nat 4) with 4294967296.
      lia.
    + cbn. eauto.
Qed.

Lemma decode_distance_total c d :
  decoder_ok d -> dist_models_ok c -> is_Some (_decode_distance (c, d)).
Proof.
  intros Hd Hc.
  destruct (Hc 0%nat ltac:(lia)) as (m0 & Hm0 & Hr0).
  destruct (Hc 1%nat ltac:(lia)) as (m1 & Hm1 & Hr1).
  destruct (decode_bit_total m0 d Hd Hr0) as ([b0 nm0] & d0 & E0 & Hd0).
  destruct (decode_bit_total m1 d0 Hd0 Hr1) as ([b1 nm1] & d1 & E1 & Hd1).
  pose proof (decode_bit_is_bit _ _ _ _ _ E0) as Hb0.
  pose proof (decode_bit_is_bit _ _ _ _ _ E1) as Hb1.
  unfold _decode_distance, bind. cbn [decode_bits_lsb]. unfold bind, ret.
  unfold decode_with at 1. cbn [rd wr dist_models_at].
  unfold index. rewrite decide_True by lia. change (Z.to_nat 0) with 0%nat.
  rewrite Hm0. cbn [mbind option_bind]. rewrite E0. cbn [mbind option_bind].
  unfold decode_with at 1. cbn [rd wr dist_models_at dist_models].
  unfold index. rewrite decide_True by lia. change (Z.to_nat (0 + 1)) with 1%nat.
  rewrite list_lookup_insert_ne by done.
  rewrite Hm1. cbn [mbind option_bind]. rewrite E1. cbn [mbind option_bind].
  pose proof (two_bits_slot b0 b1 Hb0 Hb1) as Hs.
  by rewrite decide_True by lia.
Qed.

(** C10. Whatever the decoder and the models are, a distance returned by
    [_decode_distance] lies between 1 and 4, so the test
    [match_dist == 0] in [decompress] never fires; and from a normalized
    decoder with proper distance models, [_decode_distance] does
    return. *)
Theorem C10_decode_distance_positive
    (c : LZMACompressor) (d : RangeDecoder.t) :
  (forall dist s',
     _decode_distance (c, d) = Some (dist, s') ->
     1 <= dist <= 4 /\ (if decide (dist = 0) then 1 else dist) = dist) /\
  (decoder_ok d -> dist_models_ok c -> is_Some (_decode_distance (c, d))).
Proof.
  split.
  - intros dist s' H. apply decode_distance_range in H.
    split; [done|]. by rewrite decide_False by lia.
  - apply decode_distance_total.
Qed.

Lemma C10_decode_distance_positive_witness :
  decoder_ok (RangeDecoder.init [x12; x34; x56; x78; x9a; xbc]) /\
  dist_models_ok (init 6) /\
  is_Some (_decode_distance
             (init 6, RangeDecoder.init [x12; x34; x56; x78; x9a; xbc])).
Proof.
  assert (Hd : decoder_ok (RangeDecoder.init [x12; x34; x56; x78; x9a; xbc])).
  { unfold decoder_ok. split; by vm_compute. }
  assert (Hc : dist_models_ok (init 6)).
  { intros i Hi. exists 1024. split; [|lia].
    destruct i as [|[|i]]; [reflexivity|reflexivity|lia]. }
  split; [exact Hd|]. split; [exact Hc|].
  exact (proj2 (C10_decode_distance_positive _ _) Hd Hc).
Defined.
End LZMA.

(* ===================================================================== *)
(** ** heapq keeps the items it is given *)
(* ===================================================================== *)

Section HeapqFacts.
Context {A : Type} (lt : A -> A -> bool).
Import Heapq.

Lemma insert_move_perm (l : list A) (i j : nat) (x y : A) :
  (i < length l)%nat -> l !! j = Some y -> i <> j ->
  <[j := x]> (<[i := y]> l) ≡ₚ <[i := x]> l.
Proof.
  intros Hi Hj Hne.
  rewrite <- (list_insert_insert_eq l i y x).
  apply Permutation_insert_swap.
  - by apply list_lookup_insert_eq.
  - by rewrite list_lookup_insert_ne.
Qed.

Lemma siftdown_loop_perm fuel : forall heap startpos pos newitem,
  (pos < length heap)%nat -> (pos <= fuel)%nat ->
  exists heap', _siftdown_loop lt fuel heap startpos pos newitem = Some heap' /\
                heap' ≡ₚ <[pos := newitem]> heap.
Proof.
  induction fuel as [|fuel IH]; intros heap startpos pos newitem Hpos Hfuel.
  - simpl. rewrite decide_False by lia. eauto.
  - cbn [_siftdown_loop]. case_decide as Hlt; [|eauto].
    assert (Nat.div2 (pos - 1) < pos)%nat as Hpar.
    { pose proof (Nat.le_div2_diag_l (pos - 1)). lia. }
    destruct (lookup_lt_is_Some_2 heap (Nat.div2 (pos - 1)) ltac:(lia))
      as [parent Hparent].
    rewrite Hparent. cbn [mbind option_bind].
    destruct (lt newitem parent); [|eauto].
    destruct (IH (<[pos := parent]> heap) startpos (Nat.div2 (pos - 1)) newitem)
      as (heap' & -> & Hperm); [rewrite length_insert; lia|lia|].
    exists heap'. split; [done|]. rewrite Hperm.
    apply insert_move_perm; [done|done|lia].
Qed.

Lemma siftdown_perm heap startpos pos :
  (pos < length heap)%nat ->
  exists heap', _siftdown lt heap startpos pos = Some heap' /\ heap' ≡ₚ heap.
Proof.
  intros Hpos. unfold _siftdown.
  destruct (lookup_lt_is_Some_2 heap pos Hpos) as [newitem Hn].
  rewrite Hn. cbn [mbind option_bind].
  destruct (siftdown_loop_perm pos heap startpos pos newitem Hpos ltac:(lia))
    as (heap' & -> & Hperm).
  exists heap'. split; [done|]. by rewrite Hperm, list_insert_id.
Qed.

Lemma siftup_loop_perm fuel : forall heap pos childpos newitem,
  (pos < childpos)%nat -> (pos < length heap)%nat ->
  (length heap - childpos <= fuel)%nat ->
  exists heap' pos',
    _siftup_loop lt fuel heap (length heap) pos childpos = Some (heap', pos') /\
    (pos' < length heap')%nat /\
    <[pos' := newitem]> heap' ≡ₚ <[pos := newitem]> heap.
Proof.
  induction fuel as [|fuel IH]; intros heap pos childpos newitem Hpc Hpos Hfuel.
  - simpl. rewrite decide_False by lia. eauto.
  - cbn [_siftup_loop]. case_decide as Hlt; [|eauto 6].
    set (c := (if decide (childpos + 1 < length heap)%nat
               then c ← heap !! childpos; r ← heap !! (childpos + 1)%nat;
                    Some (if negb (lt c r) then (childpos + 1)%nat else childpos)
               else Some childpos)).
    assert (exists c', c = Some c' /\ (childpos <= c' < length heap)%nat)
      as (c' & -> & Hc').
    { subst c. case_decide as Hr.
      - destruct (lookup_lt_is_Some_2 heap childpos Hlt) as [x ->].
        destruct (lookup_lt_is_Some_2 heap (childpos + 1) Hr) as [y ->].
        cbn [mbind option_bind]. destruct (negb (lt x y)); eexists; split; [done|lia|done|lia].
      - eexists; split; [done|lia]. }
    cbn [mbind option_bind].
    destruct (lookup_lt_is_Some_2 heap c' ltac:(lia)) as [x Hx].
    rewrite Hx. cbn [mbind option_bind].
    destruct (IH (<[pos := x]> heap) c' (2 * c' + 1)%nat newitem)
      as (heap' & pos' & Hloop & Hpos' & Hperm);
      [lia|rewrite length_insert; lia|rewrite length_insert; lia|].
    rewrite length_insert in Hloop. rewrite Hloop.
    exists heap', pos'. split; [done|]. split; [done|].
    rewrite Hperm. apply insert_move_perm; [done|done|lia].
Qed.

Lemma siftup_perm heap pos :
  (pos < length heap)%nat ->
  exists heap', _siftup lt heap pos = Some heap' /\ heap' ≡ₚ heap.
Proof.
  intros Hpos. unfold _siftup.
  destruct (lookup_lt_is_Some_2 heap pos Hpos) as [newitem Hn].
  rewrite Hn. cbn [mbind option_bind].
  destruct (siftup_loop_perm (length heap) heap pos (2 * pos + 1) newitem)
    as (heap1 & pos1 & -> & Hpos1 & Hperm); [lia|done|lia|].
  cbn [mbind option_bind].
  destruct (siftdown_perm (<[pos1 := newitem]> heap1) pos pos1)
    as (heap' & -> & Hperm'); [by rewrite length_insert|].
  exists heap'. split; [done|].
  by rewrite Hperm', Hperm, list_insert_id.
Qed.

Lemma heappush_perm heap item :
  exists heap', heappush lt heap item = Some heap' /\ heap' ≡ₚ item :: heap.
Proof.
  unfold heappush.
  destruct (siftdown_perm (heap ++ [item]) 0 (length heap))
    as (heap' & -> & Hperm); [rewrite length_app; simpl; lia|].
  exists heap'. split; [done|].
  rewrite Hperm. by rewrite Permutation_app_comm.
Qed.

Lemma heappop_perm heap :
  heap <> [] ->
  exists x heap', heappop lt heap = Some (x, heap') /\ x :: heap' ≡ₚ heap.
Proof.
  intros Hne. unfold heappop.
  destruct (list.last heap) as [lastelt|] eqn:Hlast.
  2:{ by apply last_None in Hlast. }
  apply last_Some in Hlast as [front ->].
  rewrite removelast_last.
  destruct front as [|returnitem rest].
  - eauto.
  - destruct (siftup_perm (lastelt :: rest) 0) as (heap' & -> & Hperm);
      [simpl; lia|].
    cbn [mbind option_bind].
    exists returnitem, heap'. split; [done|].
    rewrite Hperm. simpl. f_equiv. by rewrite Permutation_app_comm.
Qed.

Lemma heapify_loop_perm n : forall x,
  (n <= length x)%nat ->
  exists x', heapify_loop lt n x = Some x' /\ x' ≡ₚ x.
Proof.
  induction n as [|n IH]; intros x Hn; simpl; [eauto|].
  destruct (siftup_perm x n) as (x1 & -> & Hperm); [lia|].
  cbn [mbind option_bind].
  destruct (IH x1) as (x' & -> & Hperm').
  { apply Permutation_length in Hperm. lia. }
  exists x'. split; [done|]. by rewrite Hperm'.
Qed.

Lemma heapify_perm x :
  exists x', heapify lt x = Some x' /\ x' ≡ₚ x.
Proof.
  apply heapify_loop_perm.
  pose proof (Nat.Div0.div_le_upper_bound (length x) 2 (length x)). lia.
Qed.
End HeapqFacts.

(* ===================================================================== *)
(** ** The Huffman code table *)
(* ===================================================================== *)

Section HuffmanTable.
Import Py Huffman Spec.

(** *** Dictionaries *)

Lemma dict_set_fresh {K V} `{EqDecision K} (k : K) (v : V) (d : dict K V) :
  k ∉ d.*1 -> dict_set k v d = d ++ [(k, v)].
Proof.
  induction d as [|[k' v'] d IH]; simpl; [done|].
  intros Hk. apply not_elem_of_cons in Hk as [Hne Hk].
  rewrite decide_False by done. by rewrite IH.
Qed.

Lemma dict_set_keys {K V} `{EqDecision K} (k : K) (v : V) (d : dict K V) :
  (dict_set k v d).*1 = if decide (k ∈ d.*1) then d.*1 else d.*1 ++ [k].
Proof.
  induction d as [|[k' v'] d IH]; cbn [dict_set fmap list_fmap].
  - destruct (decide (k ∈ [])) as [Hin|_]; [|done]. by apply elem_of_nil in Hin.
  - destruct (decide (k = k')) as [->|Hne]; cbn [fmap list_fmap fst].
    + destruct (decide (k' ∈ k' :: d.*1)) as [_|Hn]; [done|].
      exfalso. apply Hn. left.
    + rewrite IH.
      destruct (decide (k ∈ d.*1)) as [Hin|Hin];
        destruct (decide (k ∈ k' :: d.*1)) as [Hin'|Hin']; try done.
      * exfalso. apply Hin'. by right.
      * apply elem_of_cons in Hin' as [?|?]; done.
Qed.

Lemma dict_get_Some {K V} `{EqDecision K} (k : K) (v : V) (d : dict K V) :
  NoDup d.*1 -> dict_get k d = Some v <-> (k, v) ∈ d.
Proof.
  induction d as [|[k' v'] d IH]; simpl; intros Hnd.
  - split; [done|]. by intros ?%elem_of_nil.
  - apply NoDup_cons in Hnd as [Hk' Hnd]. case_decide as Hk.
    + subst k'. split.
      * intros [= ->]. left.
      * intros [[= ->]|Hin]%elem_of_cons; [done|].
        exfalso. apply Hk'. apply list_elem_of_fmap. by exists (k, v).
    + rewrite IH by done. split.
      * intros. by right.
      * intros [[= -> ->]|Hin]%elem_of_cons; done.
Qed.

Lemma dict_get_None {K V} `{EqDecision K} (k : K) (d : dict K V) :
  dict_get k d = None <-> k ∉ d.*1.
Proof.
  induction d as [|[k' v'] d IH]; simpl.
  - split; [intros _; apply not_elem_of_nil|done].
  - case_decide as Hk.
    + subst. split; [done|]. intros H. exfalso. apply H. left.
    + rewrite IH. rewrite not_elem_of_cons. naive_solver.
Qed.

(** *** [Counter] *)

Lemma Counter_fold_keys data : forall d : dict Z Z,
  NoDup d.*1 ->
  let r := fold_left
    (fun d b => let k := byte_val b in
                dict_set k (default 0 (dict_get k d) + 1) d) data d in
  NoDup r.*1 /\
  forall k, k ∈ r.*1 <-> k ∈ d.*1 \/ exists b, b ∈ data /\ k = byte_val b.
Proof.
  induction data as [|b data IH]; intros d Hnd; simpl.
  - split; [done|]. intros k. split; [auto|].
    intros [?|(b & Hb & _)]; [done|]. by apply elem_of_nil in Hb.
  - set (d' := dict_set (byte_val b) _ d).
    assert (Hk' : d'.*1 = if decide (byte_val b ∈ d.*1) then d.*1
                          else d.*1 ++ [byte_val b]) by apply dict_set_keys.
    assert (Hnd' : NoDup d'.*1).
    { rewrite Hk'. case_decide; [done|].
      apply NoDup_app. split; [done|]. split; [|apply NoDup_singleton].
      intros x Hx Hx'%list_elem_of_singleton. by subst x. }
    destruct (IH d' Hnd') as [H1 H2]. split; [done|].
    intros k. rewrite H2, Hk'. split.
    + intros [Hin|(b' & Hb' & ->)].
      * case_decide; [by left|].
        apply elem_of_app in Hin as [?|Hk%list_elem_of_singleton]; [by left|].
        subst k. right. exists b. split; [left|done].
      * right. exists b'. split; [by right|done].
    + intros [Hin|(b' & Hb' & ->)].
      * left. case_decide; [done|]. apply elem_of_app. by left.
      * apply elem_of_cons in Hb' as [->|Hb'].
        -- left. case_decide; [done|]. apply elem_of_app. right. left.
        -- right. by exists b'.
Qed.

Lemma Counter_keys data :
  NoDup (Counter data).*1 /\
  forall k, k ∈ (Counter data).*1 <-> exists b, b ∈ data /\ k = byte_val b.
Proof.
  destruct (Counter_fold_keys data [] (NoDup_nil_2)) as [H1 H2].
  split; [done|]. intros k. rewrite (H2 k). split; [|auto].
  intros [Hin|?]; [|done]. by apply elem_of_nil in Hin.
Qed.

Lemma Counter_keys_length data : (length (Counter data) <= 256)%nat.
Proof.
  destruct (Counter_keys data) as [Hnd Hin].
  rewrite <- (length_fmap fst).
  change 256%nat with (length (seqZ 0 256)).
  apply submseteq_length, NoDup_submseteq; [done|].
  intros k (b & _ & ->)%Hin. apply elem_of_seqZ.
  pose proof (byte_val_range b). lia.
Qed.

(** *** Trees and their paths *)

Lemma traverse_paths t : forall pre acc,
  pre <> [] -> traverse t pre acc = fold_left ins (paths t pre) acc.
Proof.
  induction t as [|char f l IHl r IHr]; intros pre acc Hpre; [done|].
  destruct char as [c|]; cbn [traverse paths].
  - by destruct pre.
  - rewrite fold_left_app.
    rewrite IHl by (by destruct pre). rewrite IHr by (by destruct pre). done.
Qed.

Lemma traverse_root f l r acc :
  traverse (Node None f l r) [] acc =
  fold_left ins (paths (Node None f l r) []) acc.
Proof.
  cbn [traverse paths]. rewrite fold_left_app.
  by rewrite !traverse_paths by done.
Qed.

Lemma fold_ins_fresh ps : forall acc : dict Z str * dict str Z,
  NoDup (acc.1.*1 ++ ps.*1) -> NoDup (acc.2.*1 ++ ps.*2) ->
  fold_left ins ps acc =
  (acc.1 ++ ps, acc.2 ++ ((fun e => (e.2, e.1)) <$> ps)).
Proof.
  induction ps as [|[c code] ps IH]; intros [cs tb] H1 H2; simpl in *.
  - by rewrite !app_nil_r.
  - rewrite IH; unfold ins; simpl.
    + rewrite !dict_set_fresh.
      * by rewrite <- !app_assoc.
      * apply NoDup_app in H2 as (_ & H2 & _). intros Hin.
        apply (H2 code Hin). left.
      * apply NoDup_app in H1 as (_ & H1 & _). intros Hin.
        apply (H1 c Hin). left.
    + rewrite dict_set_fresh.
      * rewrite fmap_app. simpl. by rewrite <- app_assoc.
      * apply NoDup_app in H1 as (_ & H1 & _). intros Hin.
        apply (H1 c Hin). left.
    + rewrite dict_set_fresh.
      * rewrite fmap_app. simpl. by rewrite <- app_assoc.
      * apply NoDup_app in H2 as (_ & H2 & _). intros Hin.
        apply (H2 code Hin). left.
Qed.

Lemma paths_keys t pre : wf_tree t -> (paths t pre).*1 = leaves t.
Proof.
  intros Hwf. revert pre. induction Hwf as [c f|f l r _ IHl _ IHr]; intros pre.
  - done.
  - cbn [paths leaves]. by rewrite fmap_app, IHl, IHr.
Qed.

Lemma leaves_nonempty t : wf_tree t -> (1 <= length (leaves t))%nat.
Proof.
  induction 1; cbn [leaves]; [simpl; lia|]. rewrite length_app. lia.
Qed.

(** Every path below [pre] extends [pre] by fewer bits than the subtree
    has leaves. *)
Lemma paths_shape t pre c code :
  wf_tree t -> (c, code) ∈ paths t pre ->
  exists suf, code = pre ++ suf /\ Forall is_bit_char suf /\
              (length suf < length (leaves t))%nat.
Proof.
  intros Hwf. revert pre.
  induction Hwf as [c' f|f l r Hl IHl Hr IHr]; intros pre Hin.
  - apply list_elem_of_singleton in Hin as [= -> ->].
    exists []. rewrite app_nil_r. split; [done|]. split; [done|]. simpl. lia.
  - cbn [paths leaves] in *. rewrite length_app.
    pose proof (leaves_nonempty l Hl). pose proof (leaves_nonempty r Hr).
    apply elem_of_app in Hin as [Hin|Hin].
    + destruct (IHl _ Hin) as (suf & -> & Hb & Hlen).
      exists ("0"%char :: suf). rewrite <- app_assoc. split; [done|].
      split; [constructor; [by left|done]|]. simpl. lia.
    + destruct (IHr _ Hin) as (suf & -> & Hb & Hlen).
      exists ("1"%char :: suf). rewrite <- app_assoc. split; [done|].
      split; [constructor; [by right|done]|]. simpl. lia.
Qed.

(** Two paths of a tree with distinct leaves, one a prefix of the other,
    end at the same leaf. *)
Lemma paths_prefix_free t pre c1 code1 c2 code2 :
  wf_tree t ->
  (c1, code1) ∈ paths t pre -> (c2, code2) ∈ paths t pre ->
  code1 `prefix_of` code2 -> c1 = c2 /\ code1 = code2.
Proof.
  intros Hwf. revert pre.
  induction Hwf as [c' f|f l r Hl IHl Hr IHr]; intros pre H1 H2 Hp.
  - apply list_elem_of_singleton in H1 as [= -> ->].
    by apply list_elem_of_singleton in H2 as [= -> ->].
  - cbn [paths] in *.
    apply elem_of_app in H1 as [H1|H1]; apply elem_of_app in H2 as [H2|H2].
    + by apply (IHl (pre ++ ["0"%char])).
    + destruct (paths_shape _ _ _ _ Hl H1) as (s1 & -> & _).
      destruct (paths_shape _ _ _ _ Hr H2) as (s2 & -> & _).
      rewrite <- !app_assoc in Hp. apply prefix_app_inv in Hp.
      simpl in Hp. by apply prefix_cons_inv_1 in Hp.
    + destruct (paths_shape _ _ _ _ Hr H1) as (s1 & -> & _).
      destruct (paths_shape _ _ _ _ Hl H2) as (s2 & -> & _).
      rewrite <- !app_assoc in Hp. apply prefix_app_inv in Hp.
      simpl in Hp. by apply prefix_cons_inv_1 in Hp.
    + by apply (IHr (pre ++ ["1"%char])).
Qed.

Lemma paths_codes_NoDup t pre :
  wf_tree t -> NoDup (leaves t) -> NoDup (paths t pre).*2.
Proof.
  intros Hwf Hnd.
  assert (Hk : NoDup (paths t pre).*1) by (by rewrite paths_keys).
  revert Hk.
  assert (Hpf : forall c1 code1 c2 code2,
            (c1, code1) ∈ paths t pre -> (c2, code2) ∈ paths t pre ->
            code1 = code2 -> c1 = c2).
  { intros c1 code1 c2 code2 H1 H2 ->.
    by destruct (paths_prefix_free t pre c1 code2 c2 code2 Hwf H1 H2). }
  revert Hpf. generalize (paths t pre). clear.
  induction l as [|[c code] ps IH]; intros Hpf Hk; simpl; [constructor|].
  apply NoDup_cons in Hk as [Hc Hk]. apply NoDup_cons. split.
  - intros Hin. apply list_elem_of_fmap in Hin as ([c' code'] & Heq & Hin).
    simpl in Heq. subst code'.
    assert (c = c') as <-.
    { apply (Hpf c code c' code); [left|by right|done]. }
    apply Hc. apply list_elem_of_fmap. by exists (c, code).
  - apply IH; [|done]. intros c1 code1 c2 code2 H1 H2.
    apply Hpf; by right.
Qed.

(** *** [HuffmanTree.build] *)

Lemma merge_loop_spec fuel : forall heap,
  Forall wf_tree heap -> heap <> [] -> (length heap <= S fuel)%nat ->
  exists root, merge_loop fuel heap = Some [root] /\ wf_tree root /\
               leaves root ≡ₚ heap ≫= leaves.
Proof.
  induction fuel as [|fuel IH]; intros heap Hwf Hne Hlen.
  - destruct heap as [|root [|? ?]]; [done| |simpl in Hlen; lia].
    exists root. simpl. split; [done|]. split; [by inversion Hwf|].
    by rewrite app_nil_r.
  - cbn [merge_loop]. case_decide as Hgt.
    + destruct (heappop_perm node_lt heap Hne) as (lft & h1 & -> & P1).
      cbn [mbind option_bind].
      assert (h1 <> []) as Hne1.
      { intros ->. apply Permutation_length in P1. simpl in P1. lia. }
      destruct (heappop_perm node_lt h1 Hne1) as (rgt & h2 & -> & P2).
      cbn [mbind option_bind].
      destruct (heappush_perm node_lt h2
                  (Node None (freq lft + freq rgt) lft rgt))
        as (h3 & -> & P3).
      cbn [mbind option_bind].
      assert (Hall : Forall wf_tree (lft :: rgt :: h2)).
      { rewrite P2, P1. done. }
      inversion Hall as [|? ? Hl Hall']; subst.
      inversion Hall' as [|? ? Hr Hh2]; subst.
      destruct (IH h3) as (root & -> & Hroot & Hleaves).
      * rewrite P3. constructor; [by constructor|done].
      * intros ->. apply Permutation_length in P3. simpl in P3. lia.
      * apply Permutation_length in P1, P2, P3. simpl in *. lia.
      * exists root. split; [done|]. split; [done|].
        rewrite Hleaves, P3, <- P1, <- P2. simpl.
        by rewrite <- app_assoc.
    + destruct heap as [|root [|? ?]]; [done| |simpl in Hgt; lia].
      exists root. split; [done|]. split; [by inversion Hwf|].
      simpl. by rewrite app_nil_r.
Qed.

Lemma leaves_of_frequencies (fs : dict Z Z) :
  (leaf_of <$> fs) ≫= leaves = fs.*1.
Proof. induction fs as [|[c f] fs IH]; [done|]. csimpl. by f_equal. Qed.

Lemma wf_leaf_of (fs : dict Z Z) : Forall wf_tree (leaf_of <$> fs).
Proof. induction fs as [|[c f] fs IH]; constructor; [constructor|done]. Qed.

Lemma table_ok_of_paths data root f l r :
  root = Node None f l r -> wf_tree root ->
  NoDup (leaves root) -> (length (leaves root) <= 256)%nat ->
  (forall k, k ∈ leaves root <-> exists b, b ∈ data /\ k = byte_val b) ->
  table_ok data (_generate_codes
                   {| root := root; codes := []; decode_table := [] |}).
Proof.
  intros -> Hwf Hnd Hlen Hkeys.
  unfold _generate_codes. cbn [Huffman.root].
  rewrite traverse_root.
  rewrite fold_ins_fresh; cbn [fst snd app fmap list_fmap];
    [|by rewrite paths_keys|by apply paths_codes_NoDup].
  set (ps := paths (Node None f l r) []).
  unfold table_ok. cbn [codes decode_table].
  split; [by unfold ps; rewrite paths_keys|].
  split; [by unfold ps; rewrite paths_keys|].
  split.
  { intros c1 code1 c2 code2 H1 H2 Hp.
    by destruct (paths_prefix_free _ _ _ _ _ _ Hwf H1 H2 Hp). }
  split; [|done].
  apply Forall_forall. intros [c code] Hin. cbn [snd].
  destruct (paths_shape _ _ _ _ Hwf Hin) as (suf & -> & Hbits & Hsuf).
  cbn [app]. split; [|done]. split; [|lia].
  inversion Hwf as [|? ? ? Hl Hr]; subst.
  unfold ps in Hin. cbn [paths app] in Hin.
  apply elem_of_app in Hin as [Hin|Hin].
  - destruct (paths_shape _ _ _ _ Hl Hin) as (s & -> & _). simpl. lia.
  - destruct (paths_shape _ _ _ _ Hr Hin) as (s & -> & _). simpl. lia.
Qed.

Lemma build_spec (data : bytes) :
  data <> [] ->
  exists tree, build empty_tree (Counter data) = Some tree /\
               table_ok data tree.
Proof.
  intros Hdata.
  destruct (Counter_keys data) as [Hnd Hkeys].
  pose proof (Counter_keys_length data) as Hlen.
  unfold build.
  destruct (Counter data) as [|e0 fs0] eqn:Hfs.
  { destruct data as [|b data]; [done|].
    exfalso. apply (elem_of_nil (byte_val b)). apply Hkeys.
    exists b. split; [left|done]. }
  rewrite <- Hfs in *. clear Hfs e0 fs0.
  set (fs := Counter data) in *.
  change ((fun '(ch, f) => Node (Some ch) f Nil Nil) <$> fs)
    with ((fun e : Z * Z => let '(ch, f) := e in Node (Some ch) f Nil Nil) <$> fs).
  assert (Hmap : ((fun e : Z * Z => let '(ch, f) := e in Node (Some ch) f Nil Nil)
                    <$> fs) = leaf_of <$> fs).
  { apply list_fmap_ext. by intros ? [??] _. }
  rewrite Hmap. clear Hmap.
  destruct (heapify_perm node_lt (leaf_of <$> fs)) as (heap & -> & Hperm).
  cbn [mbind option_bind].
  assert (Hwf : Forall wf_tree heap) by (rewrite Hperm; apply wf_leaf_of).
  assert (Hlv : heap ≫= leaves ≡ₚ fs.*1).
  { rewrite Hperm. by rewrite (leaves_of_frequencies fs). }
  assert (Hlh : length heap = length fs).
  { apply Permutation_length in Hperm. by rewrite length_fmap in Hperm. }
  case_decide as Hone.
  - destruct heap as [|n [|? ?]]; [done| |done].
    inversion Hwf as [|? ? Hn _]; subst.
    simpl in Hlv. rewrite app_nil_r in Hlv.
    destruct Hn as [c f|f l r Hl Hr].
    2:{ exfalso. apply Permutation_length in Hlv.
        cbn [leaves] in Hlv. rewrite length_app, length_fmap in Hlv.
        pose proof (leaves_nonempty l Hl). pose proof (leaves_nonempty r Hr).
        simpl in Hlh. lia. }
    cbn [leaves] in Hlv.
    eexists. split; [reflexivity|].
    unfold table_ok. cbn.
    apply Permutation_singleton_l in Hlv.
    split; [apply NoDup_singleton|].
    split; [by rewrite Hlv|].
    split.
    { intros c1 code1 c2 code2 H1%list_elem_of_singleton
        H2%list_elem_of_singleton _. congruence. }
    split; [|done].
    constructor; [|done]. simpl. split; [lia|].
    constructor; [by left|done].
  - assert (heap <> []) as Hne.
    { intros ->. destruct data as [|b data]; [done|].
      symmetry in Hlv. apply Permutation_nil_r in Hlv.
      apply (elem_of_nil (byte_val b)). rewrite <- Hlv. apply Hkeys.
      exists b. split; [left|done]. }
    destruct (merge_loop_spec (length heap) heap Hwf Hne ltac:(lia))
      as (root & -> & Hroot & Hleaves).
    cbn [mbind option_bind lookup list_lookup].
    eexists. split; [reflexivity|].
    assert (Hlr : leaves root ≡ₚ fs.*1) by (by rewrite Hleaves).
    destruct Hroot as [c f|f l r Hl Hr].
    { exfalso. apply Permutation_length in Hlr. cbn [leaves] in Hlr.
      rewrite length_fmap in Hlr. simpl in Hlr.
      destruct heap as [|? [|? ?]]; simpl in *; try done; lia. }
    apply (table_ok_of_paths data _ f l r); [done|by constructor| | |].
    + by rewrite Hlr.
    + apply Permutation_length in Hlr. rewrite Hlr, length_fmap. done.
    + intros k. rewrite Hlr. apply Hkeys.
Qed.
End HuffmanTable.

(* ===================================================================== *)
(** ** The Huffman wire formats *)
(* ===================================================================== *)

Section HuffmanWire.
Import Py Huffman Spec.

(** *** Code strings *)

Lemma ascii_encode_bits (code : str) :
  Forall is_bit_char code ->
  ascii_encode code = Some (byte_of_ascii <$> code).
Proof.
  unfold ascii_encode. induction 1 as [|a code Ha _ IH]; [done|].
  cbn [mapM]. rewrite IH.
  by destruct Ha as [-> | ->].
Qed.

Lemma ascii_decode_bits (code : str) :
  Forall is_bit_char code ->
  ascii_decode (byte_of_ascii <$> code) = Some code.
Proof.
  unfold ascii_decode. induction 1 as [|a code Ha _ IH]; [done|].
  cbn [mapM fmap list_fmap]. rewrite IH.
  by destruct Ha as [-> | ->].
Qed.

Lemma str_of_code_bits (code : str) :
  Forall is_bit_char code -> str_of_bit <$> code_bits code = code.
Proof.
  unfold code_bits. induction 1 as [|a code Ha _ IH]; [done|].
  csimpl. rewrite IH. by destruct Ha as [-> | ->].
Qed.

Lemma write_bits_spec (code : str) : forall bits,
  Forall is_bit_char code ->
  write_bits bits code = Some (bits ++ code_bits code).
Proof.
  induction code as [|a code IH]; intros bits Hc; simpl.
  - by rewrite app_nil_r.
  - inversion Hc as [|? ? Ha Hc']; subst.
    assert (int_of_char a = Some (if bool_decide (a = "1"%char) then 1 else 0))
      as -> by (by destruct Ha as [-> | ->]).
    cbn [mbind option_bind]. rewrite IH by done.
    rewrite <- app_assoc. do 3 f_equal.
    by destruct Ha as [-> | ->].
Qed.

(** *** The serialized table *)

Lemma serialize_codes_spec (codes : dict Z str) :
  Forall code_entry_ok codes ->
  serialize_codes codes = Some (codes ≫= entry_bytes).
Proof.
  induction 1 as [|[c code] codes (Hc & Hl & Hb) _ IH]; [done|].
  cbn [serialize_codes]. simpl in Hc, Hl, Hb.
  rewrite !pack_Some by (simpl; lia). cbn [mbind option_bind].
  rewrite ascii_encode_bits by done. cbn [mbind option_bind].
  rewrite IH. cbn [mbind option_bind]. done.
Qed.

Lemma deserialize_loop_spec (codes : dict Z str) : forall pre tree,
  Forall code_entry_ok codes ->
  exists tree',
    deserialize_loop (length codes) (pre ++ (codes ≫= entry_bytes))
      (length pre) tree = Some tree' /\
    (tree'.(Huffman.codes), tree'.(decode_table)) =
      fold_left ins codes (tree.(Huffman.codes), tree.(decode_table)).
Proof.
  induction codes as [|[c code] codes IH]; intros pre tree Hok.
  - exists tree. done.
  - inversion Hok as [|? ? (Hc & Hl & Hb) Hok']; subst. simpl in Hc, Hl, Hb.
    change (((c, code) :: codes) ≫= entry_bytes)
      with (entry_bytes (c, code) ++ (codes ≫= entry_bytes)).
    set (rest := codes ≫= entry_bytes).
    set (enc := byte_of_ascii <$> code).
    set (lb := byte_of_Z (Z.of_nat (length code))).
    change (entry_bytes (c, code)) with (byte_of_Z c :: lb :: enc).
    assert (Lenc : length enc = length code) by apply length_fmap.
    assert (Hlb : Z.to_nat (byte_val lb) = length code).
    { unfold lb. rewrite byte_val_of_Z, Z.mod_small by lia. lia. }
    cbn [deserialize_loop length app].
    rewrite decide_False by (rewrite !length_app; simpl; lia).
    rewrite (list_lookup_middle pre _ _ (length pre) eq_refl).
    cbn [fmap option_fmap option_map mbind option_bind].
    rewrite byte_val_of_Z, Z.mod_small by lia.
    rewrite (lookup_app_plus pre _ 1). cbn [lookup list_lookup].
    cbn [fmap option_fmap option_map mbind option_bind].
    rewrite Hlb.
    rewrite decide_False
      by (rewrite ?length_app; cbn [length]; rewrite ?length_app; lia).
    rewrite (slice_middle _ (pre ++ [byte_of_Z c; lb]) enc rest);
      [|by rewrite <- app_assoc|rewrite ?length_app; simpl; lia
       |rewrite ?length_app; simpl; lia].
    unfold enc. rewrite ascii_decode_bits by done.
    cbn [mbind option_bind].
    destruct (IH (pre ++ [byte_of_Z c; lb] ++ enc)
                {| root := root tree;
                   Huffman.codes := dict_set c code (Huffman.codes tree);
                   decode_table := dict_set code c (decode_table tree) |} Hok')
      as (tree' & Hloop & Hfold).
    exists tree'. split; [|exact Hfold].
    rewrite <- Hloop. f_equal.
    + by rewrite <- !app_assoc.
    + rewrite !length_app. simpl. fold enc. lia.
Qed.

Lemma NoDup_codes_of_inj (ps : list (Z * str)) :
  NoDup ps.*1 ->
  (forall c1 c2 code, (c1, code) ∈ ps -> (c2, code) ∈ ps -> c1 = c2) ->
  NoDup ps.*2.
Proof.
  induction ps as [|[c code] ps IH]; intros Hk Hinj; simpl; [constructor|].
  apply NoDup_cons in Hk as [Hc Hk]. apply NoDup_cons. split.
  - intros Hin. apply list_elem_of_fmap in Hin as ([c' code'] & Heq & Hin).
    simpl in Heq. subst code'.
    assert (c = c') as <- by (apply (Hinj c c' code); [left|by right]).
    apply Hc. apply list_elem_of_fmap. by exists (c, code).
  - apply IH; [done|]. intros c1 c2 code' H1 H2.
    apply (Hinj c1 c2 code'); by right.
Qed.

Lemma table_ok_entries data tree :
  table_ok data tree ->
  Forall code_entry_ok tree.(codes) /\ NoDup tree.(codes).*2 /\
  (length tree.(codes) <= 256)%nat.
Proof.
  intros (Hnd & Hkeys & Hpf & Hall & Htab). split; [|split].
  - apply Forall_forall. intros [c code] Hin.
    rewrite Forall_forall in Hall. destruct (Hall _ Hin) as [Hl Hb].
    split; [|done]. simpl.
    assert (c ∈ tree.(codes).*1) as Hc.
    { apply list_elem_of_fmap. by exists (c, code). }
    apply Hkeys in Hc as (b & _ & ->). apply byte_val_range.
  - apply NoDup_codes_of_inj; [done|].
    intros c1 c2 code H1 H2. by apply (Hpf c1 code c2 code).
  - rewrite <- (length_fmap fst).
    change 256%nat with (length (seqZ 0 256)).
    apply submseteq_length, NoDup_submseteq; [done|].
    intros k (b & _ & ->)%Hkeys. apply elem_of_seqZ.
    pose proof (byte_val_range b). lia.
Qed.

Lemma entry_bytes_length (codes : dict Z str) :
  Forall code_entry_ok codes ->
  (length (codes ≫= entry_bytes) <= 257 * length codes)%nat.
Proof.
  induction 1 as [|[c code] codes (Hc & Hl & Hb) _ IH]; [simpl; lia|].
  change (((c, code) :: codes) ≫= entry_bytes)
    with (entry_bytes (c, code) ++ (codes ≫= entry_bytes)).
  rewrite length_app. unfold entry_bytes at 1. cbn [length fst snd].
  rewrite length_fmap. simpl in Hl. lia.
Qed.

(** The table written by [serialize] is read back by [deserialize] with
    the same decode table. *)
Lemma deserialize_serialize data tree :
  data <> [] -> table_ok data tree ->
  exists tree_data tree',
    serialize tree = Some tree_data /\
    Z.of_nat (length tree_data) <= 65794 /\
    deserialize tree_data = Some tree' /\
    tree'.(decode_table) = tree.(decode_table) /\
    tree'.(codes) = tree.(codes).
Proof.
  intros Hdata Hok.
  destruct (table_ok_entries data tree Hok) as (Hall & Hnd2 & Hlen).
  destruct Hok as (Hnd & Hkeys & Hpf & _ & Htab).
  assert (Hne : tree.(codes) <> []).
  { destruct data as [|b data]; [done|]. intros Hnil.
    apply (elem_of_nil (byte_val b)).
    change [] with (([] : dict Z str).*1). rewrite <- Hnil.
    apply Hkeys. exists b. split; [left|done]. }
  unfold serialize.
  destruct (codes tree) as [|e0 cs0] eqn:Hcs; [done|].
  rewrite <- Hcs in *. clear Hcs e0 cs0.
  set (cs := codes tree) in *.
  rewrite pack_Some by (simpl; lia). cbn [mbind option_bind].
  rewrite (serialize_codes_spec cs Hall). cbn [mbind option_bind].
  set (n := le_bytes 2 (Z.of_nat (length cs))).
  assert (Ln : length n = 2%nat) by apply length_le_bytes.
  pose proof (entry_bytes_length cs Hall) as Hbody.
  destruct (deserialize_loop_spec cs n empty_tree Hall) as (tree' & Hloop & Hfold).
  exists (n ++ (cs ≫= entry_bytes)), tree'.
  split; [done|]. split; [rewrite length_app; lia|].
  split.
  - unfold deserialize.
    rewrite decide_False by (rewrite length_app; lia).
    rewrite (slice_middle _ [] n (cs ≫= entry_bytes)); [|done|done|simpl; lia].
    assert (Hun : unpack n = Z.of_nat (length cs)).
    { unfold n. rewrite unpack_le_bytes, Z.mod_small by (simpl; lia). done. }
    rewrite !Hun.
    rewrite decide_False.
    2:{ destruct cs; [done|simpl; lia]. }
    rewrite Nat2Z.id. rewrite Ln in Hloop. exact Hloop.
  - cbn [codes decode_table empty_tree] in Hfold.
    rewrite fold_ins_fresh in Hfold by done.
    cbn [fst snd app] in Hfold. injection Hfold as -> ->. by rewrite Htab.
Qed.

(** *** Bit packing *)

Lemma byte_bits_roundtrip (b0 b1 b2 b3 b4 b5 b6 b7 : bool) :
  0 <= byte_of_bits [b0; b1; b2; b3; b4; b5; b6; b7] < 256 /\
  bits_of_byte (byte_of_bits [b0; b1; b2; b3; b4; b5; b6; b7]) =
    [b0; b1; b2; b3; b4; b5; b6; b7].
Proof.
  destruct b0, b1, b2, b3, b4, b5, b6, b7;
    (split; [split; by vm_compute|by vm_compute]).
Qed.

Lemma pack_groups_spec (n : nat) : forall bits,
  length bits = (8 * n)%nat ->
  exists body,
    pack_groups n bits = Some body /\ length body = n /\
    body ≫= (fun byte => bits_of_byte (byte_val byte)) = bits.
Proof.
  induction n as [|n IH]; intros bits Hlen.
  - destruct bits; [|done]. by exists [].
  - destruct bits as [|b0 [|b1 [|b2 [|b3 [|b4 [|b5 [|b6 [|b7 rest]]]]]]]];
      try (simpl in Hlen; lia).
    cbn [pack_groups]. rewrite decide_False by (simpl; lia).
    change (take 8 (b0 :: b1 :: b2 :: b3 :: b4 :: b5 :: b6 :: b7 :: rest))
      with [b0; b1; b2; b3; b4; b5; b6; b7].
    change (drop 8 (b0 :: b1 :: b2 :: b3 :: b4 :: b5 :: b6 :: b7 :: rest))
      with rest.
    destruct (byte_bits_roundtrip b0 b1 b2 b3 b4 b5 b6 b7) as [Hr Hb].
    rewrite pack_Some by (simpl; lia).
    cbn [mbind option_bind].
    destruct (IH rest) as (body & -> & Lb & Hbody); [simpl in Hlen; lia|].
    cbn [mbind option_bind]. eexists. split; [done|].
    split; [simpl; lia|].
    cbn [le_bytes app]. rewrite bind_cons, Hbody.
    rewrite byte_val_of_Z, Z.mod_small by lia.
    by rewrite Hb.
Qed.

Lemma padding_spec (n : nat) :
  exists k, (n + (8 - n mod 8) mod 8 = 8 * k)%nat /\
            ((8 - n mod 8) mod 8 < 8)%nat.
Proof.
  pose proof (Nat.div_mod_eq n 8) as H.
  pose proof (Nat.mod_upper_bound n 8 ltac:(lia)) as H1.
  generalize dependent (n mod 8)%nat. generalize (n / 8)%nat. intros q r H H1.
  destruct (decide (r = 0)%nat) as [E|E].
  - exists q. subst r. change ((8 - 0) mod 8)%nat with 0%nat. lia.
  - exists (q + 1)%nat. rewrite (Nat.mod_small (8 - r) 8) by lia. lia.
Qed.

Lemma to_bytes_spec (bits : BitStream) :
  exists encoded,
    to_bytes bits = Some encoded /\
    from_bytes encoded = bits /\
    (length bits <= 8 * (length encoded - 1))%nat /\
    (8 * (length encoded - 1) < length bits + 8)%nat /\
    (1 <= length encoded)%nat.
Proof.
  unfold to_bytes.
  destruct (padding_spec (length bits)) as (n & Hn' & Hp).
  set (padding := ((8 - length bits mod 8) mod 8)%nat) in *.
  set (padded := bits ++ replicate padding false).
  assert (Hlen : length padded = (length bits + padding)%nat).
  { unfold padded. by rewrite length_app, length_replicate. }
  assert (Hn : length padded = (8 * n)%nat) by lia.
  rewrite pack_Some by (simpl; lia). cbn [mbind option_bind].
  replace ((length padded + 7) / 8)%nat with n.
  2:{ rewrite Hn. apply (Nat.div_unique (8 * n + 7) 8 n 7); lia. }
  destruct (pack_groups_spec n padded Hn) as (body & -> & Lb & Hbody).
  cbn [mbind option_bind]. eexists. split; [done|].
  cbn [le_bytes app length]. split; [|lia].
  unfold from_bytes. rewrite byte_val_of_Z, Z.mod_small by lia.
  rewrite Hbody. case_decide as Hpos.
  - rewrite Nat2Z.id, Hlen.
    replace (length bits + padding - padding)%nat with (length bits) by lia.
    unfold padded. by rewrite take_app_length.
  - assert (padding = 0%nat) as Hz by lia. unfold padded.
    rewrite Hz. simpl. by rewrite app_nil_r.
Qed.
End HuffmanWire.

(* ===================================================================== *)
(** ** The Huffman stage round-trips *)
(* ===================================================================== *)

Section HuffmanRoundTrip.
Import Py Huffman Spec.

Lemma table_lookup data tree b :
  table_ok data tree -> b ∈ data ->
  exists code,
    dict_get (byte_val b) tree.(codes) = Some code /\
    (byte_val b, code) ∈ tree.(codes) /\
    (1 <= length code <= 255)%nat /\ Forall is_bit_char code.
Proof.
  intros (Hnd & Hkeys & Hpf & Hall & Htab) Hb.
  assert (byte_val b ∈ tree.(codes).*1) as Hk.
  { apply Hkeys. by exists b. }
  apply list_elem_of_fmap in Hk as ([k code] & Hk & Hin). simpl in Hk. subst k.
  exists code. split; [by apply dict_get_Some|]. split; [done|].
  rewrite Forall_forall in Hall. apply (Hall _ Hin).
Qed.

Lemma encode_bytes_spec data0 tree data : forall bits,
  table_ok data0 tree -> (forall b, b ∈ data -> b ∈ data0) ->
  encode_bytes tree.(codes) data bits =
    Some (bits ++ bits_of tree.(codes) data).
Proof.
  induction data as [|b data IH]; intros bits Hok Hsub.
  - simpl. by rewrite app_nil_r.
  - cbn [encode_bytes].
    destruct (table_lookup data0 tree b Hok (Hsub b ltac:(left)))
      as (code & Hget & _ & _ & Hbits).
    rewrite Hget. cbn [default]. rewrite write_bits_spec by done.
    cbn [mbind option_bind]. rewrite IH; [|done|intros; apply Hsub; by right].
    unfold bits_of. rewrite bind_cons. unfold code_for at 2. rewrite Hget.
    cbn [default]. by rewrite <- app_assoc.
Qed.

Lemma bits_of_length data0 tree data :
  table_ok data0 tree -> (forall b, b ∈ data -> b ∈ data0) ->
  (length data <= length (bits_of tree.(codes) data))%nat.
Proof.
  intros Hok. induction data as [|b data IH]; intros Hsub; [simpl; lia|].
  unfold bits_of. rewrite bind_cons, length_app. fold (bits_of (codes tree) data).
  destruct (table_lookup data0 tree b Hok (Hsub b ltac:(left)))
    as (code & Hget & _ & Hl & _).
  unfold code_for. rewrite Hget. cbn [default]. unfold code_bits.
  rewrite length_fmap. cbn [length].
  assert (length data <= length (bits_of (codes tree) data))%nat
    by (apply IH; intros; apply Hsub; by right).
  unfold id. lia.
Qed.

(** The decode table inverts the code table. *)
Lemma decode_table_get data tree code c :
  table_ok data tree ->
  dict_get code tree.(decode_table) = Some c <-> (c, code) ∈ tree.(codes).
Proof.
  intros Hok. destruct (table_ok_entries data tree Hok) as (_ & Hnd2 & _).
  destruct Hok as (_ & _ & _ & _ & Htab). rewrite Htab.
  rewrite dict_get_Some.
  - rewrite list_elem_of_fmap. split.
    + intros ([c' code'] & [= -> ->] & Hin). done.
    + intros Hin. by exists (c, code).
  - assert (Heq : ((fun e : Z * str => (e.2, e.1)) <$> codes tree).*1 =
                  (codes tree).*2).
    { rewrite <- list_fmap_compose. apply list_fmap_ext. by intros i [??] _. }
    by rewrite Heq.
Qed.

Lemma table_codes_unique data tree c code1 code2 :
  table_ok data tree ->
  (c, code1) ∈ tree.(codes) -> (c, code2) ∈ tree.(codes) -> code1 = code2.
Proof.
  intros (Hnd & _) H1 H2.
  apply (dict_get_Some c code1 _ Hnd) in H1.
  apply (dict_get_Some c code2 _ Hnd) in H2. congruence.
Qed.

(** Reading the bits of one code: nothing is emitted before its last
    bit, and then its symbol is. *)
Lemma decode_bits_code data tree c code :
  table_ok data tree -> (c, code) ∈ tree.(codes) ->
  forall suf cur rest out,
    cur ++ suf = code -> suf <> [] ->
    decode_bits tree.(decode_table) (code_bits suf ++ rest) cur out =
    b ← mk_byte c; decode_bits tree.(decode_table) rest [] (out ++ [b]).
Proof.
  intros Hok Hin.
  assert (Hbits : Forall is_bit_char code).
  { destruct Hok as (_ & _ & _ & Hall & _). rewrite Forall_forall in Hall.
    apply (Hall _ Hin). }
  induction suf as [|a suf IH]; intros cur rest out Hcode Hne; [done|].
  assert (Ha : is_bit_char a).
  { rewrite <- Hcode in Hbits. apply Forall_app in Hbits as [_ Hs].
    by inversion Hs. }
  cbn [code_bits fmap list_fmap app decode_bits].
  assert (str_of_bit (bool_decide (a = "1"%char)) = a) as ->
    by (by destruct Ha as [-> | ->]).
  destruct suf as [|a' suf].
  - assert (dict_get (cur ++ [a]) (decode_table tree) = Some c) as ->.
    { apply (decode_table_get data); [done|]. by rewrite Hcode. }
    done.
  - assert (dict_get (cur ++ [a]) (decode_table tree) = None) as ->.
    { destruct (dict_get (cur ++ [a]) (decode_table tree)) as [c'|] eqn:E;
        [|done].
      exfalso. apply (decode_table_get data) in E; [|done].
      pose proof Hok as (Hnd & Hkeys & Hpf & Hall & Htab).
      assert (c' = c) as ->.
      { apply (Hpf c' (cur ++ [a]) c code E Hin).
        exists (a' :: suf). by rewrite <- app_assoc. }
      assert (cur ++ [a] = code) as Heq
        by (by apply (table_codes_unique data tree c)).
      rewrite <- Hcode in Heq.
      apply (f_equal length) in Heq. rewrite !length_app in Heq.
      simpl in Heq. lia. }
    apply (IH (cur ++ [a])); [|done]. by rewrite <- app_assoc.
Qed.

Lemma decode_bits_data data0 tree data : forall out tail,
  table_ok data0 tree -> (forall b, b ∈ data -> b ∈ data0) ->
  decode_bits tree.(decode_table) (bits_of tree.(codes) data ++ tail) [] out =
  decode_bits tree.(decode_table) tail [] (out ++ data).
Proof.
  induction data as [|b data IH]; intros out tail Hok Hsub.
  - simpl. by rewrite app_nil_r.
  - destruct (table_lookup data0 tree b Hok (Hsub b ltac:(left)))
      as (code & Hget & Hin & Hl & Hbits).
    unfold bits_of. rewrite bind_cons. fold (bits_of (codes tree) data).
    unfold code_for. rewrite Hget. cbn [default]. rewrite <- app_assoc.
    rewrite (decode_bits_code data0 tree (byte_val b) code Hok Hin code []);
      [|done|destruct code; [simpl in Hl; lia|done]].
    rewrite mk_byte_val. cbn [mbind option_bind].
    rewrite IH; [|done|intros; apply Hsub; by right].
    by rewrite <- app_assoc.
Qed.

(** Trailing bits that never complete a code are dropped. *)
Lemma decode_bits_no_code table : forall tail cur out,
  (forall k, (0 < k <= length tail)%nat ->
     dict_get (cur ++ (str_of_bit <$> take k tail)) table = None) ->
  decode_bits table tail cur out = Some out.
Proof.
  induction tail as [|bit tail IH]; intros cur out Hno; [done|].
  cbn [decode_bits].
  pose proof (Hno 1%nat ltac:(simpl; lia)) as H1.
  change (take 1 (bit :: tail)) with (bit :: take 0 tail) in H1.
  rewrite take_0 in H1. cbn [fmap list_fmap] in H1. rewrite H1.
  apply IH. intros k Hk.
  specialize (Hno (S k) ltac:(simpl; lia)).
  change (take (S k) (bit :: tail)) with (bit :: take k tail) in Hno.
  cbn [fmap list_fmap] in Hno.
  by rewrite <- app_assoc.
Qed.

(** What [HuffmanEncoder.encode] returns for a non-empty buffer. *)
Lemma encode_spec (data : bytes) :
  data <> [] ->
  exists tree tree_data encoded_data,
    build empty_tree (Counter data) = Some tree /\ table_ok data tree /\
    serialize tree = Some tree_data /\
    to_bytes (bits_of tree.(codes) data) = Some encoded_data /\
    encode data = Some (tree_data, encoded_data).
Proof.
  intros Hne.
  destruct (build_spec data Hne) as (tree & Hbuild & Hok).
  destruct (deserialize_serialize data tree Hne Hok)
    as (td & tree' & Hser & _ & _ & _).
  destruct (to_bytes_spec (bits_of tree.(codes) data)) as (ed & Hto & _).
  exists tree, td, ed. do 4 (split; [done|]).
  unfold encode. destruct data as [|b data]; [done|].
  cbv zeta. rewrite Hbuild. cbn [mbind option_bind].
  rewrite (encode_bytes_spec (b :: data) tree (b :: data) [] Hok) by done.
  cbn [mbind option_bind app]. rewrite Hser. cbn [mbind option_bind].
  rewrite Hto. done.
Qed.

Lemma decode_encode (data : bytes) :
  exists tree_data encoded_data,
    encode data = Some (tree_data, encoded_data) /\
    decode tree_data encoded_data = Some data.
Proof.
  destruct (decide (data = [])) as [->|Hne].
  { eexists _, _. split; reflexivity. }
  destruct (encode_spec data Hne)
    as (tree & td & ed & Hbuild & Hok & Hser & Hto & Henc).
  exists td, ed. split; [done|].
  destruct (deserialize_serialize data tree Hne Hok)
    as (td' & tree' & Hser' & _ & Hdes & Htab & _).
  rewrite Hser in Hser'. injection Hser' as <-.
  destruct (to_bytes_spec (bits_of tree.(codes) data))
    as (ed' & Hto' & Hfrom & _).
  rewrite Hto in Hto'. injection Hto' as <-.
  unfold decode. rewrite Hdes. cbn [mbind option_bind]. rewrite Htab.
  clear Htab. destruct (decode_table tree) as [|e0 t0] eqn:Ht.
  { exfalso. destruct data as [|b data]; [done|].
    destruct (table_lookup (b :: data) tree b Hok ltac:(left))
      as (code & _ & Hin & _).
    apply (decode_table_get (b :: data) tree code (byte_val b) Hok) in Hin.
    by rewrite Ht in Hin. }
  rewrite <- Ht. clear Ht e0 t0. rewrite Hfrom.
  pose proof (decode_bits_data data tree data [] [] Hok ltac:(done)) as Hd.
  rewrite app_nil_r in Hd. rewrite Hd. done.
Qed.
End HuffmanRoundTrip.

(* ===================================================================== *)
(** ** The Huffman blob: two length-prefixed fields *)
(* ===================================================================== *)

Section HuffmanBlob.
Import Py Huffman Spec.

Lemma bits_of_upper data0 tree data :
  table_ok data0 tree -> (forall b, b ∈ data -> b ∈ data0) ->
  (length (bits_of tree.(codes) data) <= 255 * length data)%nat.
Proof.
  intros Hok. induction data as [|b data IH]; intros Hin; [simpl; lia|].
  unfold bits_of in *. rewrite bind_cons, length_app.
  destruct (table_lookup data0 tree b Hok (Hin b ltac:(left)))
    as (code & Hget & _ & Hlen & _).
  unfold code_for at 1. rewrite Hget. cbn [default].
  unfold code_bits at 1. rewrite length_fmap.
  assert (length (data ≫= (fun b0 => code_bits (code_for (codes tree) b0)))
          <= 255 * length data)%nat.
  { apply IH. intros b' Hb'. apply Hin. by right. }
  unfold id. cbn [length]. lia.
Qed.

(** The payload of a non-empty buffer: one padding byte and the bits,
    at most 255 per input byte, packed eight to a byte. *)
Lemma encode_payload_length (data tree_data encoded_data : bytes) :
  encode data = Some (tree_data, encoded_data) ->
  Z.of_nat (length tree_data) <= 65794 /\
  8 * Z.of_nat (length encoded_data) <= 255 * Z.of_nat (length data) + 15.
Proof.
  destruct (decide (data = [])) as [->|Hne].
  { intros [= <- <-]. simpl. lia. }
  destruct (encode_spec data Hne)
    as (tree & td & ed & Hbuild & Hok & Hser & Hto & Henc).
  rewrite Henc. intros [= <- <-].
  destruct (deserialize_serialize data tree Hne Hok)
    as (td' & tree' & Hser' & Hlen & _).
  rewrite Hser in Hser'. injection Hser' as <-.
  destruct (to_bytes_spec (bits_of tree.(codes) data))
    as (ed' & Hto' & _ & _ & Hub & H1).
  rewrite Hto in Hto'. injection Hto' as <-.
  pose proof (bits_of_upper data tree data Hok ltac:(done)).
  split; [done|]. lia.
Qed.

(** Reading a well-formed blob hands the two fields to [decode]. *)
Lemma decompress_blob (tree_data encoded_data : bytes) :
  Z.of_nat (length tree_data) < 2 ^ 32 ->
  Z.of_nat (length encoded_data) < 2 ^ 32 ->
  decompress_with_huffman
    (le_bytes 4 (Z.of_nat (length tree_data)) ++ tree_data ++
     le_bytes 4 (Z.of_nat (length encoded_data)) ++ encoded_data) =
  decode tree_data encoded_data.
Proof.
  intros Ht He.
  set (a := le_bytes 4 (Z.of_nat (length tree_data))).
  set (b := le_bytes 4 (Z.of_nat (length encoded_data))).
  assert (La : length a = 4%nat) by apply length_le_bytes.
  assert (Lb : length b = 4%nat) by apply length_le_bytes.
  assert (Ua : unpack a = Z.of_nat (length tree_data)).
  { unfold a. rewrite unpack_le_bytes. apply Z.mod_small.
    change (256 ^ Z.of_nat 4) with (2 ^ 32). lia. }
  assert (Ub : unpack b = Z.of_nat (length encoded_data)).
  { unfold b. rewrite unpack_le_bytes. apply Z.mod_small.
    change (256 ^ Z.of_nat 4) with (2 ^ 32). lia. }
  set (blob := a ++ tree_data ++ b ++ encoded_data).
  assert (Lblob : length blob =
            (8 + length tree_data + length encoded_data)%nat).
  { unfold blob. rewrite !length_app. lia. }
  unfold decompress_with_huffman.
  rewrite decide_False by lia.
  assert (S1 : slice 0 (0 + 4) blob = a).
  { by apply (slice_middle _ [] a (tree_data ++ b ++ encoded_data)). }
  rewrite S1, Ua, Nat2Z.id.
  rewrite decide_False by lia.
  assert (S2 : slice (0 + 4) (0 + 4 + length tree_data) blob = tree_data).
  { apply (slice_middle _ a tree_data (b ++ encoded_data)); [done|done|lia]. }
  rewrite S2.
  rewrite decide_False by lia.
  assert (S3 : slice (0 + 4 + length tree_data)
                 (0 + 4 + length tree_data + 4) blob = b).
  { apply (slice_middle _ (a ++ tree_data) b encoded_data);
      [unfold blob; by rewrite <- !app_assoc|rewrite length_app; lia|lia]. }
  rewrite S3, Ub, Nat2Z.id.
  rewrite decide_False by lia.
  assert (S4 : slice (0 + 4 + length tree_data + 4)
                 (0 + 4 + length tree_data + 4 + length encoded_data) blob
               = encoded_data).
  { apply (slice_middle _ (a ++ tree_data ++ b) encoded_data []);
      [unfold blob; by rewrite <- !app_assoc, app_nil_r
      |rewrite !length_app; lia|lia]. }
  by rewrite S4.
Qed.

Lemma slice_take {A} (l : list A) (a b n : nat) :
  (b <= n)%nat -> slice a b (take n l) = slice a b l.
Proof.
  intros Hb. unfold slice.
  rewrite skipn_firstn_comm, take_take. f_equal. lia.
Qed.

(** A blob cut short anywhere is read as the empty buffer. *)
Lemma decompress_blob_prefix (tree_data encoded_data : bytes) (n : nat) :
  Z.of_nat (length tree_data) < 2 ^ 32 ->
  Z.of_nat (length encoded_data) < 2 ^ 32 ->
  (n < 8 + length tree_data + length encoded_data)%nat ->
  decompress_with_huffman
    (take n
       (le_bytes 4 (Z.of_nat (length tree_data)) ++ tree_data ++
        le_bytes 4 (Z.of_nat (length encoded_data)) ++ encoded_data)) =
  Some [].
Proof.
  intros Ht He Hn.
  set (a := le_bytes 4 (Z.of_nat (length tree_data))).
  set (b := le_bytes 4 (Z.of_nat (length encoded_data))).
  assert (La : length a = 4%nat) by apply length_le_bytes.
  assert (Lb : length b = 4%nat) by apply length_le_bytes.
  assert (Ua : unpack a = Z.of_nat (length tree_data)).
  { unfold a. rewrite unpack_le_bytes. apply Z.mod_small.
    change (256 ^ Z.of_nat 4) with (2 ^ 32). lia. }
  assert (Ub : unpack b = Z.of_nat (length encoded_data)).
  { unfold b. rewrite unpack_le_bytes. apply Z.mod_small.
    change (256 ^ Z.of_nat 4) with (2 ^ 32). lia. }
  set (blob := a ++ tree_data ++ b ++ encoded_data).
  assert (Lblob : length blob =
            (8 + length tree_data + length encoded_data)%nat).
  { unfold blob. rewrite !length_app. lia. }
  assert (Lcut : length (take n blob) = n).
  { rewrite length_take. lia. }
  unfold decompress_with_huffman. rewrite Lcut.
  case_decide as H8; [done|].
  rewrite slice_take by lia.
  assert (S1 : slice 0 (0 + 4) blob = a).
  { by apply (slice_middle _ [] a (tree_data ++ b ++ encoded_data)). }
  rewrite S1, Ua, Nat2Z.id.
  case_decide as H1; [done|].
  case_decide as H2; [done|].
  rewrite (slice_take _ (0 + 4 + length tree_data)) by lia.
  assert (S3 : slice (0 + 4 + length tree_data)
                 (0 + 4 + length tree_data + 4) blob = b).
  { apply (slice_middle _ (a ++ tree_data) b encoded_data);
      [unfold blob; by rewrite <- !app_assoc|rewrite length_app; lia|lia]. }
  rewrite S3, Ub, Nat2Z.id.
  rewrite decide_True by lia. done.
Qed.

(** The blob of a buffer whose payload fits the size field. *)
Lemma compress_with_huffman_spec (data : bytes) :
  Z.of_nat (length data) < 2 ^ 27 ->
  exists tree_data encoded_data,
    encode data = Some (tree_data, encoded_data) /\
    decode tree_data encoded_data = Some data /\
    Z.of_nat (length tree_data) < 2 ^ 32 /\
    Z.of_nat (length encoded_data) < 2 ^ 32 /\
    compress_with_huffman data =
      Some (le_bytes 4 (Z.of_nat (length tree_data)) ++ tree_data ++
            le_bytes 4 (Z.of_nat (length encoded_data)) ++ encoded_data).
Proof.
  intros Hlen.
  destruct (decode_encode data) as (td & ed & Henc & Hdec).
  destruct (encode_payload_length data td ed Henc) as [Ltd Led].
  change (2 ^ 27) with 134217728 in Hlen.
  assert (Z.of_nat (length td) < 2 ^ 32)
    by (change (2 ^ 32) with 4294967296; lia).
  assert (Z.of_nat (length ed) < 2 ^ 32)
    by (change (2 ^ 32) with 4294967296; lia).
  exists td, ed. do 4 (split; [done|]).
  unfold compress_with_huffman. rewrite Henc. cbn [mbind option_bind].
  change (2 ^ 32) with 4294967296 in *.
  rewrite !pack_Some by (simpl; lia). done.
Qed.

(** [to_bytes] with the exact size of what it writes. *)
Lemma to_bytes_exact (bits : BitStream) :
  exists encoded,
    to_bytes bits = Some encoded /\
    length encoded = S ((length bits + 7) / 8) /\
    from_bytes encoded = bits.
Proof.
  destruct (to_bytes_spec bits) as (enc & Hto & Hfrom & Hlo & Hhi & H1).
  exists enc. split; [done|]. split; [|done].
  destruct (length enc) as [|n] eqn:E; [lia|]. f_equal.
  replace (S n - 1)%nat with n in * by lia.
  apply (Nat.div_unique (length bits + 7) 8 n (length bits + 7 - 8 * n)); lia.
Qed.

(** A buffer that repeats one byte value: one table entry, one bit per
    byte. *)
Lemma Counter_replicate (b : byte) (n : nat) :
  Counter (replicate (S n) b) = [(byte_val b, Z.of_nat (S n))].
Proof.
  unfold Counter. cbn [replicate fold_left dict_get dict_set default].
  change (0 + 1) with (Z.of_nat 1).
  replace (S n) with (1 + n)%nat by lia.
  generalize 1%nat. induction n as [|n IH]; intros c.
  - cbn [replicate fold_left]. do 3 f_equal. lia.
  - cbn [replicate fold_left dict_get dict_set].
    rewrite !decide_True by done. cbn [default]. unfold id.
    replace (Z.of_nat c + 1) with (Z.of_nat (S c)) by lia.
    rewrite IH. do 3 f_equal. lia.
Qed.

Lemma encode_bytes_single (k : Z) (b : byte) (n : nat) :
  k = byte_val b ->
  forall bits,
    encode_bytes [(k, ["0"%char])] (replicate n b) bits =
      Some (bits ++ replicate n false).
Proof.
  intros ->. induction n as [|n IH]; intros bits.
  - cbn [replicate encode_bytes]. by rewrite app_nil_r.
  - cbn [replicate encode_bytes dict_get]. rewrite decide_True by done.
    cbn [default].
    rewrite write_bits_spec by (repeat constructor).
    cbn [mbind option_bind]. rewrite IH.
    change (code_bits ["0"%char]) with [false].
    by rewrite <- app_assoc.
Qed.

Lemma encode_single_symbol (b : byte) (n : nat) :
  exists encoded_data,
    encode (replicate (S n) b) =
      Some ([x01; x00; b; x01; x30], encoded_data) /\
    length encoded_data = S ((S n + 7) / 8) /\
    from_bytes encoded_data = replicate (S n) false.
Proof.
  destruct (to_bytes_exact (replicate (S n) false)) as (enc & Hto & Hl & Hf).
  rewrite length_replicate in Hl.
  exists enc. split; [|done].
  unfold encode.
  change (replicate (S n) b) with (b :: replicate n b) at 1.
  cbv zeta. rewrite Counter_replicate.
  pose proof (byte_val_range b) as Hk.
  set (k := byte_val b) in *.
  change (build empty_tree [(k, Z.of_nat (S n))])
    with (Some {| root := Node None (Z.of_nat (S n))
                            (Node (Some k) (Z.of_nat (S n)) Nil Nil) Nil;
                  codes := [(k, ["0"%char])];
                  decode_table := [(["0"%char], k)] |}).
  cbn [mbind option_bind codes].
  rewrite (encode_bytes_single k b (S n) eq_refl). cbn [mbind option_bind app].
  unfold serialize. cbn [codes length].
  rewrite pack_Some by (simpl; lia). cbn [mbind option_bind].
  rewrite serialize_codes_spec.
  2:{ constructor; [|constructor]. split; [done|]. split; [simpl; lia|].
      repeat constructor. }
  cbn [mbind option_bind]. rewrite Hto.
  cbn [mbind option_bind]. do 2 f_equal.
  unfold k. cbn. by rewrite byte_of_Z_val.
Qed.

(** Whenever [compress_with_huffman] returns, both fields fit their
    size fields. *)
Lemma compress_with_huffman_inv (data blob : bytes) :
  compress_with_huffman data = Some blob ->
  exists tree_data encoded_data,
    encode data = Some (tree_data, encoded_data) /\
    Z.of_nat (length tree_data) < 2 ^ 32 /\
    Z.of_nat (length encoded_data) < 2 ^ 32 /\
    blob = le_bytes 4 (Z.of_nat (length tree_data)) ++ tree_data ++
           le_bytes 4 (Z.of_nat (length encoded_data)) ++ encoded_data.
Proof.
  unfold compress_with_huffman.
  destruct (encode data) as [[td ed]|]; [|done]. cbn [mbind option_bind].
  unfold pack. change (256 ^ Z.of_nat 4) with (2 ^ 32).
  repeat case_decide; try done. cbn [mbind option_bind].
  intros [= <-]. exists td, ed. repeat split; try done; lia.
Qed.
End HuffmanBlob.

(* ===================================================================== *)
(** ** More on the LZ77 coder: reused compressors, sizes *)
(* ===================================================================== *)

Section LZ77More.
Import Py Compressor CompressionStats Spec.

Lemma compress_with_spec (m : MatchFinder) (data : bytes) :
  decompress (compress_with m data).1 = Some data /\
  Forall token_ok (compress_with m data).1.
Proof.
  unfold compress_with. destruct data as [|b data]; [done|].
  cbn [fst]. apply compress_loop_spec; simpl; try done; lia.
Qed.

Lemma sum_from (l : list Z) (a : Z) : fold_left Z.add l a = a + sum l.
Proof.
  unfold sum. revert a. induction l as [|x l IH]; intros a;
    cbn [fold_left]; [lia|].
  rewrite (IH (a + x)), (IH (0 + x)). lia.
Qed.

Lemma sum_cons (x : Z) (l : list Z) : sum (x :: l) = x + sum l.
Proof. unfold sum at 1. simpl. by rewrite sum_from. Qed.

Lemma stats_cons (t : Token) (ts : list Token) (n n' : Z) :
  literal_count (init (t :: ts) n) =
    (if is_literal t then 1 else 0) + literal_count (init ts n') /\
  match_count (init (t :: ts) n) =
    (if is_match t then 1 else 0) + match_count (init ts n') /\
  total_match_length (init (t :: ts) n) =
    token_length t + total_match_length (init ts n').
Proof.
  unfold init. cbn [literal_count match_count total_match_length].
  rewrite !filter_cons.
  destruct t as [lit|len dist]; cbn [is_literal is_match token_length];
    repeat case_decide; try done;
    rewrite ?fmap_cons, ?sum_cons; repeat split; lia.
Qed.

Lemma encode_token_length (t : Token) (e : bytes) :
  encode_token t = Some e ->
  Z.of_nat (length e) = if is_literal t then 2 else 4.
Proof.
  destruct t as [lit|len dist]; cbn [encode_token is_literal].
  - unfold pack. repeat case_decide; try done. cbn [mbind option_bind].
    intros [= <-]. done.
  - unfold pack. repeat case_decide; try done. cbn [mbind option_bind].
    intros [= <-]. done.
Qed.

Lemma encode_tokens_size (ts : list Token) : forall (e : bytes) (n : Z),
  encode_tokens ts = Some e ->
  Z.of_nat (length e) = estimated_compressed (init ts n).
Proof.
  induction ts as [|t ts IH]; intros e n.
  - by intros [= <-].
  - cbn [encode_tokens].
    destruct (encode_token t) as [et|] eqn:Et; [|done].
    destruct (encode_tokens ts) as [er|] eqn:Er; [|done].
    cbn [mbind option_bind]. intros [= <-].
    specialize (IH er n eq_refl).
    apply encode_token_length in Et.
    destruct (stats_cons t ts n n) as (Hl & Hm & _).
    change (estimated_compressed (init (t :: ts) n))
      with (literal_count (init (t :: ts) n) * 2 +
            match_count (init (t :: ts) n) * 4).
    change (estimated_compressed (init ts n))
      with (literal_count (init ts n) * 2 + match_count (init ts n) * 4)
      in IH.
    rewrite Hl, Hm, length_app.
    destruct t; cbn [is_literal is_match] in *; lia.
Qed.

Lemma copy_match_length (n : nat) : forall (output output' : bytes) (p : Z),
  copy_match n output p = Some output' ->
  length output' = (length output + n)%nat.
Proof.
  induction n as [|n IH]; intros output output' p; cbn [copy_match].
  - intros [= <-]. lia.
  - destruct (index output p) as [b|]; [|done]. cbn [mbind option_bind].
    intros H%IH. rewrite length_app in H. simpl in H. lia.
Qed.

Lemma decompress_from_length (ts : list Token) :
  forall (output out : bytes) (n : Z),
  Forall (fun t => 0 <= token_length t) ts ->
  decompress_from output ts = Some out ->
  Z.of_nat (length out) =
    Z.of_nat (length output) +
    literal_count (init ts n) + total_match_length (init ts n).
Proof.
  induction ts as [|t ts IH]; intros output out n Hpos.
  - intros [= <-]. change (literal_count (init [] n)) with 0.
    change (total_match_length (init [] n)) with 0. lia.
  - inversion Hpos as [|? ? Ht Hts]; subst.
    destruct (stats_cons t ts n n) as (Hl & _ & Hm). rewrite Hl, Hm.
    destruct t as [lit|len dist];
      cbn [decompress_from is_literal token_length] in *.
    + destruct (mk_byte lit) as [b|]; [|done]. cbn [mbind option_bind].
      intros H. apply (IH _ _ n Hts) in H.
      rewrite length_app in H. cbn [length] in H. lia.
    + destruct (copy_match _ _ _) as [o'|] eqn:Ec; [|done].
      cbn [mbind option_bind]. intros H. apply (IH _ _ n Hts) in H.
      apply copy_match_length in Ec. lia.
Qed.

Lemma token_ok_length (ts : list Token) :
  Forall token_ok ts -> Forall (fun t => 0 <= token_length t) ts.
Proof.
  intros H. eapply Forall_impl; [exact H|].
  intros [lit|len dist]; simpl; lia.
Qed.

(** A copy that starts at or after the end of the output raises. *)
Lemma copy_match_past_end (n : nat) (output : bytes) (p : Z) :
  Z.of_nat (length output) <= p -> copy_match (S n) output p = None.
Proof.
  intros Hp. cbn [copy_match]. unfold index.
  rewrite decide_True by lia.
  by rewrite lookup_ge_None_2 by lia.
Qed.

(** A tag other than 0 and 1 is skipped by the reader. *)
Lemma decode_loop_shift (fuel : nat) :
  forall (b : byte) (data : bytes) (pos : nat) (acc : list Token),
  decode_loop fuel (b :: data) (S pos) acc = decode_loop fuel data pos acc.
Proof.
  induction fuel as [|fuel IH]; intros b data pos acc; [done|].
  cbn [decode_loop].
  change ((b :: data) !! S pos) with (data !! pos).
  destruct (data !! pos) as [tt|] eqn:Ett; [|done].
  replace (S pos + 1)%nat with (S (pos + 1)) by lia.
  change ((b :: data) !! S (pos + 1)) with (data !! (pos + 1)%nat).
  case_decide.
  { destruct (data !! (pos + 1)%nat); [|done].
    replace (S (pos + 1) + 1)%nat with (S (pos + 1 + 1)) by lia. apply IH. }
  case_decide; [|apply IH].
  cbn [length].
  destruct (decide (S (length data) < S (pos + 1) + 3)%nat);
    destruct (decide (length data < pos + 1 + 3)%nat); try lia; [done|].
  destruct (data !! (pos + 1)%nat); [|done].
  replace (S (pos + 1) + 1)%nat with (S (pos + 1 + 1)) by lia.
  replace (S (pos + 1 + 1) + 2)%nat with (S (pos + 1 + 1 + 2)) by lia.
  rewrite IH. do 2 f_equal.
Qed.
End LZ77More.

(* ===================================================================== *)
(** ** More on the container: what the reader looks at *)
(* ===================================================================== *)

Section ContainerMore.
Import Py Codec Format Spec.

Lemma slice_drop {A} (l : list A) (n a b : nat) :
  slice (n + a) (n + b) l = slice a b (drop n l).
Proof.
  unfold slice. rewrite drop_drop. f_equal. lia.
Qed.

Lemma slice_app_le {A} (l extra : list A) (a b : nat) :
  (b <= length l)%nat -> slice a b (l ++ extra) = slice a b l.
Proof.
  intros Hb. unfold slice.
  destruct (decide (a <= length l)%nat) as [Ha|Ha].
  - rewrite drop_app_le by done. rewrite take_app_le; [done|].
    rewrite length_drop. lia.
  - by replace (b - a)%nat with 0%nat by lia.
Qed.

(** The archive that [create_archive] writes for entries the container
    can carry, and what [read_archive] makes of it. *)
Lemma read_archive_create (entries : list FileEntry) :
  Forall entry_ok entries ->
  Z.of_nat (length entries) < 2 ^ 32 ->
  exists archive,
    create_archive entries = Some archive /\
    read_archive archive = Some entries.
Proof.
  intros Hok Hcount.
  destruct (write_entries_ok entries Hok) as [body Hbody].
  unfold create_archive.
  change (header_serialize new_header)
    with (Some ([x4c; x5a; x48; x41; x01; x00] ++ replicate 10 x00)).
  cbn [mbind option_bind].
  change (2 ^ 32) with 4294967296 in Hcount.
  rewrite pack_Some by (simpl; lia). cbn [mbind option_bind].
  rewrite Hbody. cbn [mbind option_bind].
  eexists. split; [reflexivity|].
  set (h := [x4c; x5a; x48; x41; x01; x00] ++ replicate 10 x00).
  set (n := le_bytes 4 (Z.of_nat (length entries))).
  assert (Ln : length n = 4%nat) by apply length_le_bytes.
  assert (Lh : length h = 16%nat) by reflexivity.
  unfold read_archive.
  rewrite decide_False by (rewrite !length_app; lia).
  assert (S1 : slice 0 (0 + 16) (h ++ n ++ body) = h).
  { by apply (slice_middle _ [] h (n ++ body)). }
  rewrite S1.
  change (header_deserialize h) with (Some new_header).
  cbn [mbind option_bind].
  rewrite decide_False by (rewrite !length_app; lia).
  assert (S2 : slice (0 + 16) (0 + 16 + 4) (h ++ n ++ body) = n).
  { apply (slice_middle _ h n body); [done|done|lia]. }
  rewrite S2. unfold n at 1. rewrite unpack_le_bytes.
  rewrite Z.mod_small by (simpl; lia). rewrite Nat2Z.id.
  replace (h ++ n ++ body) with ((h ++ n) ++ body) by (by rewrite <- app_assoc).
  replace (0 + 16 + 4)%nat with (length (h ++ n)) by (rewrite length_app; lia).
  by rewrite (read_entries_write entries body (h ++ n) [] Hok Hbody).
Qed.

Lemma unpack_range (bs : bytes) :
  0 <= unpack bs < 256 ^ Z.of_nat (length bs).
Proof.
  induction bs as [|b bs IH]; [simpl; lia|].
  cbn [unpack length]. rewrite Nat2Z.inj_succ, Z.pow_succ_r by lia.
  pose proof (byte_val_range b). lia.
Qed.

Lemma length_slice {A} (l : list A) (a b : nat) :
  (b <= length l)%nat -> length (slice a b l) = (b - a)%nat.
Proof.
  intros Hb. unfold slice. rewrite length_take, length_drop. lia.
Qed.

(** What [_read_entry] guarantees about an entry it returns. *)
Lemma read_entry_consistent (data : bytes) (pos new_pos : nat)
    (e : FileEntry) :
  _read_entry data pos = Some (e, new_pos) ->
  compressed_size e = Z.of_nat (length (compressed_data e)) /\
  0 <= original_size e < 2 ^ 64 /\
  0 <= compressed_size e < 2 ^ 64 /\
  0 <= crc32 e < 2 ^ 32 /\
  (pos + 22 <= new_pos <= length data)%nat.
Proof.
  unfold _read_entry.
  case_decide as H1; [done|].
  case_decide as H2; [done|].
  destruct (utf8_decode _) as [fn|]; [|done]. cbn [mbind option_bind].
  case_decide as H3; [done|].
  case_decide as H4; [done|].
  intros [= <- <-]. cbn [compressed_size compressed_data original_size crc32].
  set (fl := Z.to_nat (unpack (slice pos (pos + 2) data))) in *.
  set (p := (pos + 2 + fl)%nat) in *.
  pose proof (unpack_range (slice p (p + 8) data)) as Ho.
  pose proof (unpack_range (slice (p + 8) (p + 8 + 8) data)) as Hc.
  pose proof (unpack_range (slice (p + 8 + 8) (p + 8 + 8 + 4) data)) as Hk.
  rewrite length_slice in Ho, Hc by lia.
  rewrite length_slice in Hk by lia.
  replace (p + 8 - p)%nat with 8%nat in Ho by lia.
  replace (p + 8 + 8 - (p + 8))%nat with 8%nat in Hc by lia.
  replace (p + 8 + 8 + 4 - (p + 8 + 8))%nat with 4%nat in Hk by lia.
  change (256 ^ Z.of_nat 8) with (2 ^ 64) in *.
  change (256 ^ Z.of_nat 4) with (2 ^ 32) in *.
  set (cs := unpack (slice (p + 8) (p + 8 + 8) data)) in *.
  rewrite length_slice by lia.
  repeat split; try lia.
Qed.

Lemma read_entry_app (data extra : bytes) (pos : nat) r :
  _read_entry data pos = Some r ->
  _read_entry (data ++ extra) pos = Some r.
Proof.
  unfold _read_entry. rewrite length_app.
  case_decide as H1; [done|].
  rewrite (decide_False (P := (length data + length extra < pos + 2)%nat))
    by lia.
  rewrite (slice_app_le data extra pos (pos + 2)) by lia.
  set (fl := Z.to_nat (unpack (slice pos (pos + 2) data))) in *.
  case_decide as H2; [done|].
  rewrite (decide_False
             (P := (length data + length extra < pos + 2 + fl)%nat)) by lia.
  rewrite (slice_app_le data extra (pos + 2) (pos + 2 + fl)) by lia.
  destruct (utf8_decode _) as [fn|]; [|done]. cbn [mbind option_bind].
  set (p := (pos + 2 + fl)%nat) in *.
  case_decide as H3; [done|].
  rewrite (decide_False (P := (length data + length extra < p + 16)%nat))
    by lia.
  rewrite (slice_app_le data extra p (p + 8)) by lia.
  rewrite (slice_app_le data extra (p + 8) (p + 8 + 8)) by lia.
  pose proof (unpack_range (slice (p + 8) (p + 8 + 8) data)) as Hc.
  set (cs := unpack (slice (p + 8) (p + 8 + 8) data)) in *.
  case_decide as H4; [done|].
  rewrite (slice_app_le data extra (p + 8 + 8) (p + 8 + 8 + 4)) by lia.
  rewrite (decide_False
             (P := Z.of_nat (length data + length extra) <
                   Z.of_nat (p + 8 + 8 + 4) + cs)) by lia.
  rewrite (slice_app_le data extra) by lia.
  done.
Qed.

Lemma read_entries_app (count : nat) :
  forall (data extra : bytes) (pos : nat) (acc es : list FileEntry),
  read_entries count data pos acc = Some es ->
  read_entries count (data ++ extra) pos acc = Some es.
Proof.
  induction count as [|count IH]; intros data extra pos acc es; [done|].
  cbn [read_entries].
  destruct (_read_entry data pos) as [[e p]|] eqn:E; [|done].
  rewrite (read_entry_app _ extra _ _ E). cbn [mbind option_bind].
  apply IH.
Qed.

Lemma read_entry_drop (data : bytes) (n pos : nat) :
  _read_entry data (n + pos) =
  (fun '(e, p) => (e, (n + p)%nat)) <$> _read_entry (drop n data) pos.
Proof.
  unfold _read_entry. rewrite length_drop.
  rewrite <- !Nat.add_assoc.
  rewrite !slice_drop.
  set (fl := Z.to_nat (unpack (slice pos (pos + 2) (drop n data)))).
  destruct (decide (length data < n + (pos + 2))%nat);
    destruct (decide (length data - n < pos + 2)%nat); try lia; [done|].
  destruct (decide (length data < n + (pos + (2 + fl)))%nat);
    destruct (decide (length data - n < pos + (2 + fl))%nat);
    try lia; [done|].
  destruct (utf8_decode _) as [fn|]; [|done]. cbn [mbind option_bind].
  destruct (decide (length data < n + (pos + (2 + (fl + 16))))%nat);
    destruct (decide (length data - n < pos + (2 + (fl + 16)))%nat);
    try lia; [done|].
  rewrite !Nat2Z.inj_add, !Nat2Z.inj_sub by lia.
  set (cs := unpack (slice 8 (8 + 8)
                       (drop fl (drop 2 (drop pos (drop n data)))))).
  repeat case_decide; try lia; [done|].
  cbn [fmap option_fmap option_map]. do 2 f_equal.
Qed.

Lemma read_entries_drop (count : nat) :
  forall (data : bytes) (n pos : nat) (acc : list FileEntry),
  read_entries count data (n + pos) acc =
  read_entries count (drop n data) pos acc.
Proof.
  induction count as [|count IH]; intros data n pos acc; [done|].
  cbn [read_entries]. rewrite read_entry_drop.
  destruct (_read_entry (drop n data) pos) as [[e p]|]; [|done].
  cbn [fmap option_fmap option_map mbind option_bind]. apply IH.
Qed.

Lemma read_entries_consistent (count : nat) :
  forall (data : bytes) (pos : nat) (acc es : list FileEntry)
         (P : FileEntry -> Prop),
  (forall p q e, _read_entry data p = Some (e, q) -> P e) ->
  Forall P acc ->
  read_entries count data pos acc = Some es ->
  Forall P es /\ length es = (length acc + count)%nat.
Proof.
  induction count as [|count IH]; intros data pos acc es P HP Hacc.
  - intros [= <-]. split; [done|lia].
  - cbn [read_entries].
    destruct (_read_entry data pos) as [[e p]|] eqn:E; [|done].
    cbn [mbind option_bind]. intros H.
    apply (IH _ _ _ _ P HP) in H as [H1 H2].
    + split; [done|]. rewrite length_app in H2. simpl in H2. lia.
    + apply Forall_app. split; [done|]. constructor; [|done].
      by apply (HP pos p).
Qed.

(** When the 16-byte header is accepted. *)
Lemma header_deserialize_accepts (h : bytes) :
  is_Some (header_deserialize h) <->
  (16 <= length h)%nat /\ take 4 h = ARCHIVE_MAGIC /\ h !! 4%nat = Some x01.
Proof.
  unfold header_deserialize.
  change (slice 0 (0 + 4) h) with (take 4 (drop 0 h)). rewrite drop_0.
  change (0 + 4)%nat with 4%nat.
  case_decide as H1.
  { split; [by intros [? ?]|]. intros (? & _). lia. }
  case_decide as H2.
  { split; [by intros [? ?]|]. by intros (_ & ? & _). }
  destruct (h !! 4%nat) as [v|] eqn:Ev; cbn [fmap option_fmap option_map
    mbind option_bind].
  2:{ split; [by intros [? ?]|]. by intros (_ & _ & ?). }
  unfold ARCHIVE_VERSION. case_decide as H3.
  - split; [by intros [? ?]|]. intros (_ & _ & [= ->]).
    exfalso. by apply H3.
  - split; [|done]. intros _. split; [lia|]. split; [done|].
    f_equal. apply byte_val_inj.
    destruct (decide (byte_val v = 1)) as [->|]; done.
Qed.

Lemma write_entry_length (e : FileEntry) (eb : bytes) :
  _write_entry e = Some eb ->
  length eb =
    (22 + length (default [] (utf8_encode (filename e))) +
     length (compressed_data e))%nat.
Proof.
  unfold _write_entry.
  destruct (utf8_encode (filename e)) as [fb|]; [|done].
  cbn [mbind option_bind default]. unfold pack.
  repeat case_decide; try done. cbn [mbind option_bind].
  intros Heq%(inj Some). subst eb. unfold id.
  rewrite !length_app, !length_le_bytes. lia.
Qed.
End ContainerMore.

(* ===================================================================== *)
(** ** The archiver pipeline *)
(* ===================================================================== *)

Section ArchiverPipeline.
Import Py Codec Compressor CompressionStats Huffman Format Archiver Spec.

Lemma stats_nonneg (ts : list Token) (n : Z) :
  Forall token_ok ts ->
  0 <= literal_count (CompressionStats.init ts n) /\ 0 <= match_count (CompressionStats.init ts n) /\
  3 * match_count (CompressionStats.init ts n) <= total_match_length (CompressionStats.init ts n).
Proof.
  induction 1 as [|t ts Ht _ IH].
  - change (literal_count (CompressionStats.init [] n)) with 0.
    change (match_count (CompressionStats.init [] n)) with 0.
    change (total_match_length (CompressionStats.init [] n)) with 0. lia.
  - destruct (stats_cons t ts n n) as (Hl & Hm & Hc).
    rewrite Hl, Hm, Hc.
    destruct t as [lit|len dist];
      cbn [is_literal is_match token_length token_ok] in *; lia.
Qed.

(** The token stream of a buffer is at most twice as long as the
    buffer. *)
Lemma compress_with_size (m : MatchFinder) (data : bytes) :
  exists e,
    encode_tokens (compress_with m data).1 = Some e /\
    decode_tokens e = (compress_with m data).1 /\
    Z.of_nat (length e) <= 2 * Z.of_nat (length data).
Proof.
  destruct (compress_with_spec m data) as [Hd Hok].
  destruct (encode_tokens_ok _ Hok) as [e He].
  exists e. split; [done|]. split; [by apply decode_encode_tokens|].
  rewrite (encode_tokens_size _ _ (Z.of_nat (length data)) He).
  pose proof (stats_nonneg _ (Z.of_nat (length data)) Hok) as (H1 & H2 & H3).
  pose proof (decompress_from_length _ [] data (Z.of_nat (length data))
                (token_ok_length _ Hok) Hd) as H.
  cbn [length] in H.
  change (estimated_compressed
            (CompressionStats.init (compress_with m data).1 (Z.of_nat (length data))))
    with (literal_count
            (CompressionStats.init (compress_with m data).1 (Z.of_nat (length data))) * 2 +
          match_count
            (CompressionStats.init (compress_with m data).1 (Z.of_nat (length data))) * 4).
  lia.
Qed.

Lemma calculate_crc32_range (data : bytes) :
  0 <= calculate_crc32 data < 2 ^ 32.
Proof.
  unfold calculate_crc32. change 4294967295 with (Z.ones 32).
  rewrite Z.land_ones by lia. apply Z.mod_pos_bound. lia.
Qed.

Lemma verify_integrity_own (e : FileEntry) (data : bytes) :
  original_size e = Z.of_nat (length data) ->
  crc32 e = calculate_crc32 data ->
  verify_integrity e data = true.
Proof.
  intros Ho Hk. unfold verify_integrity.
  rewrite decide_False by lia. by rewrite bool_decide_eq_true.
Qed.

(** What [compress_file] returns for a file the archiver can store, and
    what any archiver with the same flag makes of the entry. *)
Lemma compress_file_spec (self : t) (filename : ustr) (data : bytes) :
  file_ok (filename, data) ->
  exists entry self',
    compress_file self filename data = Some (entry, self') /\
    use_huffman self' = use_huffman self /\
    Format.filename entry = filename /\
    original_size entry = Z.of_nat (length data) /\
    crc32 entry = calculate_crc32 data /\
    entry_ok entry /\
    forall other, use_huffman other = use_huffman self ->
      decompress_file other entry = Some (Some data).
Proof.
  intros [(fb & Hfb & Hfl) Hlen]. cbn [fst snd] in *.
  change (2 ^ 26) with 67108864 in Hlen.
  unfold compress_file.
  destruct (compress_with (compressor self) data) as [tokens m'] eqn:Ec.
  destruct (compress_with_size (compressor self) data)
    as (lz & Hlz & Hdec & Hsz).
  destruct (compress_with_spec (compressor self) data) as [Hd _].
  rewrite Ec in Hlz, Hdec, Hd. cbn [fst] in Hlz, Hdec, Hd.
  rewrite Hlz. cbn [mbind option_bind].
  destruct (use_huffman self) eqn:Eh.
  - destruct (compress_with_huffman_spec lz) as (td & ed & Henc & Hdd & Ht & He & Hblob).
    { change (2 ^ 27) with 134217728. lia. }
    rewrite Hblob. cbn [mbind option_bind].
    eexists _, _. split; [reflexivity|].
    cbn [use_huffman Format.filename original_size crc32].
    do 4 (split; [done|]).
    split.
    + unfold entry_ok.
      cbn [Format.filename original_size crc32 compressed_size
           compressed_data].
      split; [done|]. split; [by exists fb|].
      pose proof (calculate_crc32_range data).
      destruct (encode_payload_length lz td ed Henc) as [Ltd Led].
      rewrite !length_app, !length_le_bytes.
      change (2 ^ 64) with 18446744073709551616.
      repeat split; try lia; done.
    + intros other Ho. unfold decompress_file. rewrite Ho.
      cbn [compressed_data]. rewrite decompress_blob by done.
      rewrite Hdd. cbn [mbind option_bind]. rewrite Hdec, Hd.
      cbn [mbind option_bind].
      by rewrite verify_integrity_own.
  - cbn [mbind option_bind].
    eexists _, _. split; [reflexivity|].
    cbn [use_huffman Format.filename original_size crc32].
    do 4 (split; [done|]).
    split.
    + unfold entry_ok.
      cbn [Format.filename original_size crc32 compressed_size
           compressed_data].
      split; [done|]. split; [by exists fb|].
      pose proof (calculate_crc32_range data).
      change (2 ^ 64) with 18446744073709551616.
      repeat split; try lia; done.
    + intros other Ho. unfold decompress_file. rewrite Ho.
      cbn [compressed_data mbind option_bind]. rewrite Hdec, Hd.
      cbn [mbind option_bind].
      by rewrite verify_integrity_own.
Qed.

(** The entries [compress_files] appends for storable files. *)
Lemma compress_files_spec (files : list (ustr * bytes)) :
  forall (self : t) (acc : list FileEntry),
  Forall file_ok files ->
  exists entries self',
    compress_files self files acc = Some (acc ++ entries, self') /\
    use_huffman self' = use_huffman self /\
    Forall entry_ok entries /\
    Format.filename <$> entries = files.*1 /\
    forall other, use_huffman other = use_huffman self ->
      extract_entries other entries = Some files.
Proof.
  induction files as [|[name data] files IH]; intros self acc Hok.
  - exists [], self. rewrite app_nil_r. by repeat split.
  - inversion Hok as [|? ? Hf Hfs]; subst.
    destruct (compress_file_spec self name data Hf)
      as (entry & self1 & Hc & Hflag & Hname & _ & _ & Heok & Hdec).
    destruct (IH self1 (acc ++ [entry]) Hfs)
      as (es & self2 & Hcs & Hflag2 & Hes & Hnames & Hex).
    exists (entry :: es), self2.
    cbn [compress_files]. rewrite Hc. cbn [mbind option_bind].
    rewrite Hcs, <- app_assoc. split; [done|].
    split; [congruence|]. split; [by constructor|].
    split; [cbn [fmap list_fmap fst]; by rewrite Hname, Hnames|].
    intros other Ho. cbn [extract_entries].
    rewrite (Hdec other Ho). cbn [mbind option_bind].
    rewrite (Hex other) by congruence. cbn [mbind option_bind].
    by rewrite Hname.
Qed.
End ArchiverPipeline.

(* ===================================================================== *)
(** ** More on the range decoder and the match finder of the LZMA coder *)
(* ===================================================================== *)

Section LZMAMore.
Import Py Lzma Spec.

Lemma shift_code_fields (d : RangeDecoder.t) :
  RangeDecoder.data (RangeDecoder.shift_code d) = RangeDecoder.data d /\
  RangeDecoder.range (RangeDecoder.shift_code d) = RangeDecoder.range d /\
  (RangeDecoder.pos d <= RangeDecoder.pos (RangeDecoder.shift_code d)
     <= RangeDecoder.pos d + 1)%nat.
Proof.
  unfold RangeDecoder.shift_code, RangeDecoder._read_byte.
  destruct (_ !! _); cbn; repeat split; lia.
Qed.

Lemma range_shift (r : Z) :
  0 <= r < 2 ^ 24 -> Z.land (Z.shiftl r 8) 4294967295 = r * 256.
Proof.
  intros Hr. change 4294967295 with (Z.ones 32).
  rewrite Z.land_ones, Z.shiftl_mul_pow2 by lia.
  change (2 ^ 8) with 256. change (2 ^ 32) with 4294967296.
  change (2 ^ 24) with 16777216 in Hr.
  rewrite Z.mod_small by lia. done.
Qed.

(** The renormalization loop reads one byte per round and stops once
    the range has reached 2^24. *)
Lemma decoder_normalize_steps (fuel : nat) :
  forall (d : RangeDecoder.t) (k : nat),
  0 < RangeDecoder.range d < 2 ^ 32 ->
  2 ^ 24 <= RangeDecoder.range d * 256 ^ Z.of_nat k -> (k <= fuel)%nat ->
  exists d',
    RangeDecoder.normalize fuel d = Some d' /\
    decoder_ok d' /\
    RangeDecoder.data d' = RangeDecoder.data d /\
    (RangeDecoder.pos d <= RangeDecoder.pos d' <= RangeDecoder.pos d + k)%nat.
Proof.
  unfold decoder_ok.
  induction fuel as [|fuel IH]; intros d k Hr Hk Hf.
  - assert (k = 0%nat) as -> by lia. rewrite Z.mul_1_r in Hk.
    cbn [RangeDecoder.normalize]. change RangeDecoder.TOP_VALUE with (2 ^ 24).
    rewrite decide_False by lia. exists d. repeat split; lia.
  - cbn [RangeDecoder.normalize]. change RangeDecoder.TOP_VALUE with (2 ^ 24).
    case_decide as Hlt.
    2:{ exists d. repeat split; lia. }
    destruct k as [|k]; [rewrite Z.mul_1_r in Hk; lia|].
    destruct (shift_code_fields d) as (Hd1 & Hr1 & Hp1).
    generalize dependent (RangeDecoder.shift_code d). intros d1 Hd1 Hr1 Hp1.
    rewrite Hr1, range_shift by lia.
    destruct (IH {| RangeDecoder.data := RangeDecoder.data d1;
                    RangeDecoder.pos := RangeDecoder.pos d1;
                    RangeDecoder.low := RangeDecoder.low d1;
                    RangeDecoder.range := RangeDecoder.range d * 256;
                    RangeDecoder.code := RangeDecoder.code d1 |} k)
      as (d' & -> & Hok & Hdata & Hpos).
    + cbn [RangeDecoder.range]. change (2 ^ 24) with 16777216 in Hlt.
      change (2 ^ 32) with 4294967296. lia.
    + cbn [RangeDecoder.range].
      rewrite Nat2Z.inj_succ, Z.pow_succ_r in Hk by lia. lia.
    + lia.
    + cbn [RangeDecoder.data RangeDecoder.pos] in Hdata, Hpos.
      exists d'. split; [done|]. split; [done|]. split; [congruence|]. lia.
Qed.

Lemma decoder_normalize_two (d : RangeDecoder.t) :
  2 ^ 13 <= RangeDecoder.range d < 2 ^ 32 ->
  exists d',
    RangeDecoder.normalize RangeDecoder.normalize_fuel d = Some d' /\
    decoder_ok d' /\
    RangeDecoder.data d' = RangeDecoder.data d /\
    (RangeDecoder.pos d <= RangeDecoder.pos d' <= RangeDecoder.pos d + 2)%nat.
Proof.
  intros Hr. apply decoder_normalize_steps.
  - change (2 ^ 13) with 8192 in Hr. lia.
  - change (2 ^ 13) with 8192 in Hr. change (2 ^ 24) with 16777216.
    change (256 ^ Z.of_nat 2) with 65536. lia.
  - unfold RangeDecoder.normalize_fuel. lia.
Qed.

(** One decoded bit: the invariants that [decode_bit] keeps. *)
Lemma decode_bit_spec (model : Z) (d : RangeDecoder.t) :
  decoder_ok d -> 0 < model < 2048 ->
  exists bit new_model d',
    RangeDecoder.decode_bit model d = Some ((bit, new_model), d') /\
    (bit = 0 \/ bit = 1) /\ 0 < new_model < 2048 /\ decoder_ok d' /\
    RangeDecoder.data d' = RangeDecoder.data d /\
    (RangeDecoder.pos d <= RangeDecoder.pos d' <= RangeDecoder.pos d + 2)%nat.
Proof.
  intros Hd Hm. unfold decoder_ok in Hd. unfold RangeDecoder.decode_bit.
  set (rng := RangeDecoder.range d) in *.
  rewrite !Z.shiftr_div_pow2 by lia. change (2 ^ 11) with 2048.
  change (2 ^ 5) with 32.
  change RangeDecoder.BIT_MODEL_TOTAL with 2048.
  change (2 ^ 24) with 16777216 in Hd. change (2 ^ 32) with 4294967296 in Hd.
  assert (8192 <= rng / 2048) by lia.
  assert (8192 <= rng / 2048 * model < rng) by nia.
  assert (8192 <= rng - rng / 2048 * model) by nia.
  case_decide.
  - destruct (decoder_normalize_two
      {| RangeDecoder.data := RangeDecoder.data d;
         RangeDecoder.pos := RangeDecoder.pos d;
         RangeDecoder.low := RangeDecoder.low d;
         RangeDecoder.range := rng / 2048 * model;
         RangeDecoder.code := RangeDecoder.code d |})
      as (d' & -> & Hok & Hdata & Hpos).
    { cbn [RangeDecoder.range]. change (2 ^ 13) with 8192.
      change (2 ^ 32) with 4294967296. lia. }
    cbn [mbind option_bind]. eexists 0, _, d'. split; [done|].
    split; [by left|]. split; [lia|]. done.
  - destruct (decoder_normalize_two
      {| RangeDecoder.data := RangeDecoder.data d;
         RangeDecoder.pos := RangeDecoder.pos d;
         RangeDecoder.low := RangeDecoder.low d;
         RangeDecoder.range := rng - rng / 2048 * model;
         RangeDecoder.code := RangeDecoder.code d - rng / 2048 * model |})
      as (d' & -> & Hok & Hdata & Hpos).
    { cbn [RangeDecoder.range]. change (2 ^ 13) with 8192.
      change (2 ^ 32) with 4294967296. lia. }
    cbn [mbind option_bind]. eexists 1, _, d'. split; [done|].
    split; [by right|]. split; [lia|]. done.
Qed.

Lemma get2_set2_ne (t : list (list Z)) (i j j' v : Z) :
  0 <= i -> 0 <= j -> 0 <= j' -> j <> j' ->
  get2 (set2 t i j v) i j' = get2 t i j'.
Proof.
  intros Hi Hj Hj' Hne. unfold get2, set2, index.
  rewrite !decide_True by lia.
  rewrite list_lookup_alter. rewrite decide_True by done.
  destruct (t !! Z.to_nat i) as [row|]; [|done].
  cbn [fmap option_fmap option_map mbind option_bind].
  rewrite !decide_True by lia.
  apply list_lookup_insert_ne. lia.
Qed.

Lemma three_bits_length b0 b1 b2 :
  b0 = 0 \/ b0 = 1 -> b1 = 0 \/ b1 = 1 -> b2 = 0 \/ b2 = 1 ->
  0 <= Z.lor (Z.lor (Z.lor 0 (Z.shiftl b0 (0 + 0)))
                (Z.shiftl b1 (0 + 1 + 0))) (Z.shiftl b2 (0 + 1 + 1 + 0)) < 8.
Proof. intros [-> | ->] [-> | ->] [-> | ->]; split; by vm_compute. Qed.

Lemma decode_length_range ps s len s' :
  _decode_length ps s = Some (len, s') -> 3 <= len <= 10.
Proof.
  unfold _decode_length, bind. cbn [decode_bits_lsb]. unfold bind, ret.
  destruct (decode_with _ s) as [[b0 s0]|] eqn:E0; [|done].
  destruct (decode_with _ s0) as [[b1 s1]|] eqn:E1; [|done].
  destruct (decode_with _ s1) as [[b2 s2]|] eqn:E2; [|done].
  apply decode_with_is_bit in E0, E1, E2.
  pose proof (three_bits_length b0 b1 b2 E0 E1 E2) as Hs.
  rewrite decide_True by lia. intros [= <- _]. unfold MIN_MATCH. lia.
Qed.

Lemma decode_length_total (c : LZMACompressor) (d : RangeDecoder.t) ps :
  decoder_ok d -> 0 <= ps -> len_low_ok c ps ->
  is_Some (_decode_length ps (c, d)).
Proof.
  intros Hd Hps Hc.
  destruct (Hc 0 ltac:(lia)) as (m0 & Hm0 & Hr0).
  destruct (Hc 1 ltac:(lia)) as (m1 & Hm1 & Hr1).
  destruct (Hc 2 ltac:(lia)) as (m2 & Hm2 & Hr2).
  change (Z.shiftl 1 0) with 1 in Hm0.
  change (Z.shiftl 1 1) with 2 in Hm1.
  change (Z.shiftl 1 2) with 4 in Hm2.
  destruct (decode_bit_spec m0 d Hd Hr0)
    as (b0 & nm0 & d0 & E0 & Hb0 & _ & Hd0 & _).
  destruct (decode_bit_spec m1 d0 Hd0 Hr1)
    as (b1 & nm1 & d1 & E1 & Hb1 & _ & Hd1 & _).
  destruct (decode_bit_spec m2 d1 Hd1 Hr2)
    as (b2 & nm2 & d2 & E2 & Hb2 & _ & Hd2 & _).
  unfold _decode_length, bind. cbn [decode_bits_lsb]. unfold bind, ret.
  change (Z.shiftl 1 0) with 1. change (Z.shiftl 1 (0 + 1)) with 2.
  change (Z.shiftl 1 (0 + 1 + 1)) with 4.
  unfold decode_with at 1. cbn [rd wr len_low_at].
  rewrite Hm0. cbn [mbind option_bind]. rewrite E0. cbn [mbind option_bind].
  unfold decode_with at 1. cbn [rd wr len_low_at len_low].
  rewrite get2_set2_ne by lia.
  rewrite Hm1. cbn [mbind option_bind]. rewrite E1. cbn [mbind option_bind].
  unfold decode_with at 1. cbn [rd wr len_low_at len_low].
  rewrite !get2_set2_ne by lia.
  rewrite Hm2. cbn [mbind option_bind]. rewrite E2. cbn [mbind option_bind].
  pose proof (three_bits_length b0 b1 b2 Hb0 Hb1 Hb2) as Hs.
  by rewrite decide_True by lia.
Qed.
End LZMAMore.

(* ===================================================================== *)
(** ** Further properties of huffman.py *)
(* ===================================================================== *)

Section HuffmanProperties.
Import Py Huffman Spec.

(** X1. [HuffmanTree.build] on the byte counts of a non-empty buffer
    returns, and the table it leaves in [codes] has exactly one entry
    per byte value of the buffer, is prefix-free, uses codes of 1 to 255
    characters [0]/[1], and [decode_table] is its inverse. *)
Theorem huffman_build_table (data : bytes) :
  data <> [] ->
  exists tree,
    build empty_tree (Counter data) = Some tree /\
    NoDup (tree.(codes).*1) /\
    (forall k, k ∈ tree.(codes).*1 <-> exists b, b ∈ data /\ k = byte_val b) /\
    (forall c1 code1 c2 code2,
       (c1, code1) ∈ tree.(codes) -> (c2, code2) ∈ tree.(codes) ->
       code1 `prefix_of` code2 -> c1 = c2) /\
    Forall (fun e => (1 <= length e.2 <= 255)%nat /\ Forall is_bit_char e.2)
      tree.(codes) /\
    tree.(decode_table) = (fun e => (e.2, e.1)) <$> tree.(codes).
Proof.
  intros Hne. destruct (build_spec data Hne) as (tree & Hb & Hok).
  exists tree. split; [done|]. exact Hok.
Qed.

Lemma huffman_build_table_witness :
  exists tree,
    build empty_tree (Counter [x61; x62; x61; x63]) = Some tree /\
    NoDup (tree.(codes).*1) /\
    (forall k, k ∈ tree.(codes).*1 <->
       exists b, b ∈ [x61; x62; x61; x63] /\ k = byte_val b) /\
    (forall c1 code1 c2 code2,
       (c1, code1) ∈ tree.(codes) -> (c2, code2) ∈ tree.(codes) ->
       code1 `prefix_of` code2 -> c1 = c2) /\
    Forall (fun e => (1 <= length e.2 <= 255)%nat /\ Forall is_bit_char e.2)
      tree.(codes) /\
    tree.(decode_table) = (fun e => (e.2, e.1)) <$> tree.(codes).
Proof.
  apply (huffman_build_table [x61; x62; x61; x63]). discriminate.
Defined.

(** X2. The code table of a non-empty buffer survives
    [serialize]/[deserialize]: the bytes written, at most 65794 of them,
    are read back into the same [codes] and [decode_table]. *)
Theorem huffman_table_roundtrip (data : bytes) :
  data <> [] ->
  exists tree tree_data tree',
    build empty_tree (Counter data) = Some tree /\
    serialize tree = Some tree_data /\
    Z.of_nat (length tree_data) <= 65794 /\
    deserialize tree_data = Some tree' /\
    tree'.(codes) = tree.(codes) /\
    tree'.(decode_table) = tree.(decode_table).
Proof.
  intros Hne. destruct (build_spec data Hne) as (tree & Hb & Hok).
  destruct (deserialize_serialize data tree Hne Hok)
    as (td & tree' & Hser & Hlen & Hdes & Htab & Hcodes).
  by exists tree, td, tree'.
Qed.

Lemma huffman_table_roundtrip_witness :
  exists tree tree_data tree',
    build empty_tree (Counter [x61; x62; x61; x63]) = Some tree /\
    serialize tree = Some tree_data /\
    Z.of_nat (length tree_data) <= 65794 /\
    deserialize tree_data = Some tree' /\
    tree'.(codes) = tree.(codes) /\
    tree'.(decode_table) = tree.(decode_table).
Proof.
  apply (huffman_table_roundtrip [x61; x62; x61; x63]). discriminate.
Defined.

(** X3. [BitStream.to_bytes] never fails; it writes one padding byte
    and one byte per started group of eight bits, and
    [BitStream.from_bytes] reads back exactly the bits written. *)
Theorem bitstream_roundtrip (bits : BitStream) :
  exists encoded,
    to_bytes bits = Some encoded /\
    length encoded = S ((length bits + 7) / 8) /\
    from_bytes encoded = bits.
Proof.
  apply to_bytes_exact.
Qed.

(** X4. [HuffmanEncoder.decode] inverts [HuffmanEncoder.encode] on
    every buffer, the empty one included. *)
Theorem huffman_encode_decode (data : bytes) :
  exists tree_data encoded_data,
    encode data = Some (tree_data, encoded_data) /\
    decode tree_data encoded_data = Some data.
Proof. apply decode_encode. Qed.

(** X5. Whenever [compress_with_huffman] returns a blob,
    [decompress_with_huffman] maps the blob back to the input; and it
    does return for every input shorter than 2^27 bytes. *)
Theorem huffman_blob_roundtrip (data : bytes) :
  (forall blob, compress_with_huffman data = Some blob ->
                decompress_with_huffman blob = Some data) /\
  (Z.of_nat (length data) < 2 ^ 27 -> is_Some (compress_with_huffman data)).
Proof.
  split.
  - intros blob Hc.
    destruct (compress_with_huffman_inv data blob Hc)
      as (td & ed & Henc & Ht & He & ->).
    rewrite decompress_blob by done.
    destruct (decode_encode data) as (td' & ed' & Henc' & Hdec).
    rewrite Henc in Henc'. by injection Henc' as <- <-.
  - intros Hlen.
    destruct (compress_with_huffman_spec data Hlen)
      as (td & ed & _ & _ & _ & _ & ->). done.
Qed.

Lemma huffman_blob_roundtrip_witness :
  compress_with_huffman [x61; x62; x61] =
    Some [x08; x00; x00; x00;
          x02; x00; x62; x01; x30; x61; x01; x31;
          x02; x00; x00; x00;
          x05; xa0] /\
  decompress_with_huffman
    [x08; x00; x00; x00;
     x02; x00; x62; x01; x30; x61; x01; x31;
     x02; x00; x00; x00;
     x05; xa0] = Some [x61; x62; x61] /\
  is_Some (compress_with_huffman [x61; x62; x61]).
Proof.
  assert (Hc : compress_with_huffman [x61; x62; x61] =
    Some [x08; x00; x00; x00;
          x02; x00; x62; x01; x30; x61; x01; x31;
          x02; x00; x00; x00;
          x05; xa0]) by (vm_compute; reflexivity).
  split; [exact Hc|]. split.
  - exact (proj1 (huffman_blob_roundtrip [x61; x62; x61]) _ Hc).
  - apply (proj2 (huffman_blob_roundtrip [x61; x62; x61])). simpl. lia.
Defined.

(** X6. A Huffman blob cut short anywhere is not reported as damaged:
    [decompress_with_huffman] returns the empty buffer for every proper
    prefix of a blob that [compress_with_huffman] produced. *)
Theorem huffman_truncated_blob_reads_empty (data blob : bytes) (n : nat) :
  compress_with_huffman data = Some blob ->
  (n < length blob)%nat ->
  decompress_with_huffman (take n blob) = Some [].
Proof.
  intros Hc Hn.
  destruct (compress_with_huffman_inv data blob Hc)
    as (td & ed & _ & Ht & He & ->).
  apply decompress_blob_prefix; [done|done|].
  rewrite !length_app, !length_le_bytes in Hn. lia.
Qed.

Lemma huffman_truncated_blob_reads_empty_witness :
  decompress_with_huffman
    (take 17
       [x08; x00; x00; x00;
        x02; x00; x62; x01; x30; x61; x01; x31;
        x02; x00; x00; x00;
        x05; xa0]) = Some [].
Proof.
  apply (huffman_truncated_blob_reads_empty [x61; x62; x61]).
  - vm_compute. reflexivity.
  - simpl. lia.
Defined.

(** X29. The one-symbol case of [HuffmanTree.build]: a buffer that
    repeats a single byte value gets the table with the one code [0],
    serialized in five bytes, and a payload of one bit per input byte
    after the padding byte. *)
Theorem huffman_single_symbol (b : byte) (n : nat) :
  exists encoded_data,
    encode (replicate (S n) b) =
      Some ([x01; x00; b; x01; x30], encoded_data) /\
    length encoded_data = S ((S n + 7) / 8) /\
    from_bytes encoded_data = replicate (S n) false.
Proof. apply encode_single_symbol. Qed.
End HuffmanProperties.

(* ===================================================================== *)
(** ** Further properties of compressor.py *)
(* ===================================================================== *)

Section LZ77Properties.
Import Py Compressor CompressionStats Spec.

(** X7. Whatever the hash chains hold, a match that
    [MatchFinder.find_best_match] returns is a real one: its length is
    between 3 and 258, its distance is at least 1 and stays inside the
    window, it ends inside the buffer, and the bytes at the distance are
    the bytes at the position. *)
Theorem find_best_match_sound (m : MatchFinder) (pos window_start : nat)
    (len dist : nat) :
  find_best_match m pos window_start = Some (len, dist) ->
  (3 <= len <= 258)%nat /\ (1 <= dist <= pos)%nat /\
  (window_start <= pos - dist)%nat /\ (pos + len <= length m.(data))%nat /\
  forall k, (k < len)%nat ->
    m.(data) !! (pos - dist + k)%nat = m.(data) !! (pos + k)%nat.
Proof. apply find_best_match_spec. Qed.

Lemma find_best_match_sound_witness :
  find_best_match
    (update {| hash_chains := []; data := [] |}
       [x61; x62; x63; x61; x62; x63]) 3 0 = Some (3, 3)%nat /\
  (3 <= 3 <= 258)%nat /\ (1 <= 3 <= 3)%nat /\
  (0 <= 3 - 3)%nat /\
  (3 + 3 <= length (update {| hash_chains := []; data := [] |}
                      [x61; x62; x63; x61; x62; x63]).(data))%nat /\
  forall k, (k < 3)%nat ->
    (update {| hash_chains := []; data := [] |}
       [x61; x62; x63; x61; x62; x63]).(data) !! (3 - 3 + k)%nat =
    (update {| hash_chains := []; data := [] |}
       [x61; x62; x63; x61; x62; x63]).(data) !! (3 + k)%nat.
Proof.
  assert (H : find_best_match
    (update {| hash_chains := []; data := [] |}
       [x61; x62; x63; x61; x62; x63]) 3 0 = Some (3, 3)%nat)
    by (vm_compute; reflexivity).
  split; [exact H|].
  exact (find_best_match_sound _ _ _ _ _ H).
Defined.

(** X8. [LZ77Compressor.compress] may be called on a compressor that
    has compressed other buffers before, as [Archiver] does: whatever
    the matcher still holds, the tokens it returns decompress to the
    buffer, and every token is one the serializer accepts.  A fresh
    compressor is the case of an empty matcher. *)
Theorem lz77_reused_compressor_roundtrip (m : MatchFinder) (data : bytes) :
  decompress (compress_with m data).1 = Some data /\
  Forall token_ok (compress_with m data).1 /\
  compress data = (compress_with {| hash_chains := []; data := [] |} data).1.
Proof.
  destruct (compress_with_spec m data) as [H1 H2].
  split; [done|]. split; [done|]. by destruct data.
Qed.

(** X9. Tokens with a literal below 256, a length of 3 to 258 and a
    distance of at most 32768 are always accepted by
    [TokenEncoder.encode_tokens], and [decode_tokens] returns the same
    token list from the bytes. *)
Theorem token_stream_roundtrip (tokens : list Token) :
  Forall token_ok tokens ->
  exists encoded,
    encode_tokens tokens = Some encoded /\ decode_tokens encoded = tokens.
Proof.
  intros Hok. destruct (encode_tokens_ok tokens Hok) as [e He].
  exists e. split; [done|]. by apply decode_encode_tokens.
Qed.

Lemma token_stream_roundtrip_witness :
  exists encoded,
    encode_tokens [LITERAL 65; MATCH 258 32768; LITERAL 255] =
      Some encoded /\
    decode_tokens encoded = [LITERAL 65; MATCH 258 32768; LITERAL 255].
Proof.
  apply token_stream_roundtrip.
  repeat constructor; simpl; lia.
Defined.

(** X10. [TokenEncoder.encode_tokens] raises exactly when some match
    token has a length outside 3..258 or a distance outside 0..32768;
    literal tokens never make it raise, since the literal is masked to
    one byte. *)
Theorem encode_tokens_accepts (tokens : list Token) :
  is_Some (encode_tokens tokens) <->
  Forall (fun t => match t with
                   | LITERAL _ => True
                   | MATCH len dist => 3 <= len <= 258 /\ 0 <= dist <= 32768
                   end) tokens.
Proof.
  induction tokens as [|t ts IH]; cbn [encode_tokens].
  - split; [constructor|done].
  - assert (Ht : is_Some (encode_token t) <->
                 match t with
                 | LITERAL _ => True
                 | MATCH len dist => 3 <= len <= 258 /\ 0 <= dist <= 32768
                 end).
    { destruct t as [lit|len dist]; cbn [encode_token].
      - assert (0 <= Z.land lit 255 < 256) as Hl.
        { change 255 with (Z.ones 8). rewrite Z.land_ones by lia.
          apply (Z.mod_pos_bound lit (2 ^ 8)). lia. }
        rewrite !pack_Some by (simpl; lia). done.
      - unfold MAX_MATCH, WINDOW_SIZE, MIN_MATCH, pack.
        change (256 ^ Z.of_nat 1) with 256.
        change (256 ^ Z.of_nat 2) with 65536.
        repeat case_decide; cbn [mbind option_bind];
          (split; [intros [? ?]; try done; lia|intros ?; try done; lia]). }
    split.
    + intros [e He].
      destruct (encode_token t) as [et|]; [|done].
      destruct (encode_tokens ts) as [er|]; [|done].
      constructor; [apply Ht; done|apply IH; done].
    + intros H. inversion H as [|? ? H1 H2]; subst.
      apply Ht in H1 as [et ->]. apply IH in H2 as [er ->]. done.
Qed.

Lemma encode_tokens_accepts_witness :
  is_Some (encode_tokens [LITERAL 300; MATCH 258 32768]) /\
  ~ is_Some (encode_tokens [LITERAL 65; MATCH 259 1]).
Proof.
  split.
  - apply encode_tokens_accepts. constructor; [done|].
    constructor; [lia|constructor].
  - intros H. apply encode_tokens_accepts in H.
    inversion H as [|? ? _ H']. inversion H' as [|? ? Hm _].
    cbn in Hm. lia.
Defined.

(** X11. A match token whose distance is zero or negative and whose
    length is positive makes [LZ77Compressor.decompress] raise, whatever
    has been decoded so far and whatever follows: the first byte is read
    at or past the end of the output. *)
Theorem match_nonpositive_distance_raises
    (output : bytes) (len dist : Z) (rest : list Token) :
  0 < len -> dist <= 0 ->
  decompress_from output (MATCH len dist :: rest) = None.
Proof.
  intros Hlen Hdist. cbn [decompress_from].
  destruct (Z.to_nat len) as [|n] eqn:E; [lia|].
  by rewrite copy_match_past_end by lia.
Qed.

Lemma match_nonpositive_distance_raises_witness :
  decompress_from [x41; x42] [MATCH 3 0; LITERAL 67] = None.
Proof.
  apply match_nonpositive_distance_raises; lia.
Defined.

(** X12. The size that [CompressionStats] calls estimated is exact:
    whenever [encode_tokens] returns, it returns two bytes per literal
    token and four per match token. *)
Theorem stats_estimate_is_encoded_size
    (tokens : list Token) (encoded : bytes) (original_size : Z) :
  encode_tokens tokens = Some encoded ->
  Z.of_nat (length encoded) =
    estimated_compressed (init tokens original_size).
Proof. apply encode_tokens_size. Qed.

Lemma stats_estimate_is_encoded_size_witness :
  encode_tokens [LITERAL 65; MATCH 10 1] =
    Some [x00; x41; x01; x07; x01; x00] /\
  Z.of_nat (length [x00; x41; x01; x07; x01; x00]) =
    estimated_compressed (init [LITERAL 65; MATCH 10 1] 11).
Proof.
  assert (H : encode_tokens [LITERAL 65; MATCH 10 1] =
                Some [x00; x41; x01; x07; x01; x00]) by reflexivity.
  split; [exact H|].
  exact (stats_estimate_is_encoded_size _ _ 11 H).
Defined.

(** X13. The tokens that [LZ77Compressor.compress] returns account for
    every input byte once: in their [CompressionStats], the number of
    literals plus the total match length is the length of the input. *)
Theorem stats_cover_input (m : MatchFinder) (data : bytes) :
  let stats := init (compress_with m data).1 (Z.of_nat (length data)) in
  literal_count stats + total_match_length stats = Z.of_nat (length data).
Proof.
  destruct (compress_with_spec m data) as [Hd Hok].
  apply token_ok_length in Hok.
  pose proof (decompress_from_length _ [] data (Z.of_nat (length data))
                Hok Hd) as H.
  cbn zeta. cbn [length] in H. lia.
Qed.

(** X14. [TokenEncoder.decode_tokens] does not reject a byte that is
    not a token tag: a leading byte other than 0 and 1 is skipped, and
    the rest is decoded as if the byte were not there. *)
Theorem decode_tokens_skips_unknown_tag (b : byte) (data : bytes) :
  byte_val b <> 0 -> byte_val b <> 1 ->
  decode_tokens (b :: data) = decode_tokens data.
Proof.
  intros H0 H1. unfold decode_tokens. cbn [length decode_loop].
  change ((b :: data) !! 0%nat) with (Some b). cbn iota.
  rewrite !decide_False by done.
  apply decode_loop_shift.
Qed.

Lemma decode_tokens_skips_unknown_tag_witness :
  decode_tokens [x07; x00; x41] = decode_tokens [x00; x41].
Proof.
  apply decode_tokens_skips_unknown_tag; by vm_compute.
Defined.

Lemma copy_match_in_range (n : nat) : forall (output : bytes) (dist : Z),
  1 <= dist <= Z.of_nat (length output) ->
  exists copied,
    copy_match n output (Z.of_nat (length output) - dist) =
      Some (output ++ copied) /\
    length copied = n.
Proof.
  induction n as [|n IH]; intros output dist Hd; cbn [copy_match].
  - exists []. by rewrite app_nil_r.
  - unfold index. rewrite decide_True by lia.
    destruct (lookup_lt_is_Some_2 output
                (Z.to_nat (Z.of_nat (length output) - dist)) ltac:(lia))
      as [b ->].
    cbn [mbind option_bind].
    destruct (IH (output ++ [b]) dist) as (copied & Hc & Hl).
    { rewrite length_app. cbn [length]. lia. }
    rewrite length_app in Hc. cbn [length] in Hc.
    replace (Z.of_nat (length output) - dist + 1)
      with (Z.of_nat (length output + 1) - dist) by lia.
    rewrite Hc. exists (b :: copied).
    split; [by rewrite <- app_assoc|]. cbn [length]. lia.
Qed.

(** X27. [LZ77Compressor.decompress] never raises on tokens that stay
    in range: if every literal is a byte value and every match has a
    distance between 1 and the number of bytes decoded before it, the
    whole list is decoded, and the output so far is only appended to. *)
Theorem decompress_in_range_returns (tokens : list Token) :
  forall output : bytes,
  tokens_in_range (Z.of_nat (length output)) tokens ->
  exists decoded, decompress_from output tokens = Some (output ++ decoded).
Proof.
  induction tokens as [|t ts IH]; intros output Hok.
  - exists []. by rewrite app_nil_r.
  - destruct t as [lit|len dist]; cbn [tokens_in_range decompress_from] in *.
    + destruct Hok as [Hlit Hrest].
      unfold mk_byte. rewrite decide_True by done. cbn [mbind option_bind].
      destruct (IH (output ++ [byte_of_Z lit])) as (dec & ->).
      { rewrite length_app. cbn [length].
        by replace (Z.of_nat (length output + 1))
          with (Z.of_nat (length output) + 1) by lia. }
      exists (byte_of_Z lit :: dec). by rewrite <- app_assoc.
    + destruct Hok as (Hlen & Hdist & Hrest).
      destruct (copy_match_in_range (Z.to_nat len) output dist Hdist)
        as (copied & -> & Hl).
      cbn [mbind option_bind].
      destruct (IH (output ++ copied)) as (dec & ->).
      { rewrite length_app, Hl.
        by replace (Z.of_nat (length output + Z.to_nat len))
          with (Z.of_nat (length output) + len) by lia. }
      exists (copied ++ dec). by rewrite <- app_assoc.
Qed.

Lemma decompress_in_range_returns_witness :
  exists decoded,
    decompress_from [x41] [LITERAL 66; MATCH 5 2; LITERAL 67] =
      Some ([x41] ++ decoded).
Proof.
  apply decompress_in_range_returns. simpl. lia.
Defined.
End LZ77Properties.

(* ===================================================================== *)
(** ** Further properties of format.py *)
(* ===================================================================== *)

Section ContainerProperties.
Import Py Codec Format Spec.

(** X15. [ArchiveFormat.read_archive] only returns for an input of at
    least 20 bytes that starts with the magic [LZHA] and carries the
    version byte 1; the list it returns has as many entries as the
    count field at offset 16 says. *)
Theorem read_archive_checks_header (data : bytes) (entries : list FileEntry) :
  read_archive data = Some entries ->
  (20 <= length data)%nat /\
  take 4 data = ARCHIVE_MAGIC /\
  data !! 4%nat = Some x01 /\
  Z.of_nat (length entries) = unpack (slice 16 20 data).
Proof.
  unfold read_archive.
  case_decide as H1; [done|].
  destruct (header_deserialize _) as [h|] eqn:Eh; [|done].
  cbn [mbind option_bind].
  case_decide as H2; [done|].
  intros Hr.
  assert (is_Some (header_deserialize (slice 0 (0 + 16) data))) as Hs
    by (by rewrite Eh).
  apply header_deserialize_accepts in Hs as (_ & Hm & Hv).
  change (slice 0 (0 + 16) data) with (take 16 (drop 0 data)) in Hm, Hv.
  rewrite drop_0 in Hm, Hv.
  rewrite take_take in Hm. change (4 `min` 16)%nat with 4%nat in Hm.
  rewrite lookup_take_lt in Hv by lia.
  apply (read_entries_consistent _ _ _ _ _ (fun _ => True)) in Hr
    as [_ Hlen]; [|done|done].
  pose proof (unpack_range (slice (0 + 16) (0 + 16 + 4) data)) as [Hu _].
  split; [lia|]. split; [done|]. split; [done|].
  change (slice 16 20 data) with (slice (0 + 16) (0 + 16 + 4) data).
  cbn [length] in Hlen. lia.
Qed.

Lemma read_archive_checks_header_witness :
  read_archive
    ([x4c; x5a; x48; x41; x01; x00] ++ replicate 10 x00 ++
     [x00; x00; x00; x00]) = Some [] /\
  (20 <= length ([x4c; x5a; x48; x41; x01; x00] ++ replicate 10 x00 ++
                 [x00; x00; x00; x00]))%nat /\
  take 4 ([x4c; x5a; x48; x41; x01; x00] ++ replicate 10 x00 ++
          [x00; x00; x00; x00]) = ARCHIVE_MAGIC /\
  ([x4c; x5a; x48; x41; x01; x00] ++ replicate 10 x00 ++
   [x00; x00; x00; x00]) !! 4%nat = Some x01 /\
  Z.of_nat (length (@nil FileEntry)) =
    unpack (slice 16 20 ([x4c; x5a; x48; x41; x01; x00] ++
                         replicate 10 x00 ++ [x00; x00; x00; x00])).
Proof.
  assert (H : read_archive
    ([x4c; x5a; x48; x41; x01; x00] ++ replicate 10 x00 ++
     [x00; x00; x00; x00]) = Some []) by reflexivity.
  split; [exact H|].
  exact (read_archive_checks_header _ _ H).
Defined.

(** X16. Bytes after the last entry are not looked at: if
    [read_archive] returns for an input, it returns the same entries for
    the input followed by anything. *)
Theorem read_archive_ignores_trailing_bytes
    (data extra : bytes) (entries : list FileEntry) :
  read_archive data = Some entries ->
  read_archive (data ++ extra) = Some entries.
Proof.
  unfold read_archive. rewrite length_app.
  case_decide as H1; [done|].
  rewrite (decide_False (P := (length data + length extra < 16)%nat)) by lia.
  rewrite (slice_app_le data extra 0 (0 + 16)) by lia.
  destruct (header_deserialize _) as [h|]; [|done].
  cbn [mbind option_bind].
  case_decide as H2; [done|].
  rewrite (decide_False (P := (length data + length extra < 0 + 16 + 4)%nat))
    by lia.
  rewrite (slice_app_le data extra (0 + 16) (0 + 16 + 4)) by lia.
  apply read_entries_app.
Qed.

Lemma read_archive_ignores_trailing_bytes_witness :
  read_archive
    (([x4c; x5a; x48; x41; x01; x00] ++ replicate 10 x00 ++
      [x00; x00; x00; x00]) ++ [xde; xad]) = Some [].
Proof.
  apply read_archive_ignores_trailing_bytes. reflexivity.
Defined.

(** X17. The eleven header bytes after the version, offsets 5 to 15,
    are not interpreted: replacing them by any other eleven bytes
    changes nothing in what [read_archive] returns or rejects. *)
Theorem read_archive_ignores_reserved_bytes (data filler : bytes) :
  (16 <= length data)%nat -> length filler = 11%nat ->
  read_archive (take 5 data ++ filler ++ drop 16 data) = read_archive data.
Proof.
  intros Hd Hf.
  set (data' := take 5 data ++ filler ++ drop 16 data).
  assert (Hlen : length data' = length data).
  { unfold data'. rewrite !length_app, length_take, length_drop. lia. }
  assert (Hdrop : drop 16 data' = drop 16 data).
  { unfold data'. rewrite app_assoc. apply drop_app_length'.
    rewrite length_app, length_take. lia. }
  assert (Hhead : is_Some (header_deserialize (slice 0 (0 + 16) data')) <->
                  is_Some (header_deserialize (slice 0 (0 + 16) data))).
  { rewrite !header_deserialize_accepts.
    change (slice 0 (0 + 16) data') with (take 16 (drop 0 data')).
    change (slice 0 (0 + 16) data) with (take 16 (drop 0 data)).
    rewrite !drop_0, !take_take, !length_take.
    change (4 `min` 16)%nat with 4%nat.
    rewrite !lookup_take_lt by lia.
    assert (take 4 data' = take 4 data) as ->.
    { unfold data'. rewrite take_app_le by (rewrite length_take; lia).
      rewrite take_take. done. }
    assert (data' !! 4%nat = data !! 4%nat) as ->.
    { unfold data'. rewrite lookup_app_l by (rewrite length_take; lia).
      by rewrite lookup_take_lt by lia. }
    rewrite Hlen. done. }
  unfold read_archive. rewrite Hlen.
  case_decide as H1; [done|].
  destruct (header_deserialize (slice 0 (0 + 16) data')) as [h'|] eqn:E1;
    destruct (header_deserialize (slice 0 (0 + 16) data)) as [h|] eqn:E2;
    cbn [mbind option_bind]; try done.
  - case_decide as H2; [done|].
    change (0 + 16 + 4)%nat with (16 + 4)%nat.
    change (0 + 16)%nat with (16 + 0)%nat.
    rewrite !slice_drop, !read_entries_drop. by rewrite Hdrop.
  - exfalso. destruct Hhead as [Hh _].
    destruct Hh as [? ?]; [done|done].
  - exfalso. destruct Hhead as [_ Hh].
    destruct Hh as [? ?]; [done|done].
Qed.

Lemma read_archive_ignores_reserved_bytes_witness :
  read_archive
    (take 5 ([x4c; x5a; x48; x41; x01; x00] ++ replicate 10 x00 ++
             [x00; x00; x00; x00]) ++
     replicate 11 xff ++
     drop 16 ([x4c; x5a; x48; x41; x01; x00] ++ replicate 10 x00 ++
              [x00; x00; x00; x00])) =
  read_archive ([x4c; x5a; x48; x41; x01; x00] ++ replicate 10 x00 ++
                [x00; x00; x00; x00]).
Proof.
  apply read_archive_ignores_reserved_bytes; [simpl; lia|reflexivity].
Defined.

(** X18. Every entry that [read_archive] returns is consistent: its
    [compressed_data] has exactly [compressed_size] bytes, both sizes are
    below 2^64 and the checksum is below 2^32. *)
Theorem read_archive_entries_consistent
    (data : bytes) (entries : list FileEntry) :
  read_archive data = Some entries ->
  Forall (fun e =>
            compressed_size e = Z.of_nat (length (compressed_data e)) /\
            0 <= original_size e < 2 ^ 64 /\
            0 <= compressed_size e < 2 ^ 64 /\
            0 <= crc32 e < 2 ^ 32) entries.
Proof.
  unfold read_archive.
  case_decide as H1; [done|].
  destruct (header_deserialize _) as [h|]; [|done].
  cbn [mbind option_bind].
  case_decide as H2; [done|].
  intros Hr.
  apply (read_entries_consistent _ _ _ _ _
           (fun e =>
              compressed_size e = Z.of_nat (length (compressed_data e)) /\
              0 <= original_size e < 2 ^ 64 /\
              0 <= compressed_size e < 2 ^ 64 /\
              0 <= crc32 e < 2 ^ 32)) in Hr as [Hall _]; [done| |done].
  intros p q e He.
  apply read_entry_consistent in He as (? & ? & ? & ? & _). done.
Qed.

Lemma read_archive_entries_consistent_witness :
  Forall (fun e =>
            compressed_size e = Z.of_nat (length (compressed_data e)) /\
            0 <= original_size e < 2 ^ 64 /\
            0 <= compressed_size e < 2 ^ 64 /\
            0 <= crc32 e < 2 ^ 32)
    [ {| filename := [116]; original_size := 7; compressed_size := 2;
         compressed_data := [xaa; xbb]; crc32 := 9 |} ].
Proof.
  apply (read_archive_entries_consistent
           ([x4c; x5a; x48; x41; x01; x00] ++ replicate 10 x00 ++
            [x01; x00; x00; x00] ++
            [x01; x00; x74] ++
            [x07; x00; x00; x00; x00; x00; x00; x00] ++
            [x02; x00; x00; x00; x00; x00; x00; x00] ++
            [x09; x00; x00; x00] ++ [xaa; xbb])).
  vm_compute. reflexivity.
Defined.

(** X19. The size of an archive: whenever [create_archive] returns, it
    returns 20 bytes of header and count, and for each entry 22 bytes of
    fixed fields, the UTF-8 bytes of the file name and the stored
    data. *)
Theorem archive_size (entries : list FileEntry) (archive : bytes) :
  create_archive entries = Some archive ->
  length archive =
    (20 + sum_list_with
            (fun e => 22 + length (default [] (utf8_encode (filename e))) +
                      length (compressed_data e))
            entries)%nat.
Proof.
  unfold create_archive.
  change (header_serialize new_header)
    with (Some ([x4c; x5a; x48; x41; x01; x00] ++ replicate 10 x00)).
  cbn [mbind option_bind].
  destruct (pack 4 _) as [n|] eqn:En; [|done]. cbn [mbind option_bind].
  destruct (write_entries entries) as [body|] eqn:Eb; [|done].
  cbn [mbind option_bind]. intros Heq%(inj Some). subst archive.
  apply unpack_pack in En as [_ Ln].
  rewrite !length_app, Ln. cbn [length replicate].
  assert (Hbody : length body =
            sum_list_with
              (fun e => 22 + length (default [] (utf8_encode (filename e))) +
                        length (compressed_data e))%nat entries).
  { clear Ln. revert body Eb.
    induction entries as [|e es IH]; intros body; cbn [write_entries].
    - by intros [= <-].
    - destruct (_write_entry e) as [eb|] eqn:Ee; [|done].
      destruct (write_entries es) as [r|]; [|done].
      cbn [mbind option_bind]. intros Heq%(inj Some). subst body.
      rewrite length_app, (write_entry_length _ _ Ee), (IH r eq_refl).
      done. }
  lia.
Qed.

Lemma archive_size_witness :
  length ([x4c; x5a; x48; x41; x01; x00] ++ replicate 10 x00 ++
          [x01; x00; x00; x00] ++
          [x01; x00; x74] ++
          [x07; x00; x00; x00; x00; x00; x00; x00] ++
          [x02; x00; x00; x00; x00; x00; x00; x00] ++
          [x09; x00; x00; x00] ++ [xaa; xbb]) =
    (20 + sum_list_with
            (fun e => 22 + length (default [] (utf8_encode (filename e))) +
                      length (compressed_data e))
            [ {| filename := [116%Z]; original_size := 7%Z;
                 compressed_size := 2%Z; compressed_data := [xaa; xbb];
                 crc32 := 9%Z |} ])%nat.
Proof.
  apply archive_size. vm_compute. reflexivity.
Defined.

Lemma pack_is_Some (n : nat) (v : Z) :
  is_Some (pack n v) <-> 0 <= v < 256 ^ Z.of_nat n.
Proof.
  unfold pack. case_decide; split; done.
Qed.

(** X28. When the writer raises: [ArchiveFormat.create_archive] returns
    exactly when there are fewer than 2^32 entries and every entry has a
    name whose UTF-8 encoding exists and is shorter than 2^16 bytes,
    sizes between 0 and 2^64 - 1 and a checksum between 0 and 2^32 - 1.
    It does not compare [compressed_size] with the data it stores. *)
Theorem create_archive_accepts (entries : list FileEntry) :
  is_Some (create_archive entries) <->
  Z.of_nat (length entries) < 2 ^ 32 /\
  Forall (fun e =>
            (exists fb, utf8_encode (filename e) = Some fb /\
                        Z.of_nat (length fb) < 2 ^ 16) /\
            0 <= original_size e < 2 ^ 64 /\
            0 <= compressed_size e < 2 ^ 64 /\
            0 <= crc32 e < 2 ^ 32) entries.
Proof.
  assert (Hentry : forall e,
    is_Some (_write_entry e) <->
    (exists fb, utf8_encode (filename e) = Some fb /\
                Z.of_nat (length fb) < 2 ^ 16) /\
    0 <= original_size e < 2 ^ 64 /\
    0 <= compressed_size e < 2 ^ 64 /\
    0 <= crc32 e < 2 ^ 32).
  { intros e. unfold _write_entry.
    destruct (utf8_encode (filename e)) as [fb|]; cbn [mbind option_bind].
    2:{ split; [by intros [? ?]|]. by intros [(? & ? & _) _]. }
    pose proof (pack_is_Some 2 (Z.of_nat (length fb))) as H2.
    pose proof (pack_is_Some 8 (original_size e)) as Ho.
    pose proof (pack_is_Some 8 (compressed_size e)) as Hc.
    pose proof (pack_is_Some 4 (crc32 e)) as Hk.
    change (256 ^ Z.of_nat 2) with (2 ^ 16) in H2.
    change (256 ^ Z.of_nat 8) with (2 ^ 64) in Ho, Hc.
    change (256 ^ Z.of_nat 4) with (2 ^ 32) in Hk.
    destruct (pack 2 _) as [n|]; cbn [mbind option_bind].
    2:{ split; [by intros [? ?]|]. intros [(fb' & [= <-] & ?) _].
        destruct (proj2 H2) as [? ?]; [lia|done]. }
    destruct (pack 8 (original_size e)) as [o|]; cbn [mbind option_bind].
    2:{ split; [by intros [? ?]|]. intros (_ & ? & _).
        destruct (proj2 Ho) as [? ?]; [lia|done]. }
    destruct (pack 8 (compressed_size e)) as [c|]; cbn [mbind option_bind].
    2:{ split; [by intros [? ?]|]. intros (_ & _ & ? & _).
        destruct (proj2 Hc) as [? ?]; [lia|done]. }
    destruct (pack 4 (crc32 e)) as [k|]; cbn [mbind option_bind].
    2:{ split; [by intros [? ?]|]. intros (_ & _ & _ & ?).
        destruct (proj2 Hk) as [? ?]; [lia|done]. }
    split; [|done]. intros _.
    split; [exists fb; split; [done|]; apply H2; done|].
    split; [apply Ho; done|]. split; [apply Hc; done|apply Hk; done]. }
  assert (Hbody : is_Some (write_entries entries) <->
    Forall (fun e =>
              (exists fb, utf8_encode (filename e) = Some fb /\
                          Z.of_nat (length fb) < 2 ^ 16) /\
              0 <= original_size e < 2 ^ 64 /\
              0 <= compressed_size e < 2 ^ 64 /\
              0 <= crc32 e < 2 ^ 32) entries).
  { induction entries as [|e es IH]; cbn [write_entries].
    - split; [constructor|done].
    - split.
      + intros [r Hr].
        destruct (_write_entry e) as [eb|] eqn:Ee; [|done].
        destruct (write_entries es) as [er|]; [|done].
        constructor; [apply Hentry; by rewrite Ee|apply IH; done].
      + intros H. inversion H as [|? ? H1 H2]; subst.
        apply Hentry in H1 as [eb ->]. apply IH in H2 as [er ->]. done. }
  unfold create_archive.
  change (header_serialize new_header)
    with (Some ([x4c; x5a; x48; x41; x01; x00] ++ replicate 10 x00)).
  cbn [mbind option_bind].
  pose proof (pack_is_Some 4 (Z.of_nat (length entries))) as Hn.
  change (256 ^ Z.of_nat 4) with (2 ^ 32) in Hn.
  destruct (pack 4 _) as [n|]; cbn [mbind option_bind].
  2:{ split; [by intros [? ?]|]. intros [? _].
      destruct (proj2 Hn) as [? ?]; [lia|done]. }
  destruct (write_entries entries) as [body|]; cbn [mbind option_bind].
  - split; [|done]. intros _. split; [apply Hn; done|apply Hbody; done].
  - split; [by intros [? ?]|]. intros [_ H].
    destruct (proj2 Hbody H) as [? ?]. done.
Qed.

Lemma create_archive_accepts_witness :
  is_Some (create_archive
             [ {| filename := [116]; original_size := 7;
                  compressed_size := 5; compressed_data := [xaa; xbb];
                  crc32 := 9 |} ]) /\
  ~ is_Some (create_archive
               [ {| filename := [116]; original_size := 7;
                    compressed_size := 2; compressed_data := [xaa; xbb];
                    crc32 := 2 ^ 32 |} ]).
Proof.
  split.
  - apply create_archive_accepts. split; [simpl; lia|].
    constructor; [|constructor]. cbn [filename original_size
      compressed_size crc32].
    split; [exists [x74]; split; [reflexivity|simpl; lia]|]. lia.
  - intros H. apply create_archive_accepts in H as [_ H].
    inversion H as [|? ? (_ & _ & _ & Hk) _].
    cbn [crc32] in Hk. lia.
Defined.
End ContainerProperties.

(* ===================================================================== *)
(** ** Properties of archiver.py *)
(* ===================================================================== *)

Section ArchiverProperties.
Import Py Codec Compressor Huffman Format Archiver Spec.

(** X20. The LZ77 backend never more than doubles its input:
    [compress_data] returns for every buffer, and what it returns is at
    most twice as long as the buffer. *)
Theorem lz77_expansion_bound (data : bytes) :
  exists compressed,
    compress_data data = Some compressed /\
    (length compressed <= 2 * length data)%nat.
Proof.
  destruct (compress_with_size {| hash_chains := []; data := [] |} data)
    as (e & He & _ & Hsz).
  exists e. split; [|lia].
  unfold compress_data.
  replace (compress data)
    with (compress_with {| hash_chains := []; data := [] |} data).1
    by (by destruct data).
  done.
Qed.

(** X21. One file through [Archiver.compress_file] and
    [Archiver.decompress_file]: for a file shorter than 2^26 bytes whose
    name fits the container, with or without the Huffman stage and
    whatever the archiver has compressed before, the entry records the
    name, the length and the stored size, and [decompress_file] accepts
    the entry and writes the original bytes. *)
Theorem archiver_file_roundtrip
    (self : Archiver.t) (filename : ustr) (data : bytes) :
  file_ok (filename, data) ->
  exists entry self',
    compress_file self filename data = Some (entry, self') /\
    Format.filename entry = filename /\
    original_size entry = Z.of_nat (length data) /\
    compressed_size entry = Z.of_nat (length (compressed_data entry)) /\
    decompress_file self' entry = Some (Some data).
Proof.
  intros Hok.
  destruct (compress_file_spec self filename data Hok)
    as (entry & self' & Hc & Hflag & Hname & Hsize & _ & Heok & Hdec).
  exists entry, self'. split; [done|]. split; [done|]. split; [done|].
  split; [by destruct Heok|]. by apply Hdec.
Qed.

Lemma archiver_file_roundtrip_witness :
  exists entry self',
    compress_file (Archiver.init true) [97; 46; 116]
      [x61; x62; x63; x61; x62; x63; x61; x62; x63] = Some (entry, self') /\
    Format.filename entry = [97; 46; 116] /\
    original_size entry =
      Z.of_nat (length [x61; x62; x63; x61; x62; x63; x61; x62; x63]) /\
    compressed_size entry = Z.of_nat (length (compressed_data entry)) /\
    decompress_file self' entry =
      Some (Some [x61; x62; x63; x61; x62; x63; x61; x62; x63]).
Proof.
  apply archiver_file_roundtrip. split; cbn [fst snd].
  - exists [x61; x2e; x74]. split; [reflexivity|]. simpl. lia.
  - simpl. lia.
Defined.

(** X22. Archive and extract: for a non-empty list of files that the
    archiver can store, [Archiver.create_archive] writes an archive, and
    [Archiver.extract_archive] on these bytes goes through and writes
    every file, in order, under its name and with its original
    content. *)
Theorem archive_extract_roundtrip
    (self : Archiver.t) (files : list (ustr * bytes)) :
  files <> [] -> Forall file_ok files ->
  Z.of_nat (length files) < 2 ^ 32 ->
  exists archive self',
    Archiver.create_archive self files = Some (Some archive, self') /\
    extract_archive self' archive = Some files.
Proof.
  intros Hne Hok Hcount.
  destruct (compress_files_spec files self [] Hok)
    as (entries & self' & Hc & Hflag & Heok & Hnames & Hex).
  cbn [app] in Hc.
  assert (Hlen : length entries = length files).
  { rewrite <- (length_fmap Format.filename), Hnames. apply length_fmap. }
  destruct (read_archive_create entries Heok) as (archive & Hw & Hr);
    [by rewrite Hlen|].
  exists archive, self'. split.
  - unfold Archiver.create_archive. rewrite Hc. cbn [mbind option_bind].
    destruct entries as [|e es].
    + destruct files; [done|discriminate Hlen].
    + rewrite Hw. done.
  - unfold extract_archive. rewrite Hr. cbn [mbind option_bind].
    by apply Hex.
Qed.

Lemma archive_extract_roundtrip_witness :
  exists archive self',
    Archiver.create_archive (Archiver.init true)
      [([97], [x61; x61; x61; x61]); ([98], [])] =
      Some (Some archive, self') /\
    extract_archive self' archive =
      Some [([97], [x61; x61; x61; x61]); ([98], [])].
Proof.
  apply archive_extract_roundtrip.
  - discriminate.
  - constructor; [|constructor; [|constructor]].
    + split; cbn [fst snd]; [|simpl; lia].
      exists [x61]. split; [reflexivity|]. simpl. lia.
    + split; cbn [fst snd]; [|simpl; lia].
      exists [x62]. split; [reflexivity|]. simpl. lia.
  - simpl. lia.
Defined.

(** X23. The loop of [Archiver.add_files] keeps file names unique: if
    no two entries of the archive share a name, no two entries do
    afterwards, and the names afterwards are the old names together with
    the names of the added files. *)
Theorem add_files_keeps_names_unique
    (files : list (ustr * bytes)) (self self' : Archiver.t)
    (existing_entries entries : list FileEntry) :
  add_files_loop self existing_entries files = Some (entries, self') ->
  NoDup (Format.filename <$> existing_entries) ->
  NoDup (Format.filename <$> entries) /\
  forall name,
    name ∈ Format.filename <$> entries <->
    name ∈ Format.filename <$> existing_entries \/ name ∈ files.*1.
Proof.
  revert self existing_entries.
  induction files as [|[name data] files IH]; intros self existing.
  - intros [= <- <-] Hnd. split; [done|]. intros n. set_solver.
  - cbn [add_files_loop]. unfold add_file.
    destruct (compress_file self name data) as [[entry self1]|] eqn:Ec;
      [|done].
    cbn [mbind option_bind]. intros Hloop Hnd.
    assert (Hname : Format.filename entry = name).
    { unfold compress_file in Ec.
      destruct (compress_with _ _) as [tokens m'].
      destruct (encode_tokens tokens) as [lz|]; [|done].
      cbn [mbind option_bind] in Ec.
      destruct (if use_huffman self then _ else _) as [fc|]; [|done].
      cbn [mbind option_bind] in Ec. by injection Ec as <- _. }
    set (kept := filter (fun e => Format.filename e <> name) existing) in *.
    assert (Hkept : forall n, n ∈ Format.filename <$> kept <->
                      n ∈ Format.filename <$> existing /\ n <> name).
    { intros n. unfold kept. rewrite !list_elem_of_fmap. split.
      - intros (e & -> & He). apply list_elem_of_filter in He as [? ?].
        split; [by exists e|done].
      - intros [(e & -> & He) Hn]. exists e. split; [done|].
        by apply list_elem_of_filter. }
    apply IH in Hloop as [Hnd' Hnames].
    + split; [done|]. intros n. rewrite Hnames.
      rewrite fmap_app, elem_of_app, Hkept. cbn [fmap list_fmap fst].
      rewrite Hname, list_elem_of_singleton, elem_of_cons.
      destruct (decide (n = name)); naive_solver.
    + rewrite fmap_app. apply NoDup_app. split; [|split].
      * assert (Hs : (Format.filename <$> kept)
                       `sublist_of` (Format.filename <$> existing))
          by (apply fmap_sublist, sublist_filter).
        exact (sublist_NoDup _ _ Hnd Hs).
      * intros n Hn%Hkept. cbn [fmap list_fmap]. rewrite Hname.
        rewrite list_elem_of_singleton. by destruct Hn.
      * cbn [fmap list_fmap]. apply NoDup_singleton.
Qed.

Lemma add_files_keeps_names_unique_witness :
  exists entries self',
    add_files_loop (Archiver.init false)
      [ {| filename := [97]; original_size := 1; compressed_size := 2;
           compressed_data := [x00; x61]; crc32 := 0 |} ]
      [([97], [x62]); ([98], [x63])] = Some (entries, self') /\
    NoDup (Format.filename <$> entries) /\
    forall name,
      name ∈ Format.filename <$> entries <->
      name ∈ Format.filename <$>
        [ {| filename := [97]; original_size := 1; compressed_size := 2;
             compressed_data := [x00; x61]; crc32 := 0 |} ] \/
      name ∈ [([97], [x62]); ([98], [x63])].*1.
Proof.
  destruct (add_files_loop (Archiver.init false)
      [ {| filename := [97]; original_size := 1; compressed_size := 2;
           compressed_data := [x00; x61]; crc32 := 0 |} ]
      [([97], [x62]); ([98], [x63])]) as [[entries self']|] eqn:E;
    [|by vm_compute in E].
  exists entries, self'. split; [done|].
  apply (add_files_keeps_names_unique _ _ _ _ _ E).
  cbn [fmap list_fmap]. apply NoDup_singleton.
Defined.
End ArchiverProperties.

(* ===================================================================== *)
(** ** Further properties of lzma_compressor.py *)
(* ===================================================================== *)

Section LZMAProperties.
Import Py Lzma Spec.

Lemma run_length_bound (data : bytes) (p q : Z) (n : nat) :
  forall (len count r : Z),
  run_length n data len p q count = Some r ->
  count <= r <= count + Z.of_nat n /\
  (r = count \/ q + len + (r - count) <= Z.of_nat (length data)).
Proof.
  induction n as [|n IH]; intros len count r; cbn [run_length].
  - intros [= <-]. lia.
  - case_decide as Hend; [intros [= <-]; lia|].
    destruct (index data (p + len)) as [a|]; [|done].
    destruct (index data (q + len)) as [b|]; [|done].
    cbn [mbind option_bind].
    case_decide as Heq; [|intros [= <-]; lia].
    intros Hr%IH. lia.
Qed.

Lemma probe_reps_bound (data : bytes) (current_pos nreps : Z)
    (reps : list Z) :
  forall (i max_len best_dist : Z) (r : Z * Z),
  0 <= i -> i + Z.of_nat (length reps) <= nreps ->
  match_result_ok data current_pos nreps (max_len, best_dist) ->
  probe_reps data current_pos i reps max_len best_dist = Some r ->
  match_result_ok data current_pos nreps r.
Proof.
  induction reps as [|rep reps IH]; intros i l0 d0 r Hi Hn Hok;
    cbn [probe_reps].
  - by intros [= <-].
  - cbn [length] in Hn.
    case_decide; [apply IH; [lia|lia|done]|].
    destruct (run_length _ _ _ _ _ _) as [rep_len|] eqn:E; [|done].
    cbn [mbind option_bind].
    apply run_length_bound in E. change (Z.of_nat (Z.to_nat MAX_MATCH))
      with 273 in E.
    unfold MIN_MATCH.
    case_decide; apply IH; try lia; try done.
    right. cbn [fst snd]. lia.
Qed.

Lemma search_window_bound (data : bytes) (current_pos nreps : Z) (n : nat) :
  forall (match_pos max_len best_dist : Z) (r : Z * Z),
  current_pos - 65536 <= match_pos -> 0 <= match_pos ->
  (n = 0%nat \/ match_pos + Z.of_nat n <= current_pos) ->
  match_result_ok data current_pos nreps (max_len, best_dist) ->
  search_window n data current_pos match_pos max_len best_dist = Some r ->
  match_result_ok data current_pos nreps r.
Proof.
  induction n as [|n IH]; intros mp l0 d0 r Hw Hmp Hn Hok;
    cbn [search_window].
  - by intros [= <-].
  - destruct Hn as [|Hn]; [done|].
    destruct (run_length _ _ _ _ _ _) as [cl|] eqn:E; [|done].
    cbn [mbind option_bind].
    apply run_length_bound in E.
    assert (0 <= l0 <= 273) as Hl0.
    { destruct Hok as [[? ?]|(? & _)]; cbn [fst] in *; lia. }
    unfold MAX_MATCH in *. rewrite Z2Nat.id in E by lia.
    unfold MIN_MATCH.
    case_decide as Hbetter.
    + assert (match_result_ok data current_pos nreps (cl, current_pos - mp))
        as Hnew.
      { right. cbn [fst snd]. lia. }
      case_decide; [by intros [= <-]|].
      apply IH; [lia|lia|lia|done].
    + apply IH; [lia|lia|lia|done].
Qed.

(** X24. However the models and the input are, a length that
    [_decode_length] returns lies between 3 and 10: the three low bits
    always give a value below 8, so its middle and high branches are
    never taken, although [_encode_length] codes lengths up to 273.
From a normalized decoder and proper low length models it does
return. *)
Theorem decode_length_at_most_10
    (c : LZMACompressor) (d : RangeDecoder.t) (pos_state : Z) :
  (forall len s',
     _decode_length pos_state (c, d) = Some (len, s') -> 3 <= len <= 10) /\
  (decoder_ok d -> 0 <= pos_state -> len_low_ok c pos_state ->
   is_Some (_decode_length pos_state (c, d))).
Proof.
  split.
  - intros len s'. apply decode_length_range.
  - apply decode_length_total.
Qed.

Lemma decode_length_at_most_10_witness :
  decoder_ok (RangeDecoder.init [x12; x34; x56; x78; x9a; xbc]) /\
  len_low_ok (init 6) 2 /\
  is_Some (_decode_length 2
             (init 6, RangeDecoder.init [x12; x34; x56; x78; x9a; xbc])).
Proof.
  assert (Hd : decoder_ok (RangeDecoder.init [x12; x34; x56; x78; x9a; xbc])).
  { unfold decoder_ok. split; by vm_compute. }
  assert (Hc : len_low_ok (init 6) 2).
  { intros i Hi. exists 1024. split; [|lia].
    assert (i = 0 \/ i = 1 \/ i = 2) as [-> | [-> | ->]] by lia;
      reflexivity. }
  split; [exact Hd|]. split; [exact Hc|].
  exact (proj2 (decode_length_at_most_10 _ _ 2) Hd ltac:(lia) Hc).
Defined.

(** X25. One call of [RangeDecoder.decode_bit] on a normalized decoder,
    with a probability strictly between 0 and 2048: it returns, the bit
    is 0 or 1, the updated probability is again strictly between 0 and
    2048, the decoder is normalized again, and at most two bytes of the
    input have been consumed. *)
Theorem decode_bit_keeps_invariants (model : Z) (d : RangeDecoder.t) :
  decoder_ok d -> 0 < model < 2048 ->
  exists bit new_model d',
    RangeDecoder.decode_bit model d = Some ((bit, new_model), d') /\
    (bit = 0 \/ bit = 1) /\ 0 < new_model < 2048 /\ decoder_ok d' /\
    RangeDecoder.data d' = RangeDecoder.data d /\
    (RangeDecoder.pos d <= RangeDecoder.pos d' <= RangeDecoder.pos d + 2)%nat.
Proof. apply decode_bit_spec. Qed.

Lemma decode_bit_keeps_invariants_witness :
  exists bit new_model d',
    RangeDecoder.decode_bit 1024
      (RangeDecoder.init [x12; x34; x56; x78; x9a; xbc]) =
      Some ((bit, new_model), d') /\
    (bit = 0 \/ bit = 1) /\ 0 < new_model < 2048 /\ decoder_ok d' /\
    RangeDecoder.data d' =
      RangeDecoder.data (RangeDecoder.init [x12; x34; x56; x78; x9a; xbc]) /\
    (RangeDecoder.pos (RangeDecoder.init [x12; x34; x56; x78; x9a; xbc])
       <= RangeDecoder.pos d'
       <= RangeDecoder.pos
            (RangeDecoder.init [x12; x34; x56; x78; x9a; xbc]) + 2)%nat.
Proof.
  apply decode_bit_keeps_invariants.
  - unfold decoder_ok. split; by vm_compute.
  - lia.
Defined.

(** X26. What [_find_longest_match] can return at a position at or
    after the start of the buffer: either no match, as (0, 0), or a
    length between 3 and 273 that does not run past the end of the
    buffer, with either the negated index of a repeat distance or a
    distance between 1 and the position, at most 65536. *)
Theorem find_longest_match_bounds
    (data : bytes) (current_pos : Z) (rep_distances : list Z)
    (max_len best_dist : Z) :
  0 <= current_pos ->
  _find_longest_match data current_pos rep_distances =
    Some (max_len, best_dist) ->
  (max_len = 0 /\ best_dist = 0) \/
  (3 <= max_len <= 273 /\
   current_pos + max_len <= Z.of_nat (length data) /\
   (- Z.of_nat (length rep_distances) <= best_dist <= -1 \/
    1 <= best_dist <= current_pos /\ best_dist <= 65536)).
Proof.
  intros Hpos. unfold _find_longest_match.
  destruct (probe_reps _ _ _ _ _ _) as [[l0 d0]|] eqn:E1; [|done].
  cbn [mbind option_bind]. intros E2.
  apply (probe_reps_bound data current_pos
           (Z.of_nat (length rep_distances))) in E1;
    [|lia|lia|left; cbn [fst snd]; lia].
  apply (search_window_bound data current_pos
           (Z.of_nat (length rep_distances))) in E2;
    [exact E2| | | |exact E1];
    change WINDOW_SIZE with 65536; lia.
Qed.

Lemma find_longest_match_bounds_witness :
  _find_longest_match [x61; x62; x63; x64; x61; x62; x63; x64] 4
    [1; 1; 1; 1] = Some (4, 4) /\
  ((4 = 0 /\ 4 = 0) \/
   (3 <= 4 <= 273 /\
    4 + 4 <= Z.of_nat (length [x61; x62; x63; x64; x61; x62; x63; x64]) /\
    (- Z.of_nat (length [1; 1; 1; 1]) <= 4 <= -1 \/
     1 <= 4 <= 4 /\ 4 <= 65536))).
Proof.
  assert (H : _find_longest_match
                [x61; x62; x63; x64; x61; x62; x63; x64] 4 [1; 1; 1; 1] =
              Some (4, 4)) by (vm_compute; reflexivity).
  split; [exact H|].
  exact (find_longest_match_bounds _ 4 _ _ _ ltac:(lia) H).
Defined.
End LZMAProperties.
